(** * Booking aggregation and availability engine

    A shallow embedding of the time normaliser ([toUtcMs]), the paged
    booking fetchers, the availability aggregators, the client-side
    availability cache, the instructor assignment filters and the month
    grid of the dashboard, together with the properties established about
    them.

    Conventions.  JavaScript numbers that denote instants or counts are
    integers far below 2^53, where doubles are exact, so finite numbers are
    modelled by [Z]; the non-finite values are explicit constructors.
    Platform services that are not part of the repository ([Date.parse],
    the IANA time-zone database behind [Intl.DateTimeFormat], the collation
    behind [localeCompare], the clock) are parameters of the sections that
    use them. *)

From Stdlib Require Import ZArith Lia Ascii String List Permutation Sorted.
From stdpp Require Import base option list strings pretty gmap.

Local Open Scope Z_scope.

(** ** JavaScript values used by the code *)

Module Js.

(** A JavaScript number: finite (integral) or one of the three specials. *)
Inductive number :=
  | NaN
  | PInf
  | NInf
  | Fin (z : Z).

(** [a < b] on numbers; any comparison with [NaN] is false. *)
Definition ltb (a b : number) : bool :=
  match a, b with
  | NaN, _ | _, NaN => false
  | Fin x, Fin y => x <? y
  | NInf, NInf => false
  | NInf, _ => true
  | _, PInf => match a with PInf => false | _ => true end
  | PInf, _ => false
  | Fin _, NInf => false
  end.

(** [a * k] for a positive finite constant [k]. *)
Definition mul_pos (a : number) (k : Z) : number :=
  match a with
  | Fin x => Fin (x * k)
  | other => other
  end.

(** [Number.isFinite]. *)
Definition isFinite (a : number) : bool :=
  match a with Fin _ => true | _ => false end.

(** [a > b] and [a <= b]. *)
Definition gtb (a b : number) : bool := ltb b a.

Definition leb (a b : number) : bool :=
  match a, b with
  | NaN, _ | _, NaN => false
  | Fin x, Fin y => x <=? y
  | NInf, _ => true
  | _, PInf => true
  | _, _ => false
  end.

(** Truthiness of a number: [0] and [NaN] are falsy. *)
Definition truthy (a : number) : bool :=
  match a with
  | NaN | Fin 0 => false
  | _ => true
  end.

(** [a || b] on numbers. *)
Definition or (a b : number) : number := if truthy a then a else b.

(** [Math.max(a, b)]: [NaN] is absorbing. *)
Definition max (a b : number) : number :=
  match a, b with
  | NaN, _ | _, NaN => NaN
  | PInf, _ | _, PInf => PInf
  | NInf, x | x, NInf => x
  | Fin x, Fin y => Fin (Z.max x y)
  end.

(** [a - b]; the difference of equal infinities is [NaN]. *)
Definition sub (a b : number) : number :=
  match a, b with
  | NaN, _ | _, NaN => NaN
  | Fin x, Fin y => Fin (x - y)
  | PInf, PInf | NInf, NInf => NaN
  | PInf, _ | _, NInf => PInf
  | NInf, _ | _, PInf => NInf
  end.

(** [TimeClip]: the time value of [new Date(v)]; an instant out of range
    makes an invalid date, whose time value is [NaN]. *)
Definition time_clip (a : number) : number :=
  match a with
  | Fin z => if Z.abs z <=? 8640000000000000 then Fin z else NaN
  | _ => NaN
  end.

(** [Math.abs]. *)
Definition abs (a : number) : number :=
  match a with
  | NaN => NaN
  | PInf | NInf => PInf
  | Fin x => Fin (Z.abs x)
  end.

Global Instance number_eq_dec : EqDecision number.
Proof. solve_decision. Defined.

(** [String(a)] / template-literal conversion (integral values). *)
Definition to_string (a : number) : string :=
  match a with
  | NaN => "NaN"
  | PInf => "Infinity"
  | NInf => "-Infinity"
  | Fin z => pretty z
  end.

(** The result of running code that may throw. *)
Inductive outcome (A : Type) :=
  | Ok (a : A)
  | Throw.
Arguments Ok {A} a.
Arguments Throw {A}.

End Js.

(** ** JavaScript [Map]: entries in insertion order, updated in place *)

Module JsMap.

Section Ops.

Context {K V : Type} `{EqDecision K}.

Fixpoint get (k : K) (m : list (K * V)) : option V :=
  match m with
  | [] => None
  | (k', v) :: m' => if decide (k' = k) then Some v else get k m'
  end.

(** [m.set(k, v)]: an existing key keeps its position, a new key goes to
    the end. *)
Fixpoint put (k : K) (v : V) (m : list (K * V)) : list (K * V) :=
  match m with
  | [] => [(k, v)]
  | (k', v') :: m' =>
      if decide (k' = k) then (k, v) :: m' else (k', v') :: put k v m'
  end.

(** [m.values()] *)
Definition values (m : list (K * V)) : list V := map snd m.

(** The distinct keys of a sequence, each at the place of its first
    occurrence: the order in which a loop of [set] calls creates them. *)
Definition first_seen (ks : list K) : list K :=
  fold_left (λ seen k, if decide (k ∈ seen) then seen else seen ++ [k]) ks [].

End Ops.

End JsMap.

(** ** Characters and strings *)

Module Str.

Definition code (c : ascii) : Z := Z.of_nat (nat_of_ascii c).

(** [\d] of a JavaScript regular expression: the ASCII digits only. *)
Definition is_digit (c : ascii) : bool := (48 <=? code c) && (code c <=? 57).

Definition digit_val (c : ascii) : Z := code c - 48.

(** White space removed by [String.prototype.trim], ASCII part. *)
Definition is_space (c : ascii) : bool :=
  ((9 <=? code c) && (code c <=? 13)) || (code c =? 32).

Fixpoint drop_space (cs : list ascii) : list ascii :=
  match cs with
  | c :: cs' => if is_space c then drop_space cs' else cs
  | [] => []
  end.

(** [s.trim()] *)
Definition trim (cs : list ascii) : list ascii :=
  rev (drop_space (rev (drop_space cs))).

(** [/^\d+$/.test(s)] *)
Definition all_digits (cs : list ascii) : bool :=
  match cs with
  | [] => false
  | _ => forallb is_digit cs
  end.

(** [parseInt(s, 10)] on a string of digits. *)
Definition parseInt (cs : list ascii) : Z :=
  fold_left (fun acc c => acc * 10 + digit_val c) cs 0.

(** [[+\-]\d{2}:\d{2}] matching a whole six-character string. *)
Definition is_offset (cs : list ascii) : bool :=
  match cs with
  | [sg; a; b; col; c; d] =>
      ((code sg =? 43) || (code sg =? 45)) && is_digit a && is_digit b
      && (code col =? 58) && is_digit c && is_digit d
  | _ => false
  end.

(** [/[zZ]|[+\-]\d{2}:\d{2}$/.test(s)]: a [z] or [Z] anywhere, or a numeric
    offset as the last six characters. *)
Definition has_tz_marker (cs : list ascii) : bool :=
  existsb (fun c => (code c =? 122) || (code c =? 90)) cs
  || is_offset (skipn (length cs - 6) cs).

(** [s.replace(" ", "T")]: only the first space is replaced. *)
Fixpoint replace_space (cs : list ascii) : list ascii :=
  match cs with
  | [] => []
  | c :: cs' => if code c =? 32 then "T"%char :: cs' else c :: replace_space cs'
  end.

(** Regular-expression pieces: [\d{n}] as a number, and one literal. *)
Fixpoint digits (n : nat) (acc : Z) (cs : list ascii) : option (Z * list ascii) :=
  match n with
  | O => Some (acc, cs)
  | S n' =>
      match cs with
      | c :: cs' =>
          if is_digit c then digits n' (acc * 10 + digit_val c) cs' else None
      | [] => None
      end
  end.

Definition lit (k : Z) (cs : list ascii) : option (list ascii) :=
  match cs with
  | c :: cs' => if code c =? k then Some cs' else None
  | [] => None
  end.

(** [/\dT\d/.test(s)] *)
Fixpoint has_digit_T_digit (cs : list ascii) : bool :=
  match cs with
  | a :: (t :: c :: _) as rest =>
      (is_digit a && (code t =? 84) && is_digit c) || has_digit_T_digit rest
  | _ => false
  end.

(** [[+-]\d{2}:?\d{2}] matching a whole string. *)
Definition is_offset_opt_colon (cs : list ascii) : bool :=
  match cs with
  | [sg; a; b; c; d] =>
      ((code sg =? 43) || (code sg =? 45)) && is_digit a && is_digit b
      && is_digit c && is_digit d
  | _ => is_offset cs
  end.

(** [/Z|[+-]\d{2}:?\d{2}$/.test(s)] *)
Definition has_iso_zone (cs : list ascii) : bool :=
  existsb (λ c, code c =? 90) cs
  || is_offset_opt_colon (skipn (length cs - 6) cs)
  || is_offset_opt_colon (skipn (length cs - 5) cs).

End Str.

(** ** Calendar arithmetic of [Date.UTC] *)

Module Cal.

(** Days from 1970-01-01 to the first day of month [mn] (0..11) of the
    proleptic Gregorian year [ym]. *)
Definition days_to_month (ym mn : Z) : Z :=
  let y := if mn <? 2 then ym - 1 else ym in
  let era := y / 400 in
  let yoe := y - era * 400 in
  let mp := (mn + 10) mod 12 in
  let doy := (153 * mp + 2) / 5 in
  let doe := yoe * 365 + yoe / 4 - yoe / 100 + doy in
  era * 146097 + doe - 719468.

(** [MakeDay(year, month, date)]: months outside 0..11 carry into the year,
    days outside the month carry into the neighbouring months. *)
Definition MakeDay (year month date : Z) : Z :=
  days_to_month (year + month / 12) (month mod 12) + date - 1.

(** [MakeTime(hour, min, sec, 0)]. *)
Definition MakeTime (h mi s : Z) : Z := h * 3600000 + mi * 60000 + s * 1000.

(** [Date.UTC(y, m, d, h, mi, s)]: years 0..99 mean 1900..1999.  The
    final [TimeClip] is the identity on the values reached here, whose
    magnitude stays below 8.64e15. *)
Definition DateUTC (y m d h mi s : Z) : Z :=
  let yr := if (0 <=? y) && (y <=? 99) then 1900 + y else y in
  MakeDay yr m d * 86400000 + MakeTime h mi s.

(** Wall-clock fields, as [formatToParts] reports them ([month] is 1..12). *)
Record fields := mkFields {
  year : Z; month : Z; day : Z; hour : Z; minute : Z; second : Z }.

(** The civil date of a day number (inverse of [days_to_month] plus day). *)
Definition civil_of_days (z : Z) : Z * Z * Z :=
  let z := z + 719468 in
  let era := z / 146097 in
  let doe := z - era * 146097 in
  let yoe := (doe - doe / 1460 + doe / 36524 - doe / 146096) / 365 in
  let doy := doe - (365 * yoe + yoe / 4 - yoe / 100) in
  let mp := (5 * doy + 2) / 153 in
  let d := doy - (153 * mp + 2) / 5 + 1 in
  let m := if mp <? 10 then mp + 3 else mp - 9 in
  let y := yoe + era * 400 + (if m <=? 2 then 1 else 0) in
  (y, m, d).

(** The fields of the instant [ms] read as a UTC wall clock, to the second. *)
Definition fields_of_ms (ms : Z) : fields :=
  let days := ms / 86400000 in
  let rest := ms mod 86400000 in
  let '(y, m, d) := civil_of_days days in
  mkFields y m d (rest / 3600000) (rest mod 3600000 / 60000)
           (rest mod 60000 / 1000).

(** [Date.UTC] applied to formatted fields, as both [getTzOffsetMs] and
    [zonedNaiveToUtcMs] call it (the month argument is zero-based). *)
Definition utc_of_fields (p : fields) : Z :=
  DateUTC (year p) (month p - 1) (day p) (hour p) (minute p) (second p).

(** Gregorian leap years and month lengths, to say which fields denote a
    wall-clock reading that exists in the calendar. *)
Definition leap (y : Z) : bool :=
  (y mod 4 =? 0) && (negb (y mod 100 =? 0) || (y mod 400 =? 0)).

Definition days_in_month (y m : Z) : Z :=
  if m =? 2 then (if leap y then 29 else 28)
  else if (m =? 4) || (m =? 6) || (m =? 9) || (m =? 11) then 30
  else 31.

Definition valid (p : fields) : Prop :=
  1 <= month p <= 12 ∧ 1 <= day p <= days_in_month (year p) (month p)
  ∧ 0 <= hour p < 24 ∧ 0 <= minute p < 60 ∧ 0 <= second p < 60.

End Cal.

(** ** The time normaliser (server [lib/time]) *)

Module Time.

Import Js.

Definition MS_THRESHOLD : Z := 1000000000000.

(** [Date.UTC(2000, 0, 1)] *)
Definition MIN_VALID : Z := Eval vm_compute in Cal.DateUTC 2000 0 1 0 0 0.

(** What a caller hands to [toUtcMs]: [null]/[undefined], a number or a
    string. *)
Inductive input :=
  | INull
  | INum (n : number)
  | IStr (s : string).

(** [parseNaiveDateTime]: the groups of
    [^(\d{4})-(\d{2})-(\d{2})(?:[ T](\d{2}):(\d{2})(?::(\d{2}))?)?$],
    absent time groups defaulting to ["00"]. *)
Definition parse_time (cs : list ascii) : option (Z * Z * Z) :=
  match cs with
  | [] => Some (0, 0, 0)
  | sep :: cs1 =>
      if (Str.code sep =? 32) || (Str.code sep =? 84) then
        '(h, cs2) ← Str.digits 2 0 cs1;
        cs3 ← Str.lit 58 cs2;
        '(mi, cs4) ← Str.digits 2 0 cs3;
        match cs4 with
        | [] => Some (h, mi, 0)
        | _ =>
            cs5 ← Str.lit 58 cs4;
            '(se, cs6) ← Str.digits 2 0 cs5;
            match cs6 with [] => Some (h, mi, se) | _ => None end
        end
      else None
  end.

Definition parseNaiveDateTime (cs : list ascii) : option Cal.fields :=
  '(y, cs1) ← Str.digits 4 0 cs;
  cs2 ← Str.lit 45 cs1;
  '(mo, cs3) ← Str.digits 2 0 cs2;
  cs4 ← Str.lit 45 cs3;
  '(d, cs5) ← Str.digits 2 0 cs4;
  '(h, mi, se) ← parse_time cs5;
  Some (Cal.mkFields y mo d h mi se).

Section WithPlatform.

(** The time-zone database of the platform: the UTC offset, in
    milliseconds, that a named zone observes at a UTC instant; [None] for a
    name the platform rejects (the formatter's constructor throws). *)
Variable tzdb : string → option (Z → Z).

(** [Date.parse]; [None] stands for [NaN]. *)
Variable dateParse : string → option Z.

(** [dtf.formatToParts(new Date(utcTs))] for the formatter of [timeZone]
    with 24-hour fields: the wall clock showing at that instant. *)
Definition formatToParts (timeZone : string) (utcTs : Z) : outcome Cal.fields :=
  match tzdb timeZone with
  | Some off => Ok (Cal.fields_of_ms (utcTs + off utcTs))
  | None => Throw
  end.

Definition getTzOffsetMs (utcTs : Z) (timeZone : string) : outcome Z :=
  match formatToParts timeZone utcTs with
  | Ok p =>
      let asUTC :=
        Cal.DateUTC (Cal.year p) (Cal.month p - 1) (Cal.day p)
                    (Cal.hour p) (Cal.minute p) (Cal.second p) in
      Ok (asUTC - utcTs)
  | Throw => Throw
  end.

Definition zonedNaiveToUtcMs (s : list ascii) (timeZone : string)
  : outcome (option Z) :=
  match parseNaiveDateTime s with
  | None => Ok None
  | Some p =>
      let localTs :=
        Cal.DateUTC (Cal.year p) (Cal.month p - 1) (Cal.day p)
                    (Cal.hour p) (Cal.minute p) (Cal.second p) in
      match getTzOffsetMs localTs timeZone with
      | Throw => Throw
      | Ok offset =>
          let utcTs := localTs - offset in
          match getTzOffsetMs utcTs timeZone with
          | Throw => Throw
          | Ok offset2 =>
              if negb (offset2 =? offset) then Ok (Some (localTs - offset2))
              else Ok (Some utcTs)
          end
      end
  end.

(** The sanity floor shared by all branches: [ms >= MIN_VALID ? ms : null]. *)
Definition floor_check (ms : Z) : option Z :=
  if MIN_VALID <=? ms then Some ms else None.

Definition toUtcMs (inp : input) (siteTz : string) : option Z :=
  match inp with
  | INull => None
  | INum n =>
      let ms := if ltb n (Fin MS_THRESHOLD) then mul_pos n 1000 else n in
      match ms with
      | Fin z => floor_check z
      | _ => None
      end
  | IStr str =>
      let s := Str.trim (list_ascii_of_string str) in
      match s with
      | [] => None
      | _ =>
          if Str.all_digits s then
            let sec := Str.parseInt s in
            let ms := if sec <? MS_THRESHOLD / 1000 then sec * 1000 else sec in
            floor_check ms
          else if Str.has_tz_marker s then
            match dateParse (string_of_list_ascii s) with
            | Some ms => floor_check ms
            | None => None
            end
          else
            match zonedNaiveToUtcMs (Str.replace_space s) siteTz with
            | Ok (Some ms) => floor_check ms
            | Ok None => None
            | Throw => None
            end
      end
  end.

End WithPlatform.

End Time.

(** ** Server routes: bookings listing and availability range *)

Module Server.

Import Js.

(** *** Configuration *)

(** The three environment variables; an unset variable is [None]. *)
Record env := mkEnv {
  WOOCOMMERCE_STORE_URL : option string;
  WOOCOMMERCE_CONSUMER_KEY : option string;
  WOOCOMMERCE_CONSUMER_SECRET : option string }.

Record config := mkConfig {
  url : string; consumerKey : string; consumerSecret : string }.

(** [!v] for a variable: unset or the empty string. *)
Definition missing (v : option string) : bool :=
  match v with
  | None => true
  | Some s => if decide (s = EmptyString) then true else false
  end.

(** [getWooConfig] of the bookings and of the availability routes: [null]
    when a variable is missing. *)
Definition getWooConfig (e : env) : option config :=
  match WOOCOMMERCE_STORE_URL e, WOOCOMMERCE_CONSUMER_KEY e,
        WOOCOMMERCE_CONSUMER_SECRET e with
  | Some u, Some k, Some sec =>
      if missing (Some u) || missing (Some k) || missing (Some sec) then None
      else Some (mkConfig u k sec)
  | _, _, _ => None
  end.

(** *** Upstream records *)

(** [person_counts] as it arrives: absent, a number, an array or a keyed
    object; an entry that is not a number is [None]. *)
Inductive counts :=
  | PCAbsent
  | PCNum (n : Z)
  | PCArr (ns : list (option Z))
  | PCObj (kvs : list (string * option Z))
  | PCOther.

(** A record of the bookings endpoint.  [product_id] is kept as the
    number that [Number(b.product_id)] yields; the time fields are whatever
    the upstream sent. *)
Record booking := mkBooking {
  id : Z;
  product_id : number;
  start : Time.input;
  end_ : Time.input;
  booking_start : Time.input;
  booking_end : Time.input;
  _booking_start : Time.input;
  _booking_end : Time.input;
  person_counts : counts;
  product_name : option string }.

(** *** Parsing a booking date for the range filter *)

(** [/^(\d{4})-(\d{2})-(\d{2}) (\d{2}):(\d{2}):(\d{2})$/] *)
Definition match_wc_format (cs : list ascii) : option Cal.fields :=
  '(y, cs) ← Str.digits 4 0 cs;
  cs ← Str.lit 45 cs;
  '(mo, cs) ← Str.digits 2 0 cs;
  cs ← Str.lit 45 cs;
  '(d, cs) ← Str.digits 2 0 cs;
  cs ← Str.lit 32 cs;
  '(h, cs) ← Str.digits 2 0 cs;
  cs ← Str.lit 58 cs;
  '(mi, cs) ← Str.digits 2 0 cs;
  cs ← Str.lit 58 cs;
  '(se, cs) ← Str.digits 2 0 cs;
  match cs with [] => Some (Cal.mkFields y mo d h mi se) | _ => None end.

(** [parseBookingDateToMs]; [now] is what [Date.now()] returns during the
    call and [dateParse] is [Date.parse] ([None] for [NaN]). *)
Definition parseBookingDateToMs (dateParse : string → option Z) (now : Z)
    (val : Time.input) : Z :=
  match val with
  | Time.INum (Fin v) => if 1000000000000 <? v then v else v * 1000
  | Time.IStr str =>
      let cs := list_ascii_of_string str in
      if Str.has_digit_T_digit cs && Str.has_iso_zone cs then
        match dateParse str with Some t => t | None => now end
      else
        match match_wc_format cs with
        | Some p => Cal.utc_of_fields p
        | None => match dateParse str with Some t => t | None => now end
        end
  | _ => now
  end.

(** The bounds of the defensive filter of [getBookings]: a missing (or
    empty) date leaves the side open. *)
Definition truthy_str (q : option string) : bool := negb (missing q).

Definition str_or_empty (q : option string) : string :=
  match q with Some s => s | None => EmptyString end.

Definition parse_bound (dateParse : string → option Z) (str : string) : number :=
  match dateParse str with Some t => Fin t | None => NaN end.

Definition minMs (dateParse : string → option Z) (start_date : option string)
  : number :=
  if truthy_str start_date
  then parse_bound dateParse (str_or_empty start_date +:+ "T00:00:00Z")
  else NInf.

Definition maxMs (dateParse : string → option Z) (end_date : option string)
  : number :=
  if truthy_str end_date
  then parse_bound dateParse (str_or_empty end_date +:+ "T23:59:59Z")
  else PInf.

(** The callback of [bookings.filter]: [s >= minMs && s <= maxMs]. *)
Definition in_range (dateParse : string → option Z)
    (start_date end_date : option string) (now : Z) (b : booking) : bool :=
  let s := Fin (parseBookingDateToMs dateParse now (start b)) in
  leb (minMs dateParse start_date) s && leb s (maxMs dateParse end_date).

(** The filter itself; [clock i] is the reading of [Date.now()] while the
    callback runs on the record at index [i]. *)
Fixpoint range_filter (dateParse : string → option Z)
    (start_date end_date : option string) (clock : nat → Z) (i : nat)
    (bs : list booking) : list booking :=
  match bs with
  | [] => []
  | b :: bs' =>
      if in_range dateParse start_date end_date (clock i) b
      then b :: range_filter dateParse start_date end_date clock (S i) bs'
      else range_filter dateParse start_date end_date clock (S i) bs'
  end.

Definition defensive_filter (dateParse : string → option Z)
    (start_date end_date : option string) (clock : nat → Z)
    (bs : list booking) : list booking :=
  if truthy_str start_date || truthy_str end_date
  then range_filter dateParse start_date end_date clock 0 bs
  else bs.

(** *** Paged fetching *)

(** What one page request comes back with. *)
Inductive page_result :=
  | FetchFailed            (* time-out or network error: [fetch] rejects *)
  | HttpError (status : Z) (* [!response.ok] *)
  | BadJson                (* [response.json()] rejects *)
  | Page (batch : list booking).

Definition perPage : nat := 100.

(** The [while (true)] loop of [getBookings]; [pages_left] counts the
    pages that the [page > 5] exit still allows.  Returns the pages
    requested, in order, and the accumulated records. *)
Fixpoint bookings_loop (upstream : nat → page_result) (pages_left : nat)
    (page : nat) (requested : list nat) (all : list booking)
  : list nat * list booking :=
  match pages_left with
  | O => (requested, all)
  | S rest =>
      let requested := requested ++ [page] in
      match upstream page with
      | Page batch =>
          let all := all ++ batch in
          if (length batch <? perPage)%nat then (requested, all)
          else bookings_loop upstream rest (S page) requested all
      | _ => (requested, all)
      end
  end.

Definition fetchBookingPages (upstream : nat → page_result)
  : list nat * list booking :=
  bookings_loop upstream 5 1 [] [].

(** The [while (page <= 5)] loop of [handleAvailabilityRange], whose
    [wooFetch] throws on a time-out, a non-2xx status or unreadable JSON. *)
Definition wooFetch (upstream : nat → page_result) (page : nat)
  : outcome (list booking) :=
  match upstream page with
  | Page batch => Ok batch
  | _ => Throw
  end.

Fixpoint availability_loop (upstream : nat → page_result) (pages_left : nat)
    (page : nat) (requested : list nat) (all : list booking)
  : list nat * list booking :=
  match pages_left with
  | O => (requested, all)
  | S rest =>
      let requested := requested ++ [page] in
      match wooFetch upstream page with
      | Throw => (requested, all)
      | Ok batch =>
          let all := all ++ batch in
          if (length batch <? 100)%nat then (requested, all)
          else availability_loop upstream rest (S page) requested all
      end
  end.

Definition fetchAvailabilityPages (upstream : nat → page_result)
  : list nat * list booking :=
  availability_loop upstream 5 1 [] [].

(** *** The bookings listing, [getBookings] *)

Definition BOOKINGS_TTL_MS : Z := 180 * 1000.

Record event := mkEvent {
  ev_booking_id : Z;
  ev_title : string;
  ev_start : Z;
  ev_end : Z;
  ev_participants : Z;
  ev_product_id : number }.

(** A JSON envelope; an absent field is [None] (or [false] for the flags
    that are only ever sent as [true]). *)
Record envelope (A : Type) := mkEnvelope {
  success : bool;
  data : option (list A);
  total : option Z;
  message : option string;
  error : option string;
  bookings_available : option bool;
  credentials_missing : bool;
  cached : bool }.
Arguments mkEnvelope {A}.
Arguments success {A}. Arguments data {A}. Arguments total {A}.
Arguments message {A}. Arguments error {A}.
Arguments bookings_available {A}. Arguments credentials_missing {A}.
Arguments cached {A}.

Record response (A : Type) := mkResponse {
  status : Z;
  body : envelope A }.
Arguments mkResponse {A}. Arguments status {A}. Arguments body {A}.

Definition sum_entries (ns : list (option Z)) : Z :=
  fold_left (λ s n, s + default 0 n) ns 0.

(** The participant count of an event: the sum of an array or object, the
    number itself, 1 when absent, and never less than 1. *)
Definition participants_of (pc : counts) : Z :=
  Z.max 1
    match pc with
    | PCArr ns => sum_entries ns
    | PCNum n => n
    | PCObj kvs => sum_entries (map snd kvs)
    | PCAbsent | PCOther => 1
    end.

(** [a ?? b] on raw time values. *)
Definition coalesce (a b : Time.input) : Time.input :=
  match a with Time.INull => b | _ => a end.

Record query := mkQuery {
  start_date : option string;
  end_date : option string;
  status_filter : option string }.

Definition cacheKey (q : query) : string :=
  str_or_empty (start_date q) +:+ "|" +:+ str_or_empty (end_date q) +:+ "|"
  +:+ str_or_empty (status_filter q).

(** What a request meets outside the handler: the upstream pages, the
    clock at the cache check, during the filter and at the cache write,
    the resolved site time zone and the product titles. *)
Record world := mkWorld {
  upstream : nat → page_result;
  now_check : Z;
  clock : nat → Z;
  now_store : Z;
  siteTz : option string;
  productTitle : number → option string }.

Section GetBookings.

Variable tzdb : string → option (Z → Z).
Variable dateParse : string → option Z.

Definition convert (w : world) (b : booking) : event :=
  let tz := match siteTz w with
            | Some z => if missing (Some z) then "UTC"%string else z
            | None => "UTC"%string
            end in
  let rawStart :=
    coalesce (coalesce (start b) (booking_start b)) (_booking_start b) in
  let rawEnd := coalesce (coalesce (end_ b) (booking_end b)) (_booking_end b) in
  let startMs := default 0 (Time.toUtcMs tzdb dateParse rawStart tz) in
  let endMs :=
    match Time.toUtcMs tzdb dateParse rawEnd tz with
    | Some e => if e =? 0 then startMs else e
    | None => startMs
    end in
  let name :=
    match product_name b with
    | Some n => if missing (Some n) then productTitle w (product_id b) else Some n
    | None => productTitle w (product_id b)
    end in
  mkEvent (id b)
    match name with
    | Some n => if missing (Some n) then "Booking #" +:+ pretty (id b) else n
    | None => "Booking #" +:+ pretty (id b)
    end
    startMs endMs (participants_of (person_counts b)) (product_id b).

Definition credentials_message : string :=
  "WooCommerce credentials not configured. Please set environment variables to connect to your store.".

Definition no_plugin_message : string :=
  "WooCommerce Bookings plugin not detected. Using demo mode.".

Definition getBookings (e : env) (q : query) (w : world)
    (bookingsCache : gmap string (Z * list event))
  : response event * gmap string (Z * list event) :=
  match getWooConfig e with
  | None =>
      (mkResponse 200
         (mkEnvelope true (Some []) (Some 0) (Some credentials_message) None
            (Some false) true false),
       bookingsCache)
  | Some _ =>
      let key := cacheKey q in
      let hit :=
        match bookingsCache !! key with
        | Some (ts, evs) =>
            if now_check w - ts <? BOOKINGS_TTL_MS then Some evs else None
        | None => None
        end in
      match hit with
      | Some evs =>
          (mkResponse 200
             (mkEnvelope true (Some evs) (Some (Z.of_nat (length evs))) None
                None (Some true) false true),
           bookingsCache)
      | None =>
          let all := (fetchBookingPages (upstream w)).2 in
          let bookings :=
            defensive_filter dateParse (start_date q) (end_date q) (clock w) all in
          match bookings with
          | [] =>
              (mkResponse 200
                 (mkEnvelope true (Some []) (Some 0) (Some no_plugin_message)
                    None (Some false) false false),
               bookingsCache)
          | _ =>
              let events := map (convert w) bookings in
              (mkResponse 200
                 (mkEnvelope true (Some events)
                    (Some (Z.of_nat (length bookings))) None None (Some true)
                    false false),
               <[key := (now_store w, events)]> bookingsCache)
          end
      end
  end.

End GetBookings.

(** *** The availability range, [handleAvailabilityRange] *)

(** [parseCounts]: 1 for a falsy or unusable value, otherwise the number or
    the sum of the entries, never less than 1. *)
Definition parseCounts (pc : counts) : Z :=
  match pc with
  | PCAbsent => 1
  | PCNum n => if n =? 0 then 1 else Z.max 1 n
  | PCArr ns => Z.max 1 (sum_entries ns)
  | PCObj kvs => Z.max 1 (sum_entries (map snd kvs))
  | PCOther => 1
  end.

(** The instant of a slot boundary: a number above 10^12 is milliseconds,
    another number is seconds, anything else goes through [Date.parse]. *)
Definition slot_ms (dateParse : string → option Z) (v : Time.input) : number :=
  match v with
  | Time.INum n => if gtb n (Fin 1000000000000) then n else mul_pos n 1000
  | Time.IStr str => parse_bound dateParse str
  | Time.INull => NaN
  end.

(** One entry of the grouping map.  The map key [`${pid}|${start}`] is
    determined by, and determines, the pair of the two numbers. *)
Record group := mkGroup {
  g_product_id : number;
  g_start : number;
  g_end : number;
  g_used : Z }.

Abbreviation group_key := (number * number)%type.

(** [allowedIds.size && !allowedIds.has(Number(b.product_id))] *)
Definition skipped (allowedIds : list Z) (b : booking) : bool :=
  match allowedIds with
  | [] => false
  | _ =>
      match product_id b with
      | Fin pid => negb (bool_decide (pid ∈ allowedIds))
      | _ => true
      end
  end.

(** The body of [for (const b of all)]. *)
Definition add_booking (dateParse : string → option Z) (allowedIds : list Z)
    (m : list (group_key * group)) (b : booking) : list (group_key * group) :=
  if skipped allowedIds b then m
  else
    let startMs := slot_ms dateParse (start b) in
    let endMs := slot_ms dateParse (end_ b) in
    let pid := product_id b in
    let k := (pid, startMs) in
    let used := parseCounts (person_counts b) in
    match JsMap.get k m with
    | Some prev =>
        JsMap.put k
          (mkGroup (g_product_id prev) (g_start prev)
             (max (g_end prev) (or endMs (g_end prev)))
             (g_used prev + used))
          m
    | None => JsMap.put k (mkGroup pid startMs (or endMs startMs) used) m
    end.

Definition group_bookings (dateParse : string → option Z) (allowedIds : list Z)
    (all : list booking) : list (group_key * group) :=
  fold_left (add_booking dateParse allowedIds) all [].

(** One element of the response. *)
Record slot := mkSlot {
  s_product_id : number;
  s_product_name : string;
  s_start : Z;
  s_end : Z;
  s_used : Z;
  s_total : option Z }.

(** [new Date(v).toISOString()], identified with the instant it prints; it
    throws a [RangeError] on an invalid date. *)
Definition toISOString (v : number) : outcome Z :=
  match v with
  | Fin z => if Z.abs z <=? 8640000000000000 then Ok z else Throw
  | _ => Throw
  end.

(** [nameMap.get(pid) || `Product #${pid}`] *)
Definition product_label (names : number → option string) (pid : number)
  : string :=
  match names pid with
  | Some n => if missing (Some n) then "Product #" +:+ to_string pid else n
  | None => "Product #" +:+ to_string pid
  end.

(** [for (const v of map.values()) out.push(...)] *)
Fixpoint emit (names : number → option string) (totals : number → option Z)
    (vs : list group) : outcome (list slot) :=
  match vs with
  | [] => Ok []
  | v :: m' =>
      match toISOString (g_start v), toISOString (g_end v) with
      | Ok s, Ok e =>
          match emit names totals m' with
          | Ok out =>
              Ok (mkSlot (g_product_id v) (product_label names (g_product_id v))
                    s e (g_used v) (totals (g_product_id v)) :: out)
          | Throw => Throw
          end
      | _, _ => Throw
      end
  end.

Definition AVAIL_TTL : Z := 10 * 60 * 1000.

Definition not_configured : string := "WooCommerce credentials not configured".

(** The message of the [RangeError] that [toISOString] throws. *)
Definition invalid_time : string := "Invalid time value".

(** The handler.  [cached] is the entry of [AVAIL_RANGE_CACHE] under the
    request's key, if any; the second component is the entry written. *)
Definition handleAvailabilityRange (dateParse : string → option Z)
    (e : env) (product_ids : list (option Z))
    (cached : option (Z * list slot)) (now : Z)
    (upstream : nat → page_result)
    (names : number → option string) (totals : number → option Z)
  : response slot * option (list slot) :=
  let allowedIds :=
    omap (λ n, match n with
               | Some v => if 0 <? v then Some v else None
               | None => None
               end) product_ids in
  match getWooConfig e with
  | None =>
      (mkResponse 400
         (mkEnvelope false None None None (Some not_configured) None false false),
       None)
  | Some _ =>
      let hit :=
        match cached with
        | Some (ts, d) => if now - ts <? AVAIL_TTL then Some d else None
        | None => None
        end in
      match hit with
      | Some d =>
          (mkResponse 200
             (mkEnvelope true (Some d) (Some (Z.of_nat (length d))) None None
                None false true),
           None)
      | None =>
          let all := (fetchAvailabilityPages upstream).2 in
          let m := group_bookings dateParse allowedIds all in
          match emit names totals (JsMap.values m) with
          | Ok out =>
              (mkResponse 200
                 (mkEnvelope true (Some out) (Some (Z.of_nat (length out)))
                    None None None false false),
               Some out)
          | Throw =>
              (mkResponse 500
                 (mkEnvelope false None None None (Some invalid_time)
                    None false false),
               None)
          end
      end
  end.

(** *** Notions used to state the properties of the listing *)

(** A query parameter without the separator of the cache key. *)
Definition no_bar (q : option string) : bool :=
  forallb (λ c, negb (Str.code c =? 124)) (list_ascii_of_string (str_or_empty q)).

(** The requested range, read off the query: at or after 00:00:00Z of
    [start_date] and at or before 23:59:59Z of [end_date], for the bounds
    that are given; a bound that is given but unreadable admits nothing. *)
Definition in_requested_range (dateParse : string → option Z) (q : query)
    (s : Z) : Prop :=
  (truthy_str (start_date q) = true →
   ∃ lo, dateParse (str_or_empty (start_date q) +:+ "T00:00:00Z") = Some lo
         ∧ lo <= s)
  ∧ (truthy_str (end_date q) = true →
     ∃ hi, dateParse (str_or_empty (end_date q) +:+ "T23:59:59Z") = Some hi
           ∧ s <= hi).

(** A page request that did not deliver a batch, and the batch of one that
    did (used to state what the loops return). *)
Definition failed (r : page_result) : Prop :=
  match r with Page _ => False | _ => True end.

Definition batch_of (r : page_result) : list booking :=
  match r with Page batch => batch | _ => [] end.

End Server.

(** ** Client: availability service and booking calendar *)

Module Client.

Import Js.

(** A calendar event as the service hands it to the calendar.  The
    identifiers are 0 when the field is absent; [e_start] is the time value
    of the [start] date and [e_end] that of [end], if there is one. *)
Record calendar_event := mkCalEvent {
  e_bookingId : Z;       (* wooCommerceData?.bookingId *)
  e_productId : Z;       (* wooCommerceData?.productId *)
  e_own_bookingId : Z;   (* bookingId *)
  e_own_productId : Z;   (* productId *)
  e_start : number;
  e_end : option number;
  e_participants : Z }.

(** [a || b] on identifiers and counts. *)
Definition zor (a b : Z) : Z := if a =? 0 then b else a.

(** An [AvailabilitySlot]; the dates are kept as their time values. *)
Record avail_slot := mkAvail {
  productId : number;
  productName : string;
  slot_start : number;
  slot_end : number;
  used : Z;
  total : option Z }.

Global Instance avail_slot_eq_dec : EqDecision avail_slot.
Proof. solve_decision. Defined.

(** The local calendar day of a date, the key of the by-date index:
    [None] stands for the key ["NaN-NaN-NaN"] of an invalid date. *)
Definition day_key : Type := option (Z * Z * Z).

(** Stable sorting with a comparator, as [Array.prototype.sort] does for a
    consistent comparator: [x] goes before the first element that it does
    not sort after. *)
Section Sort.

Context {A : Type} (cmp : A → A → number).

Fixpoint insert (x : A) (l : list A) : list A :=
  match l with
  | [] => [x]
  | y :: l' => if gtb (cmp x y) (Fin 0) then y :: insert x l' else x :: l
  end.

Fixpoint sort (l : list A) : list A :=
  match l with
  | [] => []
  | x :: l' => insert x (sort l')
  end.

End Sort.

(** [if (!byDate[k]) byDate[k] = []; byDate[k].push(x)] *)
Fixpoint push_slot (k : day_key) (x : avail_slot)
    (byDate : list (day_key * list avail_slot)) : list (day_key * list avail_slot) :=
  match byDate with
  | [] => [(k, [x])]
  | (k', l) :: rest =>
      if decide (k' = k) then (k', l ++ [x]) :: rest
      else (k', l) :: push_slot k x rest
  end.

(** One entry of the grouping map of [buildFallbackFromBookings]. *)
Record cgroup := mkCGroup {
  cg_productId : Z;
  cg_start : number;
  cg_end : number;
  cg_used : Z }.

Section Availability.

(** The browser's zone (offset from UTC at an instant), the collation of
    [localeCompare], and the product names that [getProductById] finds. *)
Variable localOffset : Z → Z.
Variable localeCompare : string → string → Z.
Variable productNames : Z → option string.

Definition local_day (t : number) : day_key :=
  match time_clip t with
  | Fin z =>
      let f := Cal.fields_of_ms (z + localOffset z) in
      Some (Cal.year f, Cal.month f, Cal.day f)
  | _ => None
  end.

(** The comparator of both [list.sort] calls:
    [a.start.getTime() - b.start.getTime() || a.productName.localeCompare(b.productName)] *)
Definition compare_slots (a b : avail_slot) : number :=
  or (sub (slot_start a) (slot_start b))
     (Fin (localeCompare (productName a) (productName b))).

Definition index_by_date (slots : list avail_slot)
  : list (day_key * list avail_slot) :=
  map (λ kl, (kl.1, sort compare_slots kl.2))
      (fold_left (λ byDate x, push_slot (local_day (slot_start x)) x byDate)
                 slots []).

(** [buildFromServer], from the [data] array of the server's answer. *)
Definition slot_of_server (it : Server.slot) : avail_slot :=
  mkAvail (Server.s_product_id it)
    (if decide (Server.s_product_name it = EmptyString)
     then "Product #" +:+ to_string (Server.s_product_id it)
     else Server.s_product_name it)
    (time_clip (Fin (Server.s_start it)))
    (time_clip (Fin (Server.s_end it)))
    (Server.s_used it)
    (Server.s_total it).

Definition buildFromServer (data : list Server.slot)
  : list (day_key * list avail_slot) :=
  index_by_date (map slot_of_server data).

(** [buildFallbackFromBookings]: the loop over the events ... *)
Definition add_event (grouped : list (Z * number * cgroup)) (ev : calendar_event)
  : list (Z * number * cgroup) :=
  let pid := e_productId ev in
  let start := e_start ev in
  let end_ := or (default NaN (e_end ev)) start in
  let key := (pid, start) in
  match JsMap.get key grouped with
  | Some prev =>
      JsMap.put key
        (mkCGroup (cg_productId prev) (cg_start prev)
           (max (cg_end prev) end_)
           (cg_used prev + zor (e_participants ev) 1))
        grouped
  | None =>
      JsMap.put key (mkCGroup pid start end_ (zor (e_participants ev) 1)) grouped
  end.

Definition group_events (events : list calendar_event)
  : list (Z * number * cgroup) :=
  fold_left add_event events [].

(** ... and the slot made of each group. *)
Definition slot_of_group (g : cgroup) : avail_slot :=
  mkAvail (Fin (cg_productId g))
    match (if cg_productId g =? 0 then None else productNames (cg_productId g)) with
    | Some n =>
        if decide (n = EmptyString) then "Product #" +:+ pretty (cg_productId g)
        else n
    | None => "Product #" +:+ pretty (cg_productId g)
    end
    (time_clip (cg_start g)) (time_clip (cg_end g)) (cg_used g) None.

Definition buildFallbackFromBookings (events : list calendar_event)
  : list (day_key * list avail_slot) :=
  index_by_date (map slot_of_group (JsMap.values (group_events events))).

(** Ascending by (start time, product display name): the order that the
    comparator asks for between a slot and a later one.  Slots with an
    invalid start date are compared by name only. *)
Definition ascending (a b : avail_slot) : Prop :=
  match slot_start a, slot_start b with
  | Fin x, Fin y =>
      x < y ∨ (x = y ∧ localeCompare (productName a) (productName b) <= 0)
  | _, _ => localeCompare (productName a) (productName b) <= 0
  end.

(** No two different slots of one day have the same start and names that
    the collation takes for equal. *)
Definition no_ties (slots : list avail_slot) : Prop :=
  ∀ a b, a ∈ slots → b ∈ slots → a ≠ b →
         local_day (slot_start a) = local_day (slot_start b) →
         slot_start a = slot_start b →
         localeCompare (productName a) (productName b) ≠ 0.

End Availability.

(** *** [getAvailabilityBlocks]: cache and in-flight map

    JavaScript runs each synchronous stretch of code to completion, so the
    service changes state in two kinds of atomic step: a call of
    [getAvailabilityBlocks] (up to the [return]; the loader it may start
    runs until its first [await]), and the continuation of a loader once
    the data it awaits has arrived or failed.  [loads] is not in the code:
    it logs, for the statements below, the key of every loader started. *)

Definition data : Type := list (day_key * list avail_slot).

Record service := mkService {
  availabilityCache : gmap string data;
  availabilityInflight : gmap string nat;   (* key ↦ the pending promise *)
  next_promise : nat;
  loads : list string }.

Definition new_service : service := mkService ∅ ∅ 0 [].

(** What a caller gets: the cached value, or a promise. *)
Inductive answer :=
  | Cached (d : data)
  | Promise (p : nat).

Definition getAvailabilityBlocks (cacheKey : string) (s : service)
  : answer * service :=
  match availabilityCache s !! cacheKey with
  | Some d => (Cached d, s)
  | None =>
      match availabilityInflight s !! cacheKey with
      | Some p => (Promise p, s)
      | None =>
          let p := next_promise s in
          (Promise p,
           mkService (availabilityCache s)
             (<[cacheKey := p]> (availabilityInflight s))
             (S p)
             (loads s ++ [cacheKey]))
      end
  end.

(** The end of the loader for [cacheKey]: on success the data is cached;
    in any case ([finally]) the in-flight entry is deleted. *)
Definition settle (cacheKey : string) (result : option data) (s : service)
  : service :=
  mkService
    match result with
    | Some d => <[cacheKey := d]> (availabilityCache s)
    | None => availabilityCache s
    end
    (delete cacheKey (availabilityInflight s))
    (next_promise s)
    (loads s).

(** The atomic steps of a run, and their effect.  A loader can only end
    while its promise is in flight. *)
Inductive action :=
  | Call (cacheKey : string)
  | Settle (cacheKey : string) (result : option data).

Global Instance action_eq_dec : EqDecision action.
Proof. solve_decision. Defined.

Definition exec (a : action) (s : service) : option answer * service :=
  match a with
  | Call k => let '(r, s') := getAvailabilityBlocks k s in (Some r, s')
  | Settle k result =>
      match availabilityInflight s !! k with
      | Some _ => (None, settle k result s)
      | None => (None, s)
      end
  end.

Fixpoint run (acts : list action) (s : service) : list (option answer) * service :=
  match acts with
  | [] => ([], s)
  | a :: acts' =>
      let '(r, s') := exec a s in
      let '(rs, s'') := run acts' s' in
      (r :: rs, s'')
  end.

(** The number of loaders started so far for a key: the fetch-call counter
    of the key. *)
Definition loads_of (cacheKey : string) (s : service) : nat :=
  length (filter (λ k, k = cacheKey) (loads s)).

(** *** The instructor filters of the booking calendar *)

Section Assignment.

Variable localOffset : Z → Z.

Definition eDay (t : number) : day_key := local_day localOffset t.

(** [diff <= limit] for [diff = Math.abs(astart - estart)]. *)
Definition within (limit : Z) (astart estart : number) : bool :=
  leb (abs (sub astart estart)) (Fin limit).

(** First pass of [loadMonth]: direct booking identifier match. *)
Definition tier_id (e a : calendar_event) : bool :=
  let bid := e_bookingId e in
  let abid := zor (e_bookingId a) (e_own_bookingId a) in
  negb (bid =? 0) && negb (abid =? 0) && (bid =? abid).

(** Product and time proximity (six hours). *)
Definition tier_product_time (e a : calendar_event) : bool :=
  let pid := e_productId e in
  let apid := zor (e_productId a) (e_own_productId a) in
  if (pid =? 0) || (apid =? 0) || negb (pid =? apid) then false
  else within (6 * 60 * 60 * 1000) (e_start a) (e_start e).

(** Same product and same local calendar day. *)
Definition tier_product_day (e a : calendar_event) : bool :=
  let pid := e_productId e in
  let apid := zor (e_productId a) (e_own_productId a) in
  negb (pid =? 0) && negb (apid =? 0) && (pid =? apid)
  && bool_decide (eDay (e_start a) = eDay (e_start e)).

(** Time-only proximity (ninety minutes). *)
Definition tier_time (e a : calendar_event) : bool :=
  within (90 * 60 * 1000) (e_start a) (e_start e).

(** The callback of [allEvents.filter] in [loadMonth] ... *)
Definition loadMonth_keep (assigned : list calendar_event) (e : calendar_event)
  : bool :=
  if existsb (tier_id e) assigned then true
  else if existsb (tier_product_time e) assigned then true
  else if existsb (tier_product_day e) assigned then true
  else existsb (tier_time e) assigned.

(** ... and in [refreshBookings]. *)
Definition refresh_keep (assigned : list calendar_event) (e : calendar_event)
  : bool :=
  if existsb (tier_product_time e) assigned then true
  else if existsb (tier_product_day e) assigned then true
  else existsb (tier_time e) assigned.

Definition loadMonth_filter (filterActive : bool)
    (allEvents assigned : list calendar_event) : list calendar_event :=
  if filterActive then filter (λ e, loadMonth_keep assigned e = true) allEvents
  else allEvents.

Definition refresh_filter (filterActive : bool)
    (allEvents assigned : list calendar_event) : list calendar_event :=
  if filterActive then filter (λ e, refresh_keep assigned e = true) allEvents
  else allEvents.

End Assignment.

End Client.

(** ** Keys of the availability caches *)

Module CacheKeys.

Import Js.

(** [Array.from(allowedIds).sort((a, b) => a - b).join(",")] and
    [productIds.slice().sort((a, b) => a - b).join(",")] *)
Definition by_value (a b : Z) : number := Fin (a - b).

Definition join_ids (ids : list Z) : string :=
  String.concat "," (pretty <$> Client.sort by_value ids).

(** The identifiers that [handleAvailabilityRange] admits, as the [Set]
    holds them: the positive numbers among the parsed pieces of
    [product_ids], each once, in the order of their first occurrence. *)
Definition allowed_set (product_ids : list (option Z)) : list Z :=
  JsMap.first_seen
    (omap (λ n, match n with
                | Some v => if 0 <? v then Some v else None
                | None => None
                end) product_ids).

(** The key of [AVAIL_RANGE_CACHE]. *)
Definition availabilityRangeKey (min_date max_date : option string)
    (product_ids : list (option Z)) : string :=
  Server.str_or_empty min_date +:+ "|" +:+ Server.str_or_empty max_date +:+ "|"
  +:+ join_ids (allowed_set product_ids).

(** The key of the client's [availabilityCache] and [availabilityInflight]. *)
Definition availabilityKey (startDate endDate : string) (productIds : list Z)
  : string :=
  startDate +:+ "|" +:+ endDate +:+ "|" +:+ join_ids productIds.

End CacheKeys.

(** ** The grid of the booking calendar *)

Module Grid.

(** The month grid and the month navigation of the booking calendar read
    and write a [Date] through its local calendar fields only
    ([getFullYear], [getMonth], [getDate], [getDay], [setDate], [setMonth]
    and [new Date(year, month, date)]).  A date is modelled by the day
    number of its local calendar day; the time of day, which these
    functions carry along, is left out, every local calendar day being
    taken to exist in the zone of the browser. *)

Definition getFullYear (date : Z) : Z := (Cal.civil_of_days date).1.1.

(** [getMonth()]: 0 for January. *)
Definition getMonth (date : Z) : Z := (Cal.civil_of_days date).1.2 - 1.

Definition getDate (date : Z) : Z := (Cal.civil_of_days date).2.

(** [getDay()]: 0 for Sunday; day 0 (1970-01-01) was a Thursday. *)
Definition getDay (date : Z) : Z := (date + 4) mod 7.

(** [new Date(year, month, date)] *)
Definition newDate (year month date : Z) : Z := Cal.MakeDay year month date.

(** [d.setDate(dt)] and [d.setMonth(mo)], returning the changed date. *)
Definition setDate (d : Z) (dt : Z) : Z :=
  Cal.MakeDay (getFullYear d) (getMonth d) dt.

Definition setMonth (d : Z) (mo : Z) : Z :=
  Cal.MakeDay (getFullYear d) mo (getDate d).

(** [while (days.length < 42) { days.push(new Date(currentDay));
    currentDay.setDate(currentDay.getDate() + 1) }]; [n] counts the cells
    still to fill. *)
Fixpoint fill (n : nat) (currentDay : Z) : list Z :=
  match n with
  | O => []
  | S n' => currentDay :: fill n' (setDate currentDay (getDate currentDay + 1))
  end.

Definition getDaysInMonth (date : Z) : list Z :=
  let year := getFullYear date in
  let month := getMonth date in
  let firstDay := newDate year month 1 in
  let startDate := setDate firstDay (getDate firstDay - getDay firstDay) in
  fill 42 startDate.

Inductive direction := prev | next.

Definition navigateMonth (dir : direction) (date : Z) : Z :=
  setMonth date (getMonth date + match dir with next => 1 | prev => -1 end).

(** [addDays], [getWeekDays] and [navigateWeek]. *)
Definition addDays (d : Z) (n : Z) : Z := setDate d (getDate d + n).

Definition getWeekDays (start : Z) (count : nat) : list Z :=
  map (λ i, addDays start (Z.of_nat i)) (seq 0 count).

Definition navigateWeek (dir : direction) (weeklyStart : Z) : Z :=
  addDays weeklyStart match dir with next => 7 | prev => -7 end.

End Grid.

(** * Sample data *)

(** A zone with a standard/daylight change on the second Sunday of March
    2024 and back on the first Sunday of November 2024, five and four hours
    behind UTC: the rules of America/New_York for that year. *)
Definition new_york_2024 (t : Z) : Z :=
  if t <? 1710054000000 then -18000000
  else if t <? 1730613600000 then -14400000
  else -18000000.

Definition sample_tzdb (tz : string) : option (Z → Z) :=
  if String.eqb tz "UTC" then Some (λ _, 0)
  else if String.eqb tz "America/New_York" then Some new_york_2024
  else None.

(** A configured store, a request for March 2024 and an upstream whose only
    page holds one booking inside and one outside that month. *)
Definition sample_env : Server.env :=
  Server.mkEnv (Some "https://shop.example"%string) (Some "ck"%string)
    (Some "cs"%string).

Definition sample_dateParse (s : string) : option Z :=
  if String.eqb s "2024-03-01T00:00:00Z" then Some 1709251200000
  else if String.eqb s "2024-03-31T23:59:59Z" then Some 1711929599000
  else None.

Definition sample_query : Server.query :=
  Server.mkQuery (Some "2024-03-01"%string) (Some "2024-03-31"%string) None.

Definition sample_booking (id : Z) (pid : Z) (start_s end_s : Z) (n : Z)
  : Server.booking :=
  Server.mkBooking id (Js.Fin pid) (Time.INum (Js.Fin start_s))
    (Time.INum (Js.Fin end_s)) Time.INull Time.INull Time.INull Time.INull
    (Server.PCNum n) None.

Definition sample_world : Server.world :=
  Server.mkWorld
    (λ p, match p with
          | 1%nat => Server.Page [sample_booking 1 10 1710000000 1710003600 2;
                                  sample_booking 2 10 1700000000 1700003600 1]
          | _ => Server.FetchFailed
          end)
    1712000000000 (λ _, 1712000000000) 1712000000000 None (λ _, None).

(** A collation for examples: shorter names first. *)
Definition by_length (a b : string) : Z :=
  Z.of_nat (String.length a) - Z.of_nat (String.length b).

(** Two bookings of different slots, and the same two in the other order. *)
Definition late_booking : Server.booking :=
  sample_booking 1 10 1710010000 1710013600 2.
Definition early_booking : Server.booking :=
  sample_booking 2 11 1710000000 1710003600 3.

Definition page_of (bs : list Server.booking) (p : nat) : Server.page_result :=
  match p with 1%nat => Server.Page bs | _ => Server.FetchFailed end.

Definition sample_events : list Client.calendar_event :=
  [Client.mkCalEvent 1 10 0 0 (Js.Fin 1710010000000) (Some (Js.Fin 1710013600000)) 2;
   Client.mkCalEvent 2 11 0 0 (Js.Fin 1710000000000) (Some (Js.Fin 1710003600000)) 3;
   Client.mkCalEvent 3 10 0 0 (Js.Fin 1710010000000) None 0].

(** An upstream whose first page is full and whose second page times
    out. *)
Definition full_page : list Server.booking :=
  repeat (sample_booking 7 3 1700000000 1700003600 1) 100.

Definition full_then_timeout (p : nat) : Server.page_result :=
  match p with
  | 1%nat => Server.Page full_page
  | 2%nat => Server.FetchFailed
  | _ => Server.Page [early_booking]
  end.

(** A booking whose start no parser reads. *)
Definition unreadable_booking : Server.booking :=
  Server.mkBooking 5 (Js.Fin 10) (Time.IStr "soon") Time.INull Time.INull
    Time.INull Time.INull Time.INull (Server.PCNum 3) None.

(** An upstream with a readable and an unreadable start, asked on 9 March
    and on 1 April 2024. *)
Definition march_world : Server.world :=
  Server.mkWorld (page_of [early_booking; unreadable_booking]) 1710000000000
    (λ _, 1710000000000) 1710000000000 None (λ _, None).

Definition april_world : Server.world :=
  Server.mkWorld (page_of [early_booking; unreadable_booking]) 1712000000000
    (λ _, 1712000000000) 1712000000000 None (λ _, None).

(** One minute after [sample_world], with the upstream down. *)
Definition later_world : Server.world :=
  Server.mkWorld (λ _, Server.FetchFailed) 1712000060000 (λ _, 1712000060000)
    1712000060000 None (λ _, None).

(** Two requests with one cache key, [2024-03-01|2024-03-31||x]: March
    2024 with a status that begins with the separator, and a start date
    that contains it. *)
Definition march_query : Server.query :=
  Server.mkQuery (Some "2024-03-01"%string) (Some "2024-03-31"%string)
    (Some "|x"%string).

Definition barred_query : Server.query :=
  Server.mkQuery (Some "2024-03-01|2024-03-31"%string) None (Some "x"%string).

(** An event and an assigned booking with the same booking identifier but
    another product, seven hours apart. *)
Definition own_event : Client.calendar_event :=
  Client.mkCalEvent 7 1 0 0 (Js.Fin 1710000000000) None 1.

Definition assigned_ref : Client.calendar_event :=
  Client.mkCalEvent 7 2 0 0 (Js.Fin 1710025200000) None 1.

(** A platform that knows one zone, nine hours ahead of UTC all year. *)
Definition tokyo_tzdb (tz : string) : option (Z → Z) :=
  if String.eqb tz "Asia/Tokyo" then Some (λ _, 32400000) else None.

(** The two slots that the server sends for [late_booking] and
    [early_booking], in that order. *)
Definition sample_slots : list Server.slot :=
  [Server.mkSlot (Js.Fin 10) "Product #10" 1710010000000 1710013600000 2 None;
   Server.mkSlot (Js.Fin 11) "Product #11" 1710000000000 1710003600000 3 None].

(** * Properties *)

(** ** Calendar facts: [Date.UTC] and the formatter are mutually inverse *)

Module CalFacts.

Import Cal.

Ltac zdiv := Z.div_mod_to_equations; lia.

Lemma leap_spec y :
  leap y = true ↔ y mod 4 = 0 ∧ (y mod 100 ≠ 0 ∨ y mod 400 = 0).
Proof.
  unfold leap.
  destruct (Z.eqb_spec (y mod 4) 0), (Z.eqb_spec (y mod 100) 0),
    (Z.eqb_spec (y mod 400) 0); cbn; intuition (try lia; try discriminate).
Qed.

Lemma days_in_month_cases y m d :
  1 <= m <= 12 → 1 <= d <= days_in_month y m →
  d <= 31 ∧ (m = 4 ∨ m = 6 ∨ m = 9 ∨ m = 11 → d <= 30)
  ∧ (m = 2 → d <= 29 ∧ (d = 29 → y mod 4 = 0 ∧ (y mod 100 ≠ 0 ∨ y mod 400 = 0))).
Proof.
  intros Hm Hd. unfold days_in_month in Hd.
  destruct (Z.eqb_spec m 2) as [->|Hne].
  - destruct (leap y) eqn:Hl.
    + apply leap_spec in Hl. repeat split; intros; try lia; tauto.
    + repeat split; intros; lia.
  - destruct (Z.eqb_spec m 4), (Z.eqb_spec m 6), (Z.eqb_spec m 9), (Z.eqb_spec m 11);
      cbn [orb] in Hd; repeat split; intros; lia.
Qed.

(** The year-of-era formula inverts the day count of a 400-year era. *)
Lemma year_of_era_start yoe doy :
  0 <= yoe <= 399 → 0 <= doy <= 365 →
  (doy = 365 →
   (yoe + 1) mod 4 = 0 ∧ ((yoe + 1) mod 100 ≠ 0 ∨ (yoe + 1) mod 400 = 0)) →
  let doe := 365 * yoe + yoe / 4 - yoe / 100 + doy in
  (doe - doe / 1460 + doe / 36524 - doe / 146096) / 365 = yoe.
Proof. intros Hy Hd Hl. cbv zeta. zdiv. Qed.

(** Every day number is the day count of the civil date it denotes. *)
Lemma days_of_civil z :
  let '(y, m, d) := civil_of_days z in
  1 <= m <= 12 ∧ 1 <= d <= 31 ∧ days_to_month y (m - 1) + d - 1 = z.
Proof.
  unfold civil_of_days, days_to_month.
  set (z' := z + 719468).
  set (era := z' / 146097).
  set (doe := z' - era * 146097).
  assert (Hdoe : 0 <= doe <= 146096) by (subst doe era; zdiv).
  set (yoe := (doe - doe / 1460 + doe / 36524 - doe / 146096) / 365).
  assert (Hyoe : 0 <= yoe <= 399) by (subst yoe; zdiv).
  set (doy := doe - (365 * yoe + yoe / 4 - yoe / 100)).
  assert (Hdoy : 0 <= doy <= 365) by (subst doy yoe; zdiv).
  set (mp := (5 * doy + 2) / 153).
  assert (Hmp : 0 <= mp <= 11) by (subst mp; zdiv).
  assert (Hd : 1 <= doy - (153 * mp + 2) / 5 + 1 <= 31) by (subst mp; zdiv).
  destruct (Z.ltb_spec mp 10) as [H10|H10].
  - replace (mp + 3 <=? 2) with false by (symmetry; apply Z.leb_gt; lia).
    replace (mp + 3 - 1 <? 2) with false by (symmetry; apply Z.ltb_ge; lia).
    replace ((mp + 3 - 1 + 10) mod 12) with mp by zdiv.
    replace ((yoe + era * 400 + 0) / 400) with era by zdiv.
    replace (yoe + era * 400 + 0 - era * 400) with yoe by lia.
    repeat split; lia.
  - replace (mp - 9 <=? 2) with true by (symmetry; apply Z.leb_le; lia).
    replace (mp - 9 - 1 <? 2) with true by (symmetry; apply Z.ltb_lt; lia).
    replace ((mp - 9 - 1 + 10) mod 12) with mp by zdiv.
    replace ((yoe + era * 400 + 1 - 1) / 400) with era by zdiv.
    replace (yoe + era * 400 + 1 - 1 - era * 400) with yoe by lia.
    repeat split; lia.
Qed.

(** Every date of the calendar is recovered from its day count. *)
Lemma civil_of_days_of y m d :
  1 <= m <= 12 → 1 <= d <= days_in_month y m →
  civil_of_days (days_to_month y (m - 1) + d - 1) = (y, m, d).
Proof.
  intros Hm Hd.
  destruct (days_in_month_cases y m d Hm Hd) as (H31 & H30 & Hfeb).
  unfold days_to_month.
  set (y0 := if m - 1 <? 2 then y - 1 else y).
  set (era := y0 / 400). set (yoe := y0 - era * 400).
  set (mp := (m - 1 + 10) mod 12).
  assert (Hyoe : 0 <= yoe <= 399) by (subst yoe era; zdiv).
  assert (Hcase : (m <= 2 ∧ mp = m + 9 ∧ y0 = y - 1)
                  ∨ (3 <= m ∧ mp = m - 3 ∧ y0 = y)).
  { subst mp y0. destruct (Z.ltb_spec (m - 1) 2); [left|right];
      (split; [lia|split; [zdiv|reflexivity]]). }
  set (doy := (153 * mp + 2) / 5 + d - 1).
  assert (Hdoy : 0 <= doy <= 365 ∧ (doy = 365 → m = 2 ∧ d = 29)).
  { subst doy. destruct Hcase as [(? & -> & _)|(? & -> & _)].
    - assert (m = 1 ∨ m = 2) as [-> | ->] by lia.
      + change ((153 * (1 + 9) + 2) / 5) with 306. lia.
      + change ((153 * (2 + 9) + 2) / 5) with 337. destruct (Hfeb eq_refl). lia.
    - zdiv. }
  destruct Hdoy as (Hdoy & H365).
  assert (Hleap : doy = 365 →
            (yoe + 1) mod 4 = 0 ∧ ((yoe + 1) mod 100 ≠ 0 ∨ (yoe + 1) mod 400 = 0)).
  { intros Heq. destruct (H365 Heq) as [-> ->].
    destruct (Hfeb eq_refl) as [_ Hl]. specialize (Hl eq_refl).
    destruct Hcase as [(_ & _ & Hy0)|(? & _)]; [|lia].
    subst yoe era. rewrite Hy0. zdiv. }
  pose proof (year_of_era_start yoe doy Hyoe Hdoy Hleap) as Hyr. cbv zeta in Hyr.
  unfold civil_of_days.
  replace (era * 146097 + (yoe * 365 + yoe / 4 - yoe / 100 + (153 * mp + 2) / 5)
           - 719468 + d - 1 + 719468)
    with (era * 146097 + (365 * yoe + yoe / 4 - yoe / 100 + doy))
    by (subst doy; lia).
  set (doe := 365 * yoe + yoe / 4 - yoe / 100 + doy) in *.
  assert (Hdoe : 0 <= doe <= 146096) by (subst doe; zdiv).
  replace ((era * 146097 + doe) / 146097) with era by zdiv.
  replace (era * 146097 + doe - era * 146097) with doe by lia.
  rewrite Hyr.
  replace (doe - (365 * yoe + yoe / 4 - yoe / 100)) with doy by (subst doe; lia).
  assert (Hmp' : (5 * doy + 2) / 153 = mp).
  { subst doy. destruct Hcase as [(? & Hmp & _)|(? & Hmp & _)]; rewrite Hmp.
    - assert (m = 1 ∨ m = 2) as [-> | ->] by lia.
      + change ((153 * (1 + 9) + 2) / 5) with 306. zdiv.
      + change ((153 * (2 + 9) + 2) / 5) with 337. destruct (Hfeb eq_refl). zdiv.
    - zdiv. }
  rewrite Hmp'.
  replace (doy - (153 * mp + 2) / 5 + 1) with d by (subst doy; lia).
  destruct Hcase as [(? & Hmp & Hy0)|(? & Hmp & Hy0)]; rewrite Hmp.
  - replace (m + 9 <? 10) with false by (symmetry; apply Z.ltb_ge; lia).
    replace (m + 9 - 9) with m by lia.
    replace (m <=? 2) with true by (symmetry; apply Z.leb_le; lia).
    f_equal. f_equal. subst yoe. lia.
  - replace (m - 3 <? 10) with true by (symmetry; apply Z.ltb_lt; lia).
    replace (m - 3 + 3) with m by lia.
    replace (m <=? 2) with false by (symmetry; apply Z.leb_gt; lia).
    f_equal. f_equal. subst yoe. lia.
Qed.

Lemma MakeDay_in_range y m d :
  1 <= m <= 12 → MakeDay y (m - 1) d = days_to_month y (m - 1) + d - 1.
Proof.
  intros Hm. unfold MakeDay.
  replace ((m - 1) / 12) with 0 by zdiv.
  replace ((m - 1) mod 12) with (m - 1) by zdiv.
  by rewrite Z.add_0_r.
Qed.

Lemma split_day (D t : Z) :
  0 <= t < 86400000 →
  (D * 86400000 + t) / 86400000 = D ∧ (D * 86400000 + t) mod 86400000 = t.
Proof. intros Ht. zdiv. Qed.

(** Formatting the instant that [Date.UTC] builds from the fields of an
    existing wall-clock reading gives those fields back; years 0..99 are
    excluded because [Date.UTC] moves them to 1900..1999. *)
Lemma fields_of_utc (p : fields) :
  valid p → ¬ (0 <= year p <= 99) → fields_of_ms (utc_of_fields p) = p.
Proof.
  destruct p as [y m d h mi s]. unfold valid, utc_of_fields, DateUTC. cbn [year month day hour minute second].
  intros (Hm & Hd & Hh & Hmi & Hs) Hy.
  replace ((0 <=? y) && (y <=? 99)) with false
    by (symmetry; apply andb_false_iff; rewrite Z.leb_gt, Z.leb_gt; lia).
  rewrite MakeDay_in_range by done.
  unfold fields_of_ms, MakeTime.
  set (t := h * 3600000 + mi * 60000 + s * 1000).
  assert (Ht : 0 <= t < 86400000) by (subst t; lia).
  destruct (split_day (days_to_month y (m - 1) + d - 1) t Ht) as [-> ->].
  rewrite civil_of_days_of by done.
  f_equal; subst t; zdiv.
Qed.

(** [Date.UTC] applied to the formatted fields of an instant from 1970 on
    is that instant truncated to the second. *)
Lemma utc_of_fields_of (ms : Z) :
  0 <= ms → utc_of_fields (fields_of_ms ms) = ms - ms mod 1000.
Proof.
  intros Hms. unfold fields_of_ms.
  pose proof (days_of_civil (ms / 86400000)) as Hciv.
  assert (Hyear : 1600 <= (civil_of_days (ms / 86400000)).1.1).
  { unfold civil_of_days. cbn [fst].
    set (z := ms / 86400000 + 719468).
    assert (4 <= z / 146097) by (subst z; zdiv).
    set (doe := z - z / 146097 * 146097).
    assert (0 <= doe <= 146096) by (subst doe; zdiv).
    assert (0 <= (doe - doe / 1460 + doe / 36524 - doe / 146096) / 365) by zdiv.
    case (_ <=? 2); lia. }
  destruct (civil_of_days (ms / 86400000)) as [[y m] d].
  destruct Hciv as (Hm & Hd & Hdays). cbn [fst] in Hyear.
  unfold utc_of_fields, DateUTC. cbn [year month day hour minute second].
  replace ((0 <=? y) && (y <=? 99)) with false
    by (symmetry; apply andb_false_iff; rewrite Z.leb_gt, Z.leb_gt; lia).
  rewrite MakeDay_in_range, Hdays by done.
  unfold MakeTime. zdiv.
Qed.

(** Fields whose year [Date.UTC] reads as 19xx lie before the sanity floor. *)
Lemma utc_of_early_year (p : fields) :
  valid p → 0 <= year p <= 99 → utc_of_fields p < 946684800000.
Proof.
  destruct p as [y m d h mi s]. unfold valid, utc_of_fields, DateUTC. cbn [year month day hour minute second].
  intros (Hm & Hd & Hh & Hmi & Hs) Hy.
  replace ((0 <=? y) && (y <=? 99)) with true
    by (symmetry; apply andb_true_iff; rewrite Z.leb_le, Z.leb_le; lia).
  rewrite MakeDay_in_range by done.
  destruct (days_in_month_cases _ _ _ Hm Hd) as (H31 & _).
  assert (days_to_month (1900 + y) (m - 1) <= 10926).
  { unfold days_to_month. destruct (Z.ltb_spec (m - 1) 2); zdiv. }
  unfold MakeTime. lia.
Qed.

End CalFacts.

(** ** Numeric inputs of the time normaliser *)

Section TimeNumeric.

Import Js Time.

Variable tzdb : string → option (Z → Z).
Variable dateParse : string → option Z.

Local Abbreviation toUtcMs := (Time.toUtcMs tzdb dateParse).

Lemma floor_below_threshold : MIN_VALID < MS_THRESHOLD.
Proof. reflexivity. Qed.

(** C2.  A finite number below 10^12 is read as seconds and multiplied by
    1000, a number at or above 10^12 is passed through unchanged, and a
    result before 2000-01-01T00:00:00Z (946684800000 ms) is rejected with
    [null]; the non-finite numbers are rejected as well.  The two examples
    of the specification are part of the statement. *)
Theorem toUtcMs_number_seconds_or_millis (tz : string) :
  (∀ z : Z,
      toUtcMs (INum (Fin z)) tz =
        if z <? 1000000000000
        then (if z * 1000 <? Cal.DateUTC 2000 0 1 0 0 0 then None
              else Some (z * 1000))
        else Some z)
  ∧ toUtcMs (INum NaN) tz = None
  ∧ toUtcMs (INum PInf) tz = None
  ∧ toUtcMs (INum NInf) tz = None
  ∧ toUtcMs (INum (Fin 1700000000)) tz = Some 1700000000000
  ∧ toUtcMs (INum (Fin 1700000000000)) tz = Some 1700000000000.
Proof.
  split; [|by repeat split].
  intros z. cbn [Time.toUtcMs ltb mul_pos].
  change (Cal.DateUTC 2000 0 1 0 0 0) with MIN_VALID.
  unfold floor_check, MS_THRESHOLD.
  pose proof floor_below_threshold as Hlt. unfold MS_THRESHOLD in Hlt.
  destruct (Z.ltb_spec z 1000000000000) as [Hz|Hz].
  - destruct (Z.leb_spec MIN_VALID (z * 1000)), (Z.ltb_spec (z * 1000) MIN_VALID);
      (done || lia).
  - destruct (Z.leb_spec MIN_VALID z); [done | lia].
Qed.

(** C1.  The all-digit string branch compares the parsed value with
    [MS_THRESHOLD / 1000] = 10^9 instead of [MS_THRESHOLD]: the string
    ["1700000000"] is taken for milliseconds and rejected by the sanity
    floor, whereas the number 1700000000 is read as seconds. *)
Theorem toUtcMs_digit_string_vs_number (tz : string) :
  toUtcMs (IStr "1700000000") tz = None
  ∧ toUtcMs (INum (Fin 1700000000)) tz = Some 1700000000000.
Proof. split; reflexivity. Qed.

End TimeNumeric.

(** ** Naive local timestamps and the two-pass offset resolution *)

(** *** The strings that [parseNaiveDateTime] accepts *)

Module NaiveShape.

Import Str Time.

Definition digit (c : ascii) : Prop := is_digit c = true.

Lemma digits_inv (n : nat) (acc : Z) (cs : list ascii) (v : Z) (rest : list ascii) :
  digits n acc cs = Some (v, rest) →
  ∃ ds, cs = ds ++ rest ∧ length ds = n ∧ Forall digit ds.
Proof.
  revert acc cs. induction n as [|n IH]; intros acc cs; cbn [digits].
  - intros [= _ ->]. by exists [].
  - destruct cs as [|c cs]; [done|]. destruct (is_digit c) eqn:Hc; [|done].
    intros (ds & -> & Hlen & Hds)%IH. exists (c :: ds).
    split; [done|]. split; [by cbn; rewrite Hlen|]. by constructor.
Qed.

Lemma lit_inv (k : Z) (cs rest : list ascii) :
  lit k cs = Some rest → ∃ c, cs = c :: rest ∧ code c = k.
Proof.
  destruct cs as [|c cs]; cbn; [done|].
  destruct (Z.eqb_spec (code c) k); [|done]. intros [= <-]. eauto.
Qed.

(** The strings that the pattern of [parseNaiveDateTime] matches. *)
Inductive time_shape : list ascii → Prop :=
  | no_time : time_shape []
  | hm sep h1 h2 c m1 m2 :
      code sep = 32 ∨ code sep = 84 → digit h1 → digit h2 → code c = 58 →
      digit m1 → digit m2 → time_shape [sep; h1; h2; c; m1; m2]
  | hms sep h1 h2 c m1 m2 c' s1 s2 :
      code sep = 32 ∨ code sep = 84 → digit h1 → digit h2 → code c = 58 →
      digit m1 → digit m2 → code c' = 58 → digit s1 → digit s2 →
      time_shape [sep; h1; h2; c; m1; m2; c'; s1; s2].

Inductive naive_shape : list ascii → Prop :=
  | shape y1 y2 y3 y4 a m1 m2 b d1 d2 rest :
      digit y1 → digit y2 → digit y3 → digit y4 → code a = 45 →
      digit m1 → digit m2 → code b = 45 → digit d1 → digit d2 →
      time_shape rest →
      naive_shape ([y1; y2; y3; y4; a; m1; m2; b; d1; d2] ++ rest).

Ltac explicit_digits :=
  repeat match goal with
  | H : length ?ds = O |- _ =>
      destruct ds; [clear H | discriminate H]
  | H : length ?ds = S _ |- _ =>
      destruct ds; [discriminate H|]; cbn [length] in H; injection H as H
  | H : Forall digit (_ :: _) |- _ => apply Forall_cons in H as [? H]
  | H : Forall digit [] |- _ => clear H
  end; cbn [app] in *.

Lemma parse_time_shape (cs : list ascii) (r : Z * Z * Z) :
  parse_time cs = Some r → time_shape cs.
Proof.
  unfold parse_time. destruct cs as [|sep cs]; [constructor|].
  destruct ((code sep =? 32) || (code sep =? 84)) eqn:Hsep; [|done].
  assert (Hs : code sep = 32 ∨ code sep = 84).
  { apply orb_prop in Hsep as [?%Z.eqb_eq|?%Z.eqb_eq]; auto. }
  intros H. apply bind_Some in H as ([h cs2] & (dh & -> & Lh & Fh)%digits_inv & H).
  apply bind_Some in H as (cs3 & (c & -> & Hc)%lit_inv & H).
  apply bind_Some in H as ([mi cs4] & (dm & -> & Lm & Fm)%digits_inv & H).
  explicit_digits.
  destruct cs4 as [|c' cs5]; [by constructor|].
  apply bind_Some in H as (cs6 & (c'' & [= -> ->] & Hc')%lit_inv & H).
  apply bind_Some in H as ([se cs7] & (ds & -> & Ls & Fs)%digits_inv & H).
  explicit_digits. destruct cs7; [|done]. by constructor.
Qed.

Lemma parseNaiveDateTime_shape (cs : list ascii) (p : Cal.fields) :
  parseNaiveDateTime cs = Some p → naive_shape cs.
Proof.
  unfold parseNaiveDateTime. intros H.
  apply bind_Some in H as ([y cs1] & (dy & -> & Ly & Fy)%digits_inv & H).
  apply bind_Some in H as (cs2 & (a & -> & Ha)%lit_inv & H).
  apply bind_Some in H as ([mo cs3] & (dm & -> & Lm & Fm)%digits_inv & H).
  apply bind_Some in H as (cs4 & (b & -> & Hb)%lit_inv & H).
  apply bind_Some in H as ([d cs5] & (dd & -> & Ld & Fd)%digits_inv & H).
  apply bind_Some in H as ([[h mi] se] & Ht%parse_time_shape & _).
  explicit_digits. by constructor.
Qed.

Lemma digit_not_zone (c : ascii) :
  digit c → (code c =? 122) || (code c =? 90) = false.
Proof. unfold digit, is_digit. lia. Qed.

(** [replace] changes nothing but the separator: an input whose
    replacement matches has the shape itself. *)
Ltac unreplace_at H D cs :=
  let x := fresh "x" in
  destruct cs as [|x cs]; [discriminate H|]; cbn [replace_space] in H;
  destruct (Z.eqb_spec (code x) 32);
  [ injection H as <- _; discriminate D | injection H as -> H ].

Ltac unreplace :=
  repeat match goal with
  | H : replace_space ?cs = [] |- _ =>
      destruct cs; [clear H | cbn [replace_space] in H; by destruct (_ =? _)]
  | H : replace_space ?cs = ?c :: _, D : digit ?c |- _ => unreplace_at H D cs
  | H : replace_space ?cs = ?c :: _, D : code ?c = _ |- _ => unreplace_at H D cs
  end.

Lemma replace_space_shape (cs : list ascii) :
  naive_shape (replace_space cs) → naive_shape cs.
Proof.
  intros H. inversion H as [y1 y2 y3 y4 a m1 m2 b d1 d2 rest
    Hy1 Hy2 Hy3 Hy4 Ha Hm1 Hm2 Hb Hd1 Hd2 Hrest Heq]. clear H.
  cbn [app] in Heq. symmetry in Heq. unreplace.
  apply (shape _ _ _ _ _ _ _ _ _ _ cs); try assumption.
  revert Heq.
  destruct Hrest as [|sep h1 h2 c q1 q2 Hsep Hh1 Hh2 Hc Hq1 Hq2
                     |sep h1 h2 c q1 q2 c' s1 s2 Hsep Hh1 Hh2 Hc Hq1 Hq2 Hc' Hs1 Hs2];
    intros Hcs.
  - unreplace. constructor.
  - destruct cs as [|x cs]; [discriminate Hcs|]. cbn [replace_space] in Hcs.
    destruct (Z.eqb_spec (code x) 32) as [Hx|Hx].
    + injection Hcs as <- ->. constructor; auto.
    + injection Hcs as -> Hcs. unreplace. constructor; auto.
  - destruct cs as [|x cs]; [discriminate Hcs|]. cbn [replace_space] in Hcs.
    destruct (Z.eqb_spec (code x) 32) as [Hx|Hx].
    + injection Hcs as <- ->. constructor; auto.
    + injection Hcs as -> Hcs. unreplace. constructor; auto.
Qed.

Lemma lit_not_digit (c : ascii) (k : Z) :
  code c = k → k < 48 ∨ 57 < k → is_digit c = false.
Proof. unfold is_digit. lia. Qed.

Lemma lit_not_zone (c : ascii) (k : Z) :
  code c = k → k ≠ 122 → k ≠ 90 → (code c =? 122) || (code c =? 90) = false.
Proof. lia. Qed.

Lemma lit_not_sign (c : ascii) (k : Z) :
  code c = k → k ≠ 43 → k ≠ 45 → (code c =? 43) || (code c =? 45) = false.
Proof. lia. Qed.

Lemma lit_not_colon (c : ascii) (k : Z) :
  code c = k → k ≠ 58 → (code c =? 58) = false.
Proof. lia. Qed.

(** A string of the shape is neither all digits nor zone-marked, so
    [toUtcMs] hands it to [zonedNaiveToUtcMs]. *)
Lemma naive_shape_branch (cs : list ascii) :
  naive_shape cs →
  cs ≠ [] ∧ all_digits cs = false ∧ has_tz_marker cs = false.
Proof.
  intros [y1 y2 y3 y4 a m1 m2 b d1 d2 rest
            Hy1 Hy2 Hy3 Hy4 Ha Hm1 Hm2 Hb Hd1 Hd2 Hrest].
  split; [done|]. split.
  - cbn [app all_digits forallb]. rewrite Hy1, Hy2, Hy3, Hy4.
    by rewrite (lit_not_digit a 45) by (done || lia).
  - unfold has_tz_marker.
    destruct Hrest as [|sep h1 h2 c q1 q2 Hsep Hh1 Hh2 Hc Hq1 Hq2
                       |sep h1 h2 c q1 q2 c' s1 s2 Hsep Hh1 Hh2 Hc Hq1 Hq2 Hc' Hs1 Hs2];
      try destruct Hsep as [Hsep|Hsep];
      cbn [app existsb length Nat.sub skipn is_offset];
      repeat match goal with
      | D : digit ?x |- context [(code ?x =? 122) || (code ?x =? 90)] =>
          rewrite (digit_not_zone x D)
      | D : code ?x = ?k |- context [(code ?x =? 122) || (code ?x =? 90)] =>
          rewrite (lit_not_zone x k D) by lia
      end; cbn [orb].
    + by rewrite (lit_not_colon b 45) by (done || lia); rewrite !andb_false_r.
    + by rewrite (lit_not_sign sep _ Hsep) by lia.
    + by rewrite (lit_not_sign sep _ Hsep) by lia.
    + by rewrite (lit_not_sign c 58) by (done || lia).
    + by rewrite (lit_not_sign c 58) by (done || lia).
Qed.

Lemma parseNaiveDateTime_branch (cs : list ascii) (p : Cal.fields) :
  parseNaiveDateTime (replace_space cs) = Some p →
  cs ≠ [] ∧ all_digits cs = false ∧ has_tz_marker cs = false.
Proof.
  intros H. by apply naive_shape_branch, replace_space_shape,
    (parseNaiveDateTime_shape _ p).
Qed.

End NaiveShape.

Section NaiveRoundTrip.

Import Js Time Cal CalFacts.

Variable tzdb : string → option (Z → Z).
Variable dateParse : string → option Z.

Local Abbreviation toUtcMs := (Time.toUtcMs tzdb dateParse).
Local Abbreviation formatToParts := (Time.formatToParts tzdb).

(** The trimmed input, its first space replaced, matches the pattern of
    [parseNaiveDateTime] with groups [p]. *)
Definition naive_input (s : string) (p : fields) : Prop :=
  parseNaiveDateTime (Str.replace_space (Str.trim (list_ascii_of_string s)))
  = Some p.

Lemma utc_of_fields_whole_second (p : fields) : utc_of_fields p mod 1000 = 0.
Proof. unfold utc_of_fields, DateUTC, MakeTime. zdiv. Qed.

Lemma getTzOffsetMs_unfold (tz : string) (off : Z → Z) (t : Z) :
  tzdb tz = Some off →
  getTzOffsetMs tzdb t tz = Ok (utc_of_fields (fields_of_ms (t + off t)) - t).
Proof.
  intros Htz. unfold getTzOffsetMs, Time.formatToParts, utc_of_fields.
  rewrite Htz. cbv beta iota zeta. reflexivity.
Qed.

(** On whole seconds from 1970 on, the offset that [getTzOffsetMs]
    reconstructs from the formatted parts is the zone's offset. *)
Lemma getTzOffsetMs_exact (tz : string) (off : Z → Z) (t : Z) :
  tzdb tz = Some off → t mod 1000 = 0 → off t mod 1000 = 0 → 0 <= t + off t →
  getTzOffsetMs tzdb t tz = Ok (off t).
Proof.
  intros Htz Ht Ho Hpos. rewrite (getTzOffsetMs_unfold tz off t Htz).
  rewrite utc_of_fields_of by assumption. f_equal. zdiv.
Qed.

(** The instant the two passes settle on: the local reading minus the
    offset observed at the first candidate. *)
Lemma zonedNaiveToUtcMs_value (tz : string) (off : Z → Z) (cs : list ascii) (p : fields) :
  tzdb tz = Some off → parseNaiveDateTime cs = Some p →
  let L := utc_of_fields p in
  off L mod 1000 = 0 → off (L - off L) mod 1000 = 0 →
  0 <= L + off L → 0 <= L - off L + off (L - off L) →
  zonedNaiveToUtcMs tzdb cs tz = Ok (Some (L - off (L - off L))).
Proof.
  intros Htz Hp L Ho1 Ho2 Hp1 Hp2.
  pose proof (utc_of_fields_whole_second p) as HL. fold L in HL.
  unfold zonedNaiveToUtcMs. rewrite Hp. cbv beta iota zeta.
  change (DateUTC (year p) (month p - 1) (day p) (hour p) (minute p) (second p))
    with L.
  clearbody L.
  rewrite (getTzOffsetMs_exact tz off L) by assumption.
  rewrite (getTzOffsetMs_exact tz off (L - off L)) by (assumption || zdiv).
  destruct (Z.eqb_spec (off (L - off L)) (off L)) as [->|Hne]; reflexivity.
Qed.

Lemma toUtcMs_naive (tz : string) (s : string) (p : fields) (r : outcome (option Z)) :
  naive_input s p →
  zonedNaiveToUtcMs tzdb (Str.replace_space (Str.trim (list_ascii_of_string s))) tz = r →
  toUtcMs (IStr s) tz =
    match r with Ok (Some ms) => floor_check ms | _ => None end.
Proof.
  intros Hin Hr.
  destruct (NaiveShape.parseNaiveDateTime_branch _ _ Hin) as (Hne & Hdig & Hmark).
  unfold Time.toUtcMs.
  destruct (Str.trim (list_ascii_of_string s)) as [|c cs] eqn:Hcs; [done|].
  rewrite Hdig, Hmark, Hr. by destruct r as [[?|]|].
Qed.

Lemma formatToParts_at (tz : string) (off : Z → Z) (u w : Z) :
  tzdb tz = Some off → u + off u = w →
  formatToParts tz u = Ok (fields_of_ms w).
Proof. intros Htz <-. unfold Time.formatToParts. by rewrite Htz. Qed.

(** C3, as the code has it.  Take a naive local timestamp whose groups [p]
    are an existing calendar reading at least a day after the sanity
    floor, and a zone that, within a day of that reading, changes its
    whole-second offset at most once, from [a] to [b] at the instant [T].
    Then [toUtcMs] returns an instant (nothing is thrown, nothing is
    rejected).  Formatting that instant in the same zone gives [p] back
    whenever some instant of the zone shows [p]; when the change skips the
    reading, the formatted reading is the original one moved by exactly
    the difference of the two offsets. *)
Theorem naive_roundtrip_one_transition
    (tz : string) (off : Z → Z) (a b T : Z) (s : string) (p : fields) :
  tzdb tz = Some off →
  naive_input s p →
  valid p →
  946684800000 + 86400000 <= utc_of_fields p →
  a mod 1000 = 0 → b mod 1000 = 0 →
  -86400000 <= a <= 86400000 → -86400000 <= b <= 86400000 →
  (∀ t, utc_of_fields p - 86400000 <= t <= utc_of_fields p + 86400000 →
        off t = if t <? T then a else b) →
  ∃ u, toUtcMs (IStr s) tz = Some u
     ∧ (utc_of_fields p - a < T ∨ T <= utc_of_fields p - b →
        formatToParts tz u = Ok p)
     ∧ (utc_of_fields p - b < T <= utc_of_fields p - a →
        formatToParts tz u =
          Ok (fields_of_ms (if utc_of_fields p <? T
                            then utc_of_fields p - (b - a)
                            else utc_of_fields p + (b - a)))).
Proof.
  intros Htz Hin Hval Hfloor Ha Hb Hra Hrb Hoff.
  assert (Hyear : ¬ (0 <= year p <= 99)).
  { intros Hy. pose proof (utc_of_early_year p Hval Hy). lia. }
  pose proof (fields_of_utc p Hval Hyear) as Hback.
  pose proof (zonedNaiveToUtcMs_value tz off _ p Htz Hin)
    as Hval2. cbv zeta in Hval2.
  pose proof (toUtcMs_naive tz s p) as Hto. specialize (Hto _ Hin eq_refl).
  revert Hback Hval2 Hto Hfloor Hoff.
  generalize (utc_of_fields p). intros L Hback Hval2 Hto Hfloor Hoff.
  assert (HoL : off L = if L <? T then a else b) by (apply Hoff; lia).
  assert (Hcase : off L = a ∨ off L = b) by (rewrite HoL; case (L <? T); auto).
  assert (Ho1 : off (L - off L) = if L - off L <? T then a else b)
    by (apply Hoff; lia).
  assert (Hcase2 : off (L - off L) = a ∨ off (L - off L) = b)
    by (rewrite Ho1; case (_ <? T); auto).
  rewrite Hval2 in Hto; [| destruct Hcase as [-> | ->]; lia
                        | destruct Hcase2 as [-> | ->]; lia
                        | lia | lia ].
  set (u := L - off (L - off L)) in *.
  assert (Hou : off u = if u <? T then a else b) by (apply Hoff; subst u; lia).
  exists u. split; [|split].
  - rewrite Hto. unfold floor_check, MIN_VALID.
    destruct (Z.leb_spec 946684800000 u); [done | subst u; lia].
  - intros Hex. rewrite <- Hback. apply (formatToParts_at tz off); [exact Htz|].
    rewrite Hou. subst u. rewrite Ho1, HoL.
    destruct (Z.ltb_spec L T);
      repeat (match goal with |- context [?x <? ?y] => destruct (Z.ltb_spec x y) end);
      lia.
  - intros Hgap. apply (formatToParts_at tz off); [exact Htz|].
    rewrite Hou. subst u. rewrite Ho1, HoL.
    destruct (Z.ltb_spec L T);
      repeat (match goal with |- context [?x <? ?y] => destruct (Z.ltb_spec x y) end);
      lia.
Qed.

End NaiveRoundTrip.

(** The theorem applies to 03:30 on the morning of the change in New York,
    the first half hour after the skipped one. *)
Lemma naive_roundtrip_one_transition_witness :
  ∃ u, Time.toUtcMs sample_tzdb (λ _, None)
         (Time.IStr "2024-03-10 03:30:00") "America/New_York" = Some u
     ∧ (Cal.utc_of_fields (Cal.mkFields 2024 3 10 3 30 0) - -18000000 < 1710054000000
        ∨ 1710054000000 <= Cal.utc_of_fields (Cal.mkFields 2024 3 10 3 30 0) - -14400000 →
        Time.formatToParts sample_tzdb "America/New_York" u
        = Js.Ok (Cal.mkFields 2024 3 10 3 30 0))
     ∧ (Cal.utc_of_fields (Cal.mkFields 2024 3 10 3 30 0) - -14400000 < 1710054000000
        <= Cal.utc_of_fields (Cal.mkFields 2024 3 10 3 30 0) - -18000000 →
        Time.formatToParts sample_tzdb "America/New_York" u
        = Js.Ok (Cal.fields_of_ms
                   (if Cal.utc_of_fields (Cal.mkFields 2024 3 10 3 30 0) <? 1710054000000
                    then Cal.utc_of_fields (Cal.mkFields 2024 3 10 3 30 0)
                         - (-14400000 - -18000000)
                    else Cal.utc_of_fields (Cal.mkFields 2024 3 10 3 30 0)
                         + (-14400000 - -18000000)))).
Proof.
  apply (naive_roundtrip_one_transition sample_tzdb (λ _, None)
           "America/New_York" new_york_2024 (-18000000) (-14400000)
           1710054000000 "2024-03-10 03:30:00" (Cal.mkFields 2024 3 10 3 30 0)).
  - reflexivity.
  - vm_compute. reflexivity.
  - vm_compute. repeat split; (reflexivity || (intro; discriminate)).
  - vm_compute. intro; discriminate.
  - reflexivity.
  - reflexivity.
  - lia.
  - lia.
  - intros t. change (Cal.utc_of_fields (Cal.mkFields 2024 3 10 3 30 0))
      with 1710041400000.
    intros Ht. unfold new_york_2024.
    destruct (Z.ltb_spec t 1710054000000), (Z.ltb_spec t 1730613600000);
      (reflexivity || lia).
Defined.

(** C3 as stated fails on the reading it singles out: 02:30 on
    2024-03-10 does not exist in New York, [toUtcMs] resolves it to
    06:30 UTC, and that instant is formatted back as 01:30. *)
Lemma gap_reading_not_reproduced :
  naive_input "2024-03-10 02:30" (Cal.mkFields 2024 3 10 2 30 0)
  ∧ Time.toUtcMs sample_tzdb (λ _, None)
      (Time.IStr "2024-03-10 02:30") "America/New_York" = Some 1710052200000
  ∧ Time.formatToParts sample_tzdb "America/New_York" 1710052200000
    = Js.Ok (Cal.mkFields 2024 3 10 1 30 0)
  ∧ Cal.mkFields 2024 3 10 1 30 0 ≠ Cal.mkFields 2024 3 10 2 30 0.
Proof.
  split; [|split; [|split]].
  - vm_compute. reflexivity.
  - vm_compute. reflexivity.
  - vm_compute. reflexivity.
  - intros H. discriminate H.
Qed.

(** ** Paged fetching under partial failure *)

Section PagedFetch.

Import Server.

Variable upstream : nat → page_result.

Lemma availability_loop_eq n page req all :
  availability_loop upstream n page req all = bookings_loop upstream n page req all.
Proof.
  revert page req all. induction n as [|n IH]; intros page req all; [done|].
  cbn [availability_loop bookings_loop]. unfold wooFetch, perPage.
  destruct (upstream page) as [| | |batch]; try done.
  by rewrite IH.
Qed.

(** The loop requests consecutive pages, at most as many as the ceiling
    allows; every page before the last requested one was a full batch, and
    the records are the batches of the requested pages, in order. *)
Lemma bookings_loop_shape n page req all :
  (1 ≤ n)%nat →
  ∃ k, (1 ≤ k ≤ n)%nat
     ∧ bookings_loop upstream n page req all
       = (req ++ seq page k,
          all ++ concat (map (λ p, batch_of (upstream p)) (seq page k)))
     ∧ ∀ p, (page ≤ p < page + k - 1)%nat →
            ∃ b, upstream p = Page b ∧ (perPage ≤ length b)%nat.
Proof.
  revert page req all. induction n as [|n IH]; intros page req all Hn; [lia|].
  cbn [bookings_loop].
  destruct (upstream page) as [|st| |batch] eqn:Hup;
    try (exists 1%nat; cbn [seq map concat batch_of]; rewrite Hup;
         cbn [batch_of]; rewrite !app_nil_r;
         split; [lia|split; [done|intros; lia]]).
  destruct (Nat.ltb_spec (length batch) perPage) as [Hshort|Hfull].
  - exists 1%nat. cbn [seq map concat]. rewrite Hup. cbn [batch_of].
    rewrite !app_nil_r. split; [lia|split; [done|intros; lia]].
  - destruct n as [|n].
    + exists 1%nat. cbn [bookings_loop seq map concat]. rewrite Hup.
      cbn [batch_of]. rewrite !app_nil_r.
      split; [lia|split; [done|intros; lia]].
    + destruct (IH (S page) (req ++ [page]) (all ++ batch) ltac:(lia))
        as (k & Hk & Heq & Hfullk).
      exists (S k). split; [lia|]. split.
      * rewrite Heq. cbn [seq map concat]. rewrite Hup. cbn [batch_of].
        by rewrite <- !app_assoc.
      * intros p Hp. destruct (decide (p = page)) as [->|Hne].
        -- eauto.
        -- apply Hfullk. lia.
Qed.

(** When the pages listed in [bs] are full batches and the page after
    them fails, the loop stops there with exactly those batches. *)
Lemma bookings_loop_stops_at_failure (bs : list (list booking)) n page req all :
  (length bs < n)%nat →
  (∀ i b, bs !! i = Some b →
          upstream (page + i)%nat = Page b ∧ (perPage ≤ length b)%nat) →
  failed (upstream (page + length bs)%nat) →
  bookings_loop upstream n page req all
  = (req ++ seq page (S (length bs)), all ++ concat bs).
Proof.
  revert n page req all.
  induction bs as [|b bs IH]; intros n page req all Hn Hok Hfail.
  - destruct n as [|n]; [cbn in Hn; lia|]. cbn [bookings_loop length seq concat].
    cbn [length] in Hfail. rewrite Nat.add_0_r in Hfail.
    rewrite app_nil_r. destruct (upstream page); done.
  - destruct n as [|n]; [cbn in Hn; lia|]. cbn [bookings_loop].
    destruct (Hok 0%nat b eq_refl) as [Hup Hfull]. rewrite Nat.add_0_r in Hup.
    rewrite Hup.
    destruct (Nat.ltb_spec (length b) perPage) as [Hshort|_]; [lia|].
    rewrite (IH n (S page) (req ++ [page]) (all ++ b)).
    + cbn [length seq concat]. by rewrite <- !app_assoc.
    + cbn [length] in Hn. lia.
    + intros i b' Hi. specialize (Hok (S i) b' Hi).
      by replace (S page + i)%nat with (page + S i)%nat by lia.
    + cbn [length] in Hfail.
      by replace (S page + length bs)%nat with (page + S (length bs))%nat by lia.
Qed.

(** C7.  Both paged fetchers ask for pages of 100 records, pages 1, 2, ...
    in order and never more than five; they go on only after a full page;
    a time-out, a non-2xx status or unreadable JSON on a page ends the loop
    and the result is exactly the concatenation of the batches received
    before it.  In particular, when page 1 delivers a batch and page 2
    fails, the result is that batch. *)
Theorem paged_fetch_partial_failure :
  (∃ k, (1 ≤ k ≤ 5)%nat
      ∧ fetchBookingPages upstream
        = (seq 1 k, concat (map (λ p, batch_of (upstream p)) (seq 1 k)))
      ∧ ∀ p, (1 ≤ p < k)%nat →
             ∃ b, upstream p = Page b ∧ (100 ≤ length b)%nat)
  ∧ fetchAvailabilityPages upstream = fetchBookingPages upstream
  ∧ (∀ bs : list (list booking),
       (length bs < 5)%nat →
       (∀ i b, bs !! i = Some b →
               upstream (S i) = Page b ∧ (100 ≤ length b)%nat) →
       failed (upstream (S (length bs))) →
       fetchBookingPages upstream = (seq 1 (S (length bs)), concat bs))
  ∧ (∀ b1, upstream 1%nat = Page b1 → failed (upstream 2%nat) →
           (fetchBookingPages upstream).2 = b1).
Proof.
  split; [|split; [|split]].
  - destruct (bookings_loop_shape 5 1 [] [] ltac:(lia)) as (k & Hk & Heq & Hfull).
    exists k. split; [done|]. split; [exact Heq|].
    intros p Hp. apply Hfull. lia.
  - apply availability_loop_eq.
  - intros bs Hlen Hok Hfail. unfold fetchBookingPages.
    by rewrite (bookings_loop_stops_at_failure bs).
  - intros b1 H1 H2. unfold fetchBookingPages. cbn [bookings_loop].
    rewrite H1. destruct (length b1 <? perPage)%nat; [done|].
    destruct (upstream 2%nat); cbn; by rewrite ?app_nil_r.
Qed.

End PagedFetch.

(** The theorem at an upstream whose first page is full, so that the loop
    goes on to the second page, and whose second page times out: pages 1
    and 2 are requested and the hundred records of page 1 are the result,
    for both fetchers. *)
Lemma paged_fetch_partial_failure_witness :
  Server.fetchBookingPages full_then_timeout = ([1; 2]%nat, full_page)
  ∧ Server.fetchAvailabilityPages full_then_timeout = ([1; 2]%nat, full_page)
  ∧ length full_page = 100%nat.
Proof.
  destruct (paged_fetch_partial_failure full_then_timeout)
    as (_ & Havail & Hfail & _).
  assert (H : Server.fetchBookingPages full_then_timeout
              = (seq 1 2, concat [full_page])).
  { apply (Hfail [full_page]).
    - cbn [length]. lia.
    - intros [|i] b Hb; [|destruct i; discriminate Hb].
      injection Hb as <-. split; [reflexivity|]. vm_compute. lia.
    - exact I. }
  cbn [concat seq] in H. rewrite app_nil_r in H.
  split; [exact H|]. split; [by rewrite Havail|reflexivity].
Defined.

(** Had the second page arrived, its record would have been appended: the
    result above is short of it because of the time-out, not because the
    loop had ended. *)
Example second_page_read_after_full_page :
  Server.fetchBookingPages
    (λ p, match p with
          | 1%nat => Server.Page full_page
          | _ => Server.Page [early_booking]
          end)
  = ([1; 2]%nat, full_page ++ [early_booking]).
Proof. vm_compute. reflexivity. Qed.

(** ** Missing configuration *)

Section Unconfigured.

Import Server.

Variable tzdb : string → option (Z → Z).
Variable dateParse : string → option Z.

Lemma getWooConfig_missing (e : env) :
  missing (WOOCOMMERCE_STORE_URL e) || missing (WOOCOMMERCE_CONSUMER_KEY e)
  || missing (WOOCOMMERCE_CONSUMER_SECRET e) = true →
  getWooConfig e = None.
Proof.
  unfold getWooConfig. intros H.
  destruct (WOOCOMMERCE_STORE_URL e), (WOOCOMMERCE_CONSUMER_KEY e),
    (WOOCOMMERCE_CONSUMER_SECRET e); try done.
  by rewrite H.
Qed.

(** C9, as the code has it.  With a missing store URL, key or secret the
    bookings listing answers 200 with [success: true], an empty [data],
    [bookings_available: false] and [credentials_missing: true], and leaves
    its cache alone; the availability range answers 400 with
    [success: false] and an error text.  Neither handler throws. *)
Theorem unconfigured_responses (e : env) (q : query) (w : world)
    (bookingsCache : gmap string (Z * list event))
    (product_ids : list (option Z)) (cached : option (Z * list slot)) (now : Z)
    (upstream : nat → page_result)
    (names : Js.number → option string) (totals : Js.number → option Z) :
  missing (WOOCOMMERCE_STORE_URL e) || missing (WOOCOMMERCE_CONSUMER_KEY e)
  || missing (WOOCOMMERCE_CONSUMER_SECRET e) = true →
  getBookings tzdb dateParse e q w bookingsCache
  = (mkResponse 200
       (mkEnvelope true (Some []) (Some 0) (Some credentials_message) None
          (Some false) true false),
     bookingsCache)
  ∧ handleAvailabilityRange dateParse e product_ids cached now upstream names totals
    = (mkResponse 400
         (mkEnvelope false None None None
            (Some "WooCommerce credentials not configured"%string) None false false),
       None).
Proof.
  intros H. apply getWooConfig_missing in H.
  unfold getBookings, handleAvailabilityRange. by rewrite H.
Qed.

End Unconfigured.

Lemma unconfigured_responses_witness :
  Server.getBookings (λ _, None) (λ _, None) (Server.mkEnv None None None)
    (Server.mkQuery None None None)
    (Server.mkWorld (λ _, Server.FetchFailed) 0 (λ _, 0) 0 None (λ _, None)) ∅
  = (Server.mkResponse 200
       (Server.mkEnvelope true (Some []) (Some 0)
          (Some Server.credentials_message) None (Some false) true false),
     ∅)
  ∧ Server.handleAvailabilityRange (λ _, None) (Server.mkEnv None None None)
      [] None 0 (λ _, Server.FetchFailed) (λ _, None) (λ _, None)
    = (Server.mkResponse 400
         (Server.mkEnvelope false None None None
            (Some "WooCommerce credentials not configured"%string) None false false),
       None).
Proof.
  apply (unconfigured_responses (λ _, None) (λ _, None)
           (Server.mkEnv None None None)).
  reflexivity.
Defined.

(** C9 as stated fails for the availability range: without configuration
    it answers with an error envelope, not with an empty success. *)
Lemma availability_range_unconfigured_is_error :
  let r := (Server.handleAvailabilityRange (λ _, None)
              (Server.mkEnv None None None) [] None 0
              (λ _, Server.FetchFailed) (λ _, None) (λ _, None)).1 in
  Server.status r = 400
  ∧ Server.success (Server.body r) = false
  ∧ Server.data (Server.body r) = None
  ∧ Server.error (Server.body r)
    = Some "WooCommerce credentials not configured"%string.
Proof. repeat split. Qed.

(** ** The defensive range filter of the bookings listing *)

Section RangeFilter.

Import Js Server.

Variable tzdb : string → option (Z → Z).
Variable dateParse : string → option Z.

Local Abbreviation getBookings := (Server.getBookings tzdb dateParse).
Local Abbreviation convert := (Server.convert tzdb dateParse).

(** *** What [parseBookingDateToMs] reads *)

(** The instant that a start value denotes, when it denotes one: a finite
    number is seconds, or milliseconds above 10^12; a string in the store's
    format [YYYY-MM-DD HH:mm:ss] is that wall-clock time in UTC; any other
    string is what [Date.parse] makes of it. *)
Definition start_reading (v : Time.input) : option Z :=
  match v with
  | Time.INum (Fin z) => Some (if 1000000000000 <? z then z else z * 1000)
  | Time.IStr s =>
      match match_wc_format (list_ascii_of_string s) with
      | Some p => Some (Cal.utc_of_fields p)
      | None => dateParse s
      end
  | _ => None
  end.

Lemma digits_chars (n : nat) (acc : Z) (cs rest : list ascii) (v : Z) :
  Str.digits n acc cs = Some (v, rest) →
  ∃ ds, cs = ds ++ rest ∧ Forall (λ c, Str.is_digit c = true) ds.
Proof.
  revert acc cs. induction n as [|n IH]; intros acc cs; cbn [Str.digits].
  - intros [= _ ->]. by exists [].
  - destruct cs as [|c cs]; [done|]. destruct (Str.is_digit c) eqn:Hc; [|done].
    intros (ds & -> & Hds)%IH. exists (c :: ds). split; [done|]. by constructor.
Qed.

Lemma lit_char (k : Z) (cs rest : list ascii) :
  Str.lit k cs = Some rest → ∃ c, cs = c :: rest ∧ Str.code c = k.
Proof.
  destruct cs as [|c cs]; cbn [Str.lit]; [done|].
  destruct (Z.eqb_spec (Str.code c) k); [|done]. intros [= <-]. eauto.
Qed.

(** The store's format has no [T]. *)
Lemma match_wc_format_no_T (cs : list ascii) (p : Cal.fields) :
  match_wc_format cs = Some p → Forall (λ c, Str.code c ≠ 84) cs.
Proof.
  unfold match_wc_format. intros H.
  assert (Hd : ∀ ds, Forall (λ c, Str.is_digit c = true) ds →
                     Forall (λ c, Str.code c ≠ 84) ds).
  { intros ds Hds. eapply Forall_impl; [exact Hds|].
    intros c. unfold Str.is_digit. lia. }
  apply bind_Some in H as ([y cs1] & (d1 & -> & F1)%digits_chars & H).
  apply bind_Some in H as (cs2 & (c2 & -> & C2)%lit_char & H).
  apply bind_Some in H as ([mo cs3] & (d3 & -> & F3)%digits_chars & H).
  apply bind_Some in H as (cs4 & (c4 & -> & C4)%lit_char & H).
  apply bind_Some in H as ([d cs5] & (d5 & -> & F5)%digits_chars & H).
  apply bind_Some in H as (cs6 & (c6 & -> & C6)%lit_char & H).
  apply bind_Some in H as ([h cs7] & (d7 & -> & F7)%digits_chars & H).
  apply bind_Some in H as (cs8 & (c8 & -> & C8)%lit_char & H).
  apply bind_Some in H as ([mi cs9] & (d9 & -> & F9)%digits_chars & H).
  apply bind_Some in H as (cs10 & (c10 & -> & C10)%lit_char & H).
  apply bind_Some in H as ([se cs11] & (d11 & -> & F11)%digits_chars & H).
  destruct cs11; [|done].
  repeat first [ apply Forall_app; split; [by apply Hd|]
               | apply Forall_cons; split; [lia|] ].
  done.
Qed.

Lemma has_digit_T_digit_none (cs : list ascii) :
  Forall (λ c, Str.code c ≠ 84) cs → Str.has_digit_T_digit cs = false.
Proof.
  induction 1 as [|a cs Ha Hcs IH]; [done|]. cbn [Str.has_digit_T_digit].
  destruct cs as [|t [|c cs']]; [done..|]. rewrite IH.
  apply Forall_cons in Hcs as [Ht _].
  destruct (Z.eqb_spec (Str.code t) 84); [done|]. by rewrite andb_false_r.
Qed.

(** [parseBookingDateToMs] gives the instant that the value denotes, and
    the current time for a value that denotes none. *)
Lemma parseBookingDateToMs_reading (now : Z) (v : Time.input) :
  parseBookingDateToMs dateParse now v = default now (start_reading v).
Proof.
  destruct v as [|[| | |z]|s]; try done. cbn [parseBookingDateToMs start_reading].
  destruct (match_wc_format (list_ascii_of_string s)) as [p|] eqn:Hwc.
  - by rewrite (has_digit_T_digit_none _ (match_wc_format_no_T _ _ Hwc)).
  - destruct (_ && _); by destruct (dateParse s).
Qed.

(** *** The filter *)

Lemma in_range_spec (q : query) (now : Z) (b : booking) :
  in_range dateParse (start_date q) (end_date q) now b = true →
  in_requested_range dateParse q (default now (start_reading (start b))).
Proof.
  unfold in_range, in_requested_range, minMs, maxMs, parse_bound.
  rewrite parseBookingDateToMs_reading.
  generalize (default now (start_reading (start b))). intros s.
  intros [Hlo Hhi]%andb_prop. split; intros Ht; rewrite Ht in *.
  - destruct (dateParse (str_or_empty (start_date q) +:+ "T00:00:00Z"))
      as [lo|]; [|done].
    exists lo. split; [done|]. by apply Z.leb_le.
  - destruct (dateParse (str_or_empty (end_date q) +:+ "T23:59:59Z"))
      as [hi|]; [|done].
    exists hi. split; [done|]. by apply Z.leb_le.
Qed.

(** Every record that the filter keeps passed the range test at the clock
    reading of the callback that looked at it. *)
Lemma range_filter_kept (sd ed : option string) (clock : nat → Z) (j : nat)
    (bs : list booking) :
  Forall (λ b, ∃ i, bs !! i = Some b
                    ∧ in_range dateParse sd ed (clock (j + i)%nat) b = true)
         (range_filter dateParse sd ed clock j bs).
Proof.
  revert j. induction bs as [|b bs IH]; intros j; cbn [range_filter]; [constructor|].
  assert (Hrest : Forall (λ b', ∃ i, (b :: bs) !! i = Some b'
                     ∧ in_range dateParse sd ed (clock (j + i)%nat) b' = true)
                    (range_filter dateParse sd ed clock (S j) bs)).
  { eapply Forall_impl; [apply IH|]. intros b' (i & Hi & Hr). exists (S i).
    split; [done|]. by replace (j + S i)%nat with (S j + i)%nat by lia. }
  destruct (in_range _ _ _ _ b) eqn:Hb; [|done].
  constructor; [|done]. exists 0%nat. split; [done|].
  by rewrite Nat.add_0_r.
Qed.

(** The records fetched for a request served in the world [w], and those
    of them that the defensive filter keeps for the dates of [q]. *)
Definition fetched (w : world) : list booking :=
  (fetchBookingPages (upstream w)).2.

Definition kept_by (q : query) (w : world) : list booking :=
  defensive_filter dateParse (start_date q) (end_date q) (clock w) (fetched w).

Definition dated (q : query) : Prop :=
  truthy_str (start_date q) || truthy_str (end_date q) = true.

(** The range postcondition of a record: when the filter looked at the
    record, the instant that its start denotes - or, for a start that
    denotes none, the time of the look - was in the range that [q]
    requests. *)
Definition in_range_when_filtered (q : query) (w : world) (b : booking) : Prop :=
  ∃ i, fetched w !! i = Some b
       ∧ in_requested_range dateParse q
           (default (clock w i) (start_reading (start b))).

Lemma kept_in_range (q : query) (w : world) :
  dated q → Forall (in_range_when_filtered q w) (kept_by q w).
Proof.
  unfold dated, kept_by, defensive_filter. intros ->.
  eapply Forall_impl; [apply range_filter_kept|].
  intros b (i & Hi & Hr). exists i. split; [done|]. by apply in_range_spec.
Qed.

(** The data of an answer satisfies the postcondition for [q] when it is
    the conversion of records fetched in one of the worlds in which the
    handler was run - none, or exactly those that the filter kept for the
    dates of [q] - and every one of them has the range postcondition. *)
Definition ranged (q : query) (worlds : list world) (evs : list event) : Prop :=
  ∃ w0 kept,
    w0 ∈ worlds
    ∧ (kept = [] ∨ kept = kept_by q w0)
    ∧ evs = map (convert w0) kept
    ∧ Forall (in_range_when_filtered q w0) kept.

(** *** The cache *)

(** The cache after the handler has served the requests [before], one
    after the other, starting with an empty cache. *)
Definition cache_after (e : env) (before : list (query * world))
  : gmap string (Z * list event) :=
  fold_left (λ cache r, (getBookings e r.1 r.2 cache).2) before ∅.

(** Every entry was stored by one of the requests, under the key of that
    request, and holds the conversion of what the filter kept for it. *)
Definition from_requests (before : list (query * world))
    (cache : gmap string (Z * list event)) : Prop :=
  ∀ k ts evs,
    cache !! k = Some (ts, evs) →
    ∃ q0 w0, (q0, w0) ∈ before ∧ cacheKey q0 = k
             ∧ evs = map (convert w0) (kept_by q0 w0).

Lemma getBookings_source (e : env) (q : query) (w : world)
    (before : list (query * world)) (cache : gmap string (Z * list event)) :
  from_requests before cache →
  (∃ evs, data (body (getBookings e q w cache).1) = Some evs
          ∧ (evs = []
             ∨ ∃ q0 w0, (q0, w0) ∈ before ++ [(q, w)]
                        ∧ cacheKey q0 = cacheKey q
                        ∧ evs = map (convert w0) (kept_by q0 w0)))
  ∧ from_requests (before ++ [(q, w)]) (getBookings e q w cache).2.
Proof.
  intros Hinv.
  assert (Hold : from_requests (before ++ [(q, w)]) cache).
  { intros k ts evs Hk. destruct (Hinv k ts evs Hk) as (q0 & w0 & Hin & H).
    exists q0, w0. split; [|done]. apply elem_of_app. by left. }
  unfold Server.getBookings.
  destruct (getWooConfig e) as [cfg|]; cbn [fst snd body data];
    [|split; [exists []; split; [done|by left]|done]].
  assert (Hlast : (q, w) ∈ before ++ [(q, w)])
    by (apply elem_of_app; right; left).
  fold (fetched w). fold (kept_by q w).
  assert (Hfresh :
    let r :=
      match kept_by q w with
      | [] =>
          (mkResponse 200
             (mkEnvelope true (Some []) (Some 0) (Some no_plugin_message)
                None (Some false) false false), cache)
      | _ :: _ =>
          (mkResponse 200
             (mkEnvelope true (Some (map (convert w) (kept_by q w)))
                (Some (Z.of_nat (length (kept_by q w)))) None None (Some true)
                false false),
           <[cacheKey q := (now_store w, map (convert w) (kept_by q w))]> cache)
      end in
    (∃ evs, data (body r.1) = Some evs
            ∧ (evs = []
               ∨ ∃ q0 w0, (q0, w0) ∈ before ++ [(q, w)]
                          ∧ cacheKey q0 = cacheKey q
                          ∧ evs = map (convert w0) (kept_by q0 w0)))
    ∧ from_requests (before ++ [(q, w)]) r.2).
  { destruct (kept_by q w) as [|b bs] eqn:HF; cbn [fst snd body data].
    - split; [exists []; split; [done|by left]|done].
    - split.
      + eexists. split; [done|]. right. exists q, w. by rewrite HF.
      + intros k ts evs. destruct (decide (cacheKey q = k)) as [<-|Hne].
        * rewrite lookup_insert_eq. intros [= _ <-]. exists q, w.
          by rewrite HF.
        * rewrite lookup_insert_ne by done. apply Hold. }
  destruct (cache !! cacheKey q) as [[ts evs]|] eqn:Hlook.
  - destruct (now_check w - ts <? BOOKINGS_TTL_MS); [|exact Hfresh].
    cbn [fst snd body data]. split; [|done]. exists evs. split; [done|].
    right. destruct (Hold _ _ _ Hlook) as (q0 & w0 & Hin & Hk & Hev). eauto.
  - exact Hfresh.
Qed.

Lemma cache_after_from_requests (e : env) (before : list (query * world)) :
  from_requests before (cache_after e before).
Proof.
  unfold cache_after. induction before as [|[q w] before IH] using rev_ind.
  - intros k ts evs Hk. cbn [fold_left] in Hk. by rewrite lookup_empty in Hk.
  - rewrite fold_left_app. cbn [fold_left fst snd].
    by apply getBookings_source.
Qed.

(** *** The cache key *)

(** The number of key separators in a string. *)
Definition bars (s : string) : nat :=
  length (filter (λ c, Str.code c = 124) (list_ascii_of_string s)).

Lemma bars_app (a b : string) : bars (a +:+ b) = (bars a + bars b)%nat.
Proof.
  unfold bars. induction a as [|c a IH]; [done|].
  change ((String c a) +:+ b) with (String c (a +:+ b)).
  cbn [list_ascii_of_string]. destruct (decide (Str.code c = 124)) as [Hc|Hc].
  - rewrite !filter_cons_True by done. cbn [length]. by rewrite IH.
  - by rewrite !filter_cons_False.
Qed.

Lemma bars_bar (r : string) : bars (String "|" r) = S (bars r).
Proof. unfold bars. cbn [list_ascii_of_string]. by rewrite filter_cons_True. Qed.

Lemma no_bar_bars (x : option string) :
  no_bar x = true ↔ bars (str_or_empty x) = 0%nat.
Proof.
  unfold no_bar, bars. induction (list_ascii_of_string (str_or_empty x)) as [|c l IH];
    [done|]. cbn [forallb]. destruct (decide (Str.code c = 124)) as [Hc|Hc].
  - rewrite filter_cons_True by done. rewrite Hc. cbn. split; [done|lia].
  - rewrite filter_cons_False by done.
    destruct (Z.eqb_spec (Str.code c) 124); [done|]. cbn [negb andb]. exact IH.
Qed.

Lemma bars_cacheKey (q : query) :
  bars (cacheKey q)
  = (bars (str_or_empty (start_date q)) + bars (str_or_empty (end_date q))
     + bars (str_or_empty (status_filter q)) + 2)%nat.
Proof.
  unfold cacheKey.
  change ("|" +:+ ?r) with (String "|" r).
  rewrite !bars_app.
  change ("|" +:+ str_or_empty (status_filter q))
    with (String "|" (str_or_empty (status_filter q))).
  change ("|" +:+ (str_or_empty (end_date q)
                   +:+ String "|" (str_or_empty (status_filter q))))
    with (String "|" (str_or_empty (end_date q)
                      +:+ String "|" (str_or_empty (status_filter q)))).
  rewrite ?bars_app, ?bars_bar, ?bars_app, ?bars_bar. lia.
Qed.

Lemma split_at_bar (a a' r r' : string) :
  forallb (λ c, negb (Str.code c =? 124)) (list_ascii_of_string a) = true →
  forallb (λ c, negb (Str.code c =? 124)) (list_ascii_of_string a') = true →
  a +:+ String "|" r = a' +:+ String "|" r' → a = a' ∧ r = r'.
Proof.
  revert a'. induction a as [|c a IH]; intros [|c' a'] Ha Ha' Heq; cbn in *.
  - by injection Heq.
  - injection Heq as <- _. done.
  - injection Heq as -> _. done.
  - injection Heq as -> Heq.
    apply andb_prop in Ha as [_ Ha]. apply andb_prop in Ha' as [_ Ha'].
    by destruct (IH a' Ha Ha' Heq) as [-> ->].
Qed.

(** A request without a separator in its parameters shares its key only
    with requests for the same dates. *)
Lemma cacheKey_same_dates (q q0 : query) :
  no_bar (start_date q) = true → no_bar (end_date q) = true →
  no_bar (status_filter q) = true →
  cacheKey q0 = cacheKey q →
  str_or_empty (start_date q0) = str_or_empty (start_date q)
  ∧ str_or_empty (end_date q0) = str_or_empty (end_date q).
Proof.
  intros Hs He Ht Hk. pose proof (f_equal bars Hk) as Hb.
  rewrite !bars_cacheKey in Hb.
  apply no_bar_bars in Hs, He, Ht. rewrite Hs, He, Ht in Hb.
  assert (Hs0 : no_bar (start_date q0) = true) by (apply no_bar_bars; lia).
  assert (He0 : no_bar (end_date q0) = true) by (apply no_bar_bars; lia).
  apply no_bar_bars in Hs, He. unfold cacheKey, no_bar in *.
  apply split_at_bar in Hk as [Hsd Hk]; [|done|done].
  apply split_at_bar in Hk as [Hed _]; done.
Qed.

Lemma truthy_str_or_empty (a b : option string) :
  str_or_empty a = str_or_empty b → truthy_str a = truthy_str b.
Proof.
  unfold truthy_str, missing.
  destruct a as [a|], b as [b|]; cbn [str_or_empty]; intros Heq;
    repeat case_decide; try done; congruence.
Qed.

Lemma kept_by_same_dates (q q0 : query) (w : world) :
  str_or_empty (start_date q0) = str_or_empty (start_date q) →
  str_or_empty (end_date q0) = str_or_empty (end_date q) →
  kept_by q0 w = kept_by q w.
Proof.
  intros Hs He. unfold kept_by, defensive_filter.
  rewrite (truthy_str_or_empty _ _ Hs), (truthy_str_or_empty _ _ He).
  destruct (_ || _); [|done]. generalize 0%nat.
  induction (fetched w) as [|b bs IH]; intros j; cbn [range_filter]; [done|].
  rewrite IH.
  assert (in_range dateParse (start_date q0) (end_date q0) (clock w j) b
          = in_range dateParse (start_date q) (end_date q) (clock w j) b) as ->;
    [|done].
  unfold in_range, minMs, maxMs.
  by rewrite (truthy_str_or_empty _ _ Hs), (truthy_str_or_empty _ _ He), Hs, He.
Qed.

(** Two requests ask for the same dates. *)
Definition same_dates (q0 q : query) : Prop :=
  str_or_empty (start_date q0) = str_or_empty (start_date q)
  ∧ str_or_empty (end_date q0) = str_or_empty (end_date q).

(** No earlier request for other dates had the cache key of [q]. *)
Definition key_unshared (before : list (query * world)) (q : query) : Prop :=
  Forall (λ r, cacheKey r.1 = cacheKey q → same_dates r.1 q) before.

(** The key of a request whose parameters are free of the separator is
    unshared, whatever came before. *)
Lemma bar_free_key_unshared (before : list (query * world)) (q : query) :
  no_bar (start_date q) = true → no_bar (end_date q) = true →
  no_bar (status_filter q) = true →
  key_unshared before q.
Proof.
  intros Hs He Ht. apply Forall_forall. intros [q0 w0] _.
  by apply cacheKey_same_dates.
Qed.

(** The filter lets a record pass that is in range at its turn. *)
Lemma range_filter_keeps (sd ed : option string) (clock : nat → Z) (j i : nat)
    (bs : list booking) (b : booking) :
  bs !! i = Some b →
  in_range dateParse sd ed (clock (j + i)%nat) b = true →
  b ∈ range_filter dateParse sd ed clock j bs.
Proof.
  revert j i. induction bs as [|b' bs IH]; intros j [|i]; cbn [range_filter];
    try done.
  - intros [= ->]. rewrite Nat.add_0_r. intros ->. left.
  - cbn. intros Hb Hin. rewrite <- Nat.add_succ_comm in Hin.
    specialize (IH (S j) i Hb Hin). destruct (in_range _ _ _ _ b'); [by right|done].
Qed.

(** C10, as the code has it.  Let the handler have served any requests,
    starting with an empty cache, none of which had the cache key of the
    present request while asking for other dates, and let the present
    request give a start or an end date.  Then the data of the answer -
    fresh or served from the cache - is the conversion of the records that
    were fetched for one of these requests and kept by the filter for the
    dates now asked for; and for every one of these records the instant
    that its start denotes lay, when the filter looked at the record,
    between 00:00:00Z of the start date and 23:59:59Z of the end date (for
    a start that denotes no instant, the time of the look did). *)
Theorem listing_within_requested_range (e : env)
    (before : list (query * world)) (q : query) (w : world) :
  key_unshared before q →
  dated q →
  ∃ evs, data (body (getBookings e q w (cache_after e before)).1) = Some evs
         ∧ ranged q (before.*2 ++ [w]) evs.
Proof.
  intros Hkey Hd.
  destruct (getBookings_source e q w before _ (cache_after_from_requests e before))
    as [(evs & Hdata & Hsrc) _].
  exists evs. split; [done|].
  destruct Hsrc as [->|(q0 & w0 & Hin & Hk & ->)].
  - exists w, []. split; [apply elem_of_app; right; left|].
    split; [by left|]. split; [done|constructor].
  - assert (Hsame : same_dates q0 q).
    { apply elem_of_app in Hin as [Hin|Hin].
      - unfold key_unshared in Hkey. rewrite Forall_forall in Hkey.
        exact (Hkey _ Hin Hk).
      - apply list_elem_of_singleton in Hin as [= -> ->]. done. }
    destruct Hsame as [Hsd Hed].
    rewrite (kept_by_same_dates q q0 w0 Hsd Hed).
    exists w0, (kept_by q w0). split.
    { change [w] with ([(q, w)].*2). rewrite <- fmap_app.
      apply list_elem_of_fmap. by exists (q0, w0). }
    split; [by right|]. split; [done|]. by apply kept_in_range.
Qed.

End RangeFilter.

Lemma listing_within_requested_range_witness :
  ∃ evs,
    Server.data
      (Server.body
         (Server.getBookings sample_tzdb sample_dateParse sample_env
            sample_query later_world
            (cache_after sample_tzdb sample_dateParse sample_env
               [(sample_query, sample_world)])).1) = Some evs
    ∧ ranged sample_tzdb sample_dateParse sample_query
        [sample_world; later_world] evs.
Proof.
  apply (listing_within_requested_range sample_tzdb sample_dateParse sample_env
           [(sample_query, sample_world)] sample_query later_world).
  - constructor; [|constructor]. intros _. split; reflexivity.
  - reflexivity.
Defined.

(** The second answer of the sample comes from the cache: the upstream is
    down, and the envelope says [cached]. *)
Example cached_listing_sample :
  Server.body
    (Server.getBookings sample_tzdb sample_dateParse sample_env
       sample_query later_world
       (cache_after sample_tzdb sample_dateParse sample_env
          [(sample_query, sample_world)])).1
  = Server.mkEnvelope true
      (Some [Server.mkEvent 1 "Booking #1" 1710000000000 1710003600000 2 (Js.Fin 10)])
      (Some 1) None None (Some true) false true.
Proof. vm_compute. reflexivity. Qed.

(** C10 as stated fails where two requests share a cache key.  After a
    request for March 2024 with the status [|x], a request with the start
    date [2024-03-01|2024-03-31] and the status [x], made within the life
    of the cache entry, is served the first one's record, although its own
    start bound cannot be read, so that no instant is within its range;
    answered afresh from the same upstream, it lists nothing. *)
Lemma shared_cache_key_serves_other_range :
  let b := sample_booking 1 10 1710000000 1710003600 2 in
  let cache :=
    cache_after sample_tzdb sample_dateParse sample_env
      [(march_query, sample_world)] in
  Server.cacheKey barred_query = Server.cacheKey march_query
  ∧ Server.data
      (Server.body
         (Server.getBookings sample_tzdb sample_dateParse sample_env
            barred_query later_world cache).1)
    = Some [Server.convert sample_tzdb sample_dateParse sample_world b]
  ∧ (∀ now, ¬ Server.in_requested_range sample_dateParse barred_query
               (Server.parseBookingDateToMs sample_dateParse now (Server.start b)))
  ∧ Server.data
      (Server.body
         (Server.getBookings sample_tzdb sample_dateParse sample_env
            barred_query sample_world ∅).1)
    = Some [].
Proof.
  split; [reflexivity|]. split; [vm_compute; reflexivity|].
  split; [|vm_compute; reflexivity].
  intros now [Hlo _]. destruct (Hlo eq_refl) as (lo & Hp & _).
  vm_compute in Hp. discriminate Hp.
Qed.

Example listing_sample_keeps_march_only :
  Server.data
    (Server.body
       (Server.getBookings sample_tzdb sample_dateParse sample_env
          sample_query sample_world ∅).1)
  = Some [Server.mkEvent 1 "Booking #1" 1710000000000 1710003600000 2 (Js.Fin 10)].
Proof. vm_compute. reflexivity. Qed.

(** ** Grouping with an insertion-ordered map *)

Module JsMapFacts.

Import JsMap.

Section Facts.

Context {K V : Type} `{EqDecision K}.

Implicit Types (m : list (K * V)) (k : K) (v : V).

Lemma get_put_eq k v m : get k (put k v m) = Some v.
Proof.
  induction m as [|[k' v'] m IH]; cbn; [by rewrite decide_True|].
  destruct (decide (k' = k)) as [->|Hne]; cbn.
  - by rewrite decide_True.
  - by rewrite decide_False.
Qed.

Lemma get_put_ne k k' v m : k ≠ k' → get k' (put k v m) = get k' m.
Proof.
  intros Hne. induction m as [|[k0 v0] m IH]; cbn; [by rewrite decide_False|].
  destruct (decide (k0 = k)) as [->|Hk]; cbn.
  - by rewrite !decide_False.
  - by rewrite IH.
Qed.

Lemma get_Some_elem k v m : get k m = Some v → (k, v) ∈ m.
Proof.
  induction m as [|[k' v'] m IH]; cbn; [done|].
  destruct (decide (k' = k)) as [->|Hne].
  - intros [= ->]. left.
  - intros Hg. right. by apply IH.
Qed.

Lemma get_None_keys k m : get k m = None ↔ k ∉ m.*1.
Proof.
  induction m as [|[k' v'] m IH]; cbn.
  - split; [intros _; apply not_elem_of_nil | done].
  - rewrite not_elem_of_cons. destruct (decide (k' = k)) as [->|Hne].
    + split; [done|]. by intros [? _].
    + rewrite IH. split; [by intros ?; split | by intros [_ ?]].
Qed.

(** The keys keep their order; a new key is appended. *)
Lemma keys_put k v m :
  (put k v m).*1 = if decide (k ∈ m.*1) then m.*1 else m.*1 ++ [k].
Proof.
  induction m as [|[k' v'] m IH]; cbn.
  - rewrite decide_False; [done | apply not_elem_of_nil].
  - destruct (decide (k' = k)) as [->|Hne]; cbn.
    + rewrite decide_True; [done | left].
    + rewrite IH. destruct (decide (k ∈ m.*1)) as [Hin|Hin].
      * rewrite decide_True; [done | by right].
      * rewrite decide_False; [done|].
        rewrite not_elem_of_cons. by split.
Qed.

Lemma NoDup_keys_put k v m : NoDup m.*1 → NoDup (put k v m).*1.
Proof.
  intros Hnd. rewrite keys_put. case_decide; [done|].
  apply NoDup_app. split; [done|]. split; [|apply NoDup_singleton].
  intros x Hx ->%list_elem_of_singleton. done.
Qed.

Lemma elem_get k v m : NoDup m.*1 → (k, v) ∈ m → get k m = Some v.
Proof.
  induction m as [|[k' v'] m IH]; cbn; [by intros _ ?%elem_of_nil|].
  intros [Hk Hnd]%NoDup_cons [Heq|Hin]%elem_of_cons.
  - injection Heq as -> ->. by rewrite decide_True.
  - destruct (decide (k' = k)) as [->|Hne]; [|by apply IH].
    exfalso. apply Hk. apply list_elem_of_fmap. by exists (k, v).
Qed.

(** Two maps with the same lookups hold the same entries, possibly in
    another order. *)
Lemma same_gets_permutation m1 m2 :
  NoDup m1.*1 → NoDup m2.*1 → (∀ k, get k m1 = get k m2) → m1 ≡ₚ m2.
Proof.
  intros H1 H2 Hget. apply NoDup_Permutation.
  - by eapply NoDup_fmap_1.
  - by eapply NoDup_fmap_1.
  - intros [k v]. split; intros Hin.
    + apply get_Some_elem. rewrite <- Hget. by apply elem_get.
    + apply get_Some_elem. rewrite Hget. by apply elem_get.
Qed.

Lemma get_map_values {W : Type} (h : V → W) k m :
  get k (map (λ kv, (kv.1, h kv.2)) m) = h <$> get k m.
Proof.
  induction m as [|[k' v'] m IH]; cbn; [done|].
  by destruct (decide (k' = k)).
Qed.

End Facts.

(** A loop that folds each element into the entry of its key. *)
Section Upsert.

Context {K V E : Type} `{EqDecision K}.
Context (key : E → K) (skip : E → bool) (init : E → V) (merge : V → E → V).
Context (f : list (K * V) → E → list (K * V)).

Hypothesis f_upsert : ∀ m e,
  f m e = if skip e then m
          else put (key e)
                 match get (key e) m with
                 | Some v => merge v e
                 | None => init e
                 end m.

(** What the loop does to the entry of one key. *)
Definition entry_step (k : K) (o : option V) (e : E) : option V :=
  if skip e then o
  else if decide (key e = k)
       then Some match o with Some v => merge v e | None => init e end
       else o.

Lemma get_step k m e : get k (f m e) = entry_step k (get k m) e.
Proof.
  rewrite f_upsert. unfold entry_step. destruct (skip e); [done|].
  destruct (decide (key e = k)) as [<-|Hne].
  - by rewrite get_put_eq.
  - by rewrite get_put_ne.
Qed.

Lemma get_fold k es m :
  get k (fold_left f es m) = fold_left (entry_step k) es (get k m).
Proof.
  revert m. induction es as [|e es IH]; intros m; cbn; [done|].
  by rewrite IH, get_step.
Qed.

(** The elements that reach the entry of [k], in the order of the list, and
    the entry as the fold of exactly those. *)
Definition members (k : K) (es : list E) : list E :=
  filter (λ e, skip e = false ∧ key e = k) es.

Definition absorb (o : option V) (e : E) : option V :=
  Some match o with Some v => merge v e | None => init e end.

Lemma fold_entry_members k es o :
  fold_left (entry_step k) es o = fold_left absorb (members k es) o.
Proof.
  revert o. induction es as [|e es IH]; intros o; [done|].
  unfold members in *. cbn [fold_left]. rewrite IH.
  unfold entry_step. destruct (skip e) eqn:Hs.
  - rewrite filter_cons_False; [done | intros [? _]; congruence].
  - destruct (decide (key e = k)) as [Hk|Hk].
    + by rewrite filter_cons_True.
    + rewrite filter_cons_False; [done | by intros [_ ?]].
Qed.

Lemma get_fold_members k es :
  get k (fold_left f es []) = fold_left absorb (members k es) None.
Proof. by rewrite get_fold, fold_entry_members. Qed.

Lemma members_permutation k es es' :
  es ≡ₚ es' → members k es ≡ₚ members k es'.
Proof. intros Hp. unfold members. by rewrite Hp. Qed.

Lemma keys_fold es m :
  (fold_left f es m).*1
  = fold_left (λ seen k, if decide (k ∈ seen) then seen else seen ++ [k])
      (key <$> filter (λ e, skip e = false) es) m.*1.
Proof.
  revert m. induction es as [|e es IH]; intros m; [done|].
  cbn [fold_left]. rewrite IH, f_upsert. destruct (skip e) eqn:Hs.
  - rewrite filter_cons_False; [done | congruence].
  - rewrite filter_cons_True by done. cbn [fmap list_fmap fold_left].
    by rewrite keys_put.
Qed.

(** The entries are created in the order in which their keys first occur. *)
Lemma keys_fold_first_seen es :
  (fold_left f es []).*1 = first_seen (key <$> filter (λ e, skip e = false) es).
Proof. apply keys_fold. Qed.

Lemma NoDup_keys_fold es m : NoDup m.*1 → NoDup (fold_left f es m).*1.
Proof.
  revert m. induction es as [|e es IH]; intros m Hnd; cbn; [done|].
  apply IH. rewrite f_upsert. destruct (skip e); [done|].
  by apply NoDup_keys_put.
Qed.

End Upsert.

End JsMapFacts.

(** A left fold whose steps commute does not depend on the order of the
    list. *)
Lemma fold_left_permutation {A B : Type} (g : B → A → B) (l l' : list A) :
  (∀ x a b, g (g x a) b = g (g x b) a) →
  l ≡ₚ l' → ∀ x, fold_left g l x = fold_left g l' x.
Proof.
  intros Hcomm Hperm. induction Hperm as [|a l l' _ IH|a b l|l1 l2 l3 _ IH1 _ IH2];
    intros x; cbn.
  - done.
  - apply IH.
  - by rewrite Hcomm.
  - by rewrite IH1.
Qed.

(** ** Availability aggregation *)

Module JsFacts.

Import Js.

Lemma max_comm a b : max a b = max b a.
Proof. destruct a, b; cbn; try done. f_equal. lia. Qed.

Lemma max_assoc a b c : max a (max b c) = max (max a b) c.
Proof. destruct a, b, c; cbn; try done. f_equal. lia. Qed.

Lemma max_NInf_r a : max a NInf = a.
Proof. by destruct a. Qed.

Lemma or_truthy a b : truthy a = true → or a b = a.
Proof. unfold or. by intros ->. Qed.

End JsFacts.

Section ServerAggregation.

Import Js Server JsMapFacts JsFacts.

Variable dateParse : string → option Z.
Variable allowedIds : list Z.

Definition booking_key (b : booking) : group_key :=
  (product_id b, slot_ms dateParse (start b)).

Definition booking_init (b : booking) : group :=
  mkGroup (product_id b) (slot_ms dateParse (start b))
    (or (slot_ms dateParse (end_ b)) (slot_ms dateParse (start b)))
    (parseCounts (person_counts b)).

Definition booking_merge (prev : group) (b : booking) : group :=
  mkGroup (g_product_id prev) (g_start prev)
    (max (g_end prev) (or (slot_ms dateParse (end_ b)) (g_end prev)))
    (g_used prev + parseCounts (person_counts b)).

Lemma add_booking_upsert m b :
  add_booking dateParse allowedIds m b
  = if skipped allowedIds b then m
    else JsMap.put (booking_key b)
           match JsMap.get (booking_key b) m with
           | Some v => booking_merge v b
           | None => booking_init b
           end m.
Proof.
  unfold add_booking, booking_key, booking_merge, booking_init. cbv zeta.
  destruct (skipped allowedIds b); [done|].
  by destruct (JsMap.get _ m).
Qed.

(** The records counted under a key, and the sum of their counts. *)
Definition group_members (k : group_key) (all : list booking) : list booking :=
  members booking_key (skipped allowedIds) k all.

Definition sum_counts (bs : list booking) : Z :=
  foldr (λ b acc, parseCounts (person_counts b) + acc) 0 bs.

Lemma sum_counts_permutation bs bs' : bs ≡ₚ bs' → sum_counts bs = sum_counts bs'.
Proof.
  unfold sum_counts.
  induction 1 as [|b l l' _ IH|a b l|l1 l2 l3 _ IH1 _ IH2]; cbn [foldr]; lia.
Qed.

Lemma parseCounts_pos pc : 1 <= parseCounts pc.
Proof. destruct pc; cbn; try lia. case (_ =? 0); lia. Qed.

Lemma absorb_used (ms : list booking) (o : option group) :
  g_used <$> fold_left (absorb booking_init booking_merge) ms o
  = match ms with
    | [] => g_used <$> o
    | _ => Some (default 0 (g_used <$> o) + sum_counts ms)
    end.
Proof.
  revert o. induction ms as [|b ms IH]; intros o; [done|].
  cbn [fold_left]. rewrite IH. unfold absorb at 2.
  destruct ms as [|b' ms]; destruct o as [g|]; cbn; f_equal; lia.
Qed.

Lemma absorb_key (k : group_key) (ms : list booking) (o : option group) :
  Forall (λ b, booking_key b = k) ms →
  (∀ g, o = Some g → (g_product_id g, g_start g) = k) →
  ∀ g, fold_left (absorb booking_init booking_merge) ms o = Some g →
       (g_product_id g, g_start g) = k.
Proof.
  revert o. induction ms as [|b ms IH]; intros o Hms Ho g; cbn [fold_left].
  - apply Ho.
  - apply Forall_cons in Hms as [Hb Hms]. apply IH; [done|].
    intros g' [= <-]. destruct o as [g0|]; cbn; [by apply Ho | done].
Qed.

(** In the grouping map of [handleAvailabilityRange], a key is present
    exactly when some admitted record has it, its group carries the key's
    product and start, and [used] is the sum of the participant counts of
    those records. *)
Lemma group_bookings_used (k : group_key) (all : list booking) :
  match JsMap.get k (group_bookings dateParse allowedIds all) with
  | Some g =>
      group_members k all ≠ []
      ∧ (g_product_id g, g_start g) = k
      ∧ g_used g = sum_counts (group_members k all)
  | None => group_members k all = []
  end.
Proof.
  unfold group_bookings, group_members.
  rewrite (get_fold_members booking_key (skipped allowedIds) booking_init
             booking_merge _ add_booking_upsert).
  set (ms := members booking_key (skipped allowedIds) k all).
  assert (Hkeys : Forall (λ b, booking_key b = k) ms).
  { apply Forall_forall. intros b Hb. unfold ms, members in Hb.
    by apply list_elem_of_filter in Hb as [[_ ?] _]. }
  pose proof (absorb_used ms None) as Hu.
  pose proof (absorb_key k ms None Hkeys ltac:(done)) as Hk.
  destruct (fold_left _ ms None) as [g|] eqn:Hf.
  - destruct ms as [|b ms]; [done|]. split; [done|]. split; [by apply Hk|].
    cbn [fmap option_fmap option_map default] in Hu. injection Hu as ->.
    unfold default, sum_counts. cbn [foldr]. lia.
  - by destruct ms.
Qed.

(** When every end is usable (it parses and is not 0), the group also
    carries the largest of the ends. *)
Definition max_ends (bs : list booking) : number :=
  foldr (λ b acc, max (slot_ms dateParse (end_ b)) acc) NInf bs.

Definition usable_ends (bs : list booking) : Prop :=
  Forall (λ b, truthy (slot_ms dateParse (end_ b)) = true) bs.

Lemma max_ends_permutation bs bs' : bs ≡ₚ bs' → max_ends bs = max_ends bs'.
Proof.
  unfold max_ends.
  induction 1 as [|b l l' _ IH|a b l|l1 l2 l3 _ IH1 _ IH2]; cbn [foldr].
  - done.
  - by rewrite IH.
  - by rewrite !max_assoc, (max_comm (slot_ms dateParse (end_ a))).
  - by rewrite IH1.
Qed.

Lemma absorb_bookings_Some (ms : list booking) (g : group) :
  usable_ends ms →
  fold_left (absorb booking_init booking_merge) ms (Some g)
  = Some (mkGroup (g_product_id g) (g_start g)
            (max (g_end g) (max_ends ms)) (g_used g + sum_counts ms)).
Proof.
  revert g. induction ms as [|b ms IH]; intros [pid st en us] Hu.
  - cbn. rewrite max_NInf_r. f_equal. f_equal. lia.
  - apply Forall_cons in Hu as [Hb Hu].
    change (fold_left (absorb booking_init booking_merge) (b :: ms)
              (Some (mkGroup pid st en us)))
      with (fold_left (absorb booking_init booking_merge) ms
              (Some (booking_merge (mkGroup pid st en us) b))).
    rewrite IH by done. unfold booking_merge.
    cbn [g_product_id g_start g_end g_used]. rewrite (or_truthy _ _ Hb).
    unfold max_ends, sum_counts. cbn [foldr].
    rewrite max_assoc. f_equal. f_equal. lia.
Qed.

Lemma group_bookings_entry (k : group_key) (all : list booking) :
  usable_ends all →
  JsMap.get k (group_bookings dateParse allowedIds all)
  = match group_members k all with
    | [] => None
    | b :: ms =>
        Some (mkGroup k.1 k.2 (max_ends (b :: ms)) (sum_counts (b :: ms)))
    end.
Proof.
  intros Hu. unfold group_bookings, group_members.
  rewrite (get_fold_members booking_key (skipped allowedIds) booking_init
             booking_merge _ add_booking_upsert).
  set (ms := members booking_key (skipped allowedIds) k all).
  assert (Hkeys : Forall (λ b, booking_key b = k) ms).
  { apply Forall_forall. intros b Hb. unfold ms, members in Hb.
    by apply list_elem_of_filter in Hb as [[_ ?] _]. }
  assert (Hums : usable_ends ms).
  { apply Forall_forall. intros b Hb. unfold ms, members in Hb.
    apply list_elem_of_filter in Hb as [_ Hb].
    by apply (proj1 (Forall_forall _ _) Hu). }
  destruct ms as [|b ms]; [done|].
  apply Forall_cons in Hums as [Hb Hums].
  change (fold_left (absorb booking_init booking_merge) (b :: ms) None)
    with (fold_left (absorb booking_init booking_merge) ms (Some (booking_init b))).
  rewrite absorb_bookings_Some by done.
  apply Forall_cons in Hkeys as [<- _].
  unfold booking_init, max_ends, sum_counts, booking_key.
  cbn [foldr g_product_id g_start g_end g_used fst snd].
  rewrite (or_truthy _ _ Hb). done.
Qed.

Lemma group_bookings_used_permutation (all all' : list booking) :
  all ≡ₚ all' →
  ∀ k, g_used <$> JsMap.get k (group_bookings dateParse allowedIds all)
       = g_used <$> JsMap.get k (group_bookings dateParse allowedIds all').
Proof.
  intros Hp k.
  pose proof (group_bookings_used k all) as H1.
  pose proof (group_bookings_used k all') as H2.
  pose proof (members_permutation booking_key (skipped allowedIds) k _ _ Hp) as Hm.
  fold (group_members k all) (group_members k all') in Hm.
  destruct (JsMap.get k (group_bookings dateParse allowedIds all)) as [g|],
           (JsMap.get k (group_bookings dateParse allowedIds all')) as [g'|];
    cbn [fmap option_fmap option_map].
  - destruct H1 as (_ & _ & ->), H2 as (_ & _ & ->).
    by rewrite (sum_counts_permutation _ _ Hm).
  - destruct H1 as (Hne & _). rewrite H2 in Hm.
    apply Permutation_nil_r in Hm. done.
  - destruct H2 as (Hne & _). rewrite H1 in Hm.
    symmetry in Hm. apply Permutation_nil_r in Hm. done.
  - done.
Qed.

Lemma group_bookings_permutation (all all' : list booking) :
  all ≡ₚ all' → usable_ends all →
  ∀ k, JsMap.get k (group_bookings dateParse allowedIds all)
       = JsMap.get k (group_bookings dateParse allowedIds all').
Proof.
  intros Hp Hu k.
  assert (Hu' : usable_ends all') by (unfold usable_ends; by rewrite <- Hp).
  rewrite !group_bookings_entry by done.
  pose proof (members_permutation booking_key (skipped allowedIds) k _ _ Hp) as Hm.
  fold (group_members k all) (group_members k all') in Hm.
  destruct (group_members k all) as [|b ms], (group_members k all') as [|b' ms'].
  - done.
  - by apply Permutation_nil_cons in Hm.
  - symmetry in Hm. by apply Permutation_nil_cons in Hm.
  - by rewrite (max_ends_permutation _ _ Hm), (sum_counts_permutation _ _ Hm).
Qed.

(** The response lists the groups in the order of the map. *)
Lemma emit_order (names : number → option string) (totals : number → option Z)
    (vs : list group) (out : list slot) :
  emit names totals vs = Ok out →
  (λ s, (s_product_id s, Fin (s_start s))) <$> out
  = (λ g, (g_product_id g, g_start g)) <$> vs.
Proof.
  revert out. induction vs as [|v vs IH]; intros out; cbn [emit].
  - by intros [= <-].
  - unfold toISOString.
    destruct (g_start v) as [| | |st] eqn:Hst; try done.
    destruct (Z.abs st <=? 8640000000000000); [|done].
    destruct (g_end v) as [| | |en]; try done.
    destruct (Z.abs en <=? 8640000000000000); [|done].
    destruct (emit names totals vs) as [out'|]; [|done].
    intros [= <-]. cbn [fmap list_fmap s_product_id s_start].
    rewrite <- Hst. f_equal. by apply IH.
Qed.

Lemma group_bookings_values_keys (all : list booking) :
  (λ g, (g_product_id g, g_start g))
    <$> JsMap.values (group_bookings dateParse allowedIds all)
  = (group_bookings dateParse allowedIds all).*1.
Proof.
  assert (Hnd : NoDup (group_bookings dateParse allowedIds all).*1).
  { apply (NoDup_keys_fold booking_key (skipped allowedIds) booking_init
             booking_merge _ add_booking_upsert). constructor. }
  assert (Hkey : ∀ k g, (k, g) ∈ group_bookings dateParse allowedIds all →
                        (g_product_id g, g_start g) = k).
  { intros k g Hin. apply (elem_get _ _ _ Hnd) in Hin.
    pose proof (group_bookings_used k all) as Hu. rewrite Hin in Hu.
    by destruct Hu as (_ & ? & _). }
  unfold JsMap.values. revert Hkey.
  generalize (group_bookings dateParse allowedIds all). intros m Hkey.
  induction m as [|[k g] m IH]; [done|]. cbn [map fmap list_fmap fst snd].
  rewrite (Hkey k g) by left. f_equal. apply IH. intros k' g' Hin.
  apply Hkey. by right.
Qed.

(** The order of the groups is the order in which their keys first occur
    among the admitted records. *)
Lemma group_bookings_order (all : list booking) :
  (group_bookings dateParse allowedIds all).*1
  = JsMap.first_seen
      (booking_key <$> filter (λ b, skipped allowedIds b = false) all).
Proof.
  unfold group_bookings.
  apply (keys_fold_first_seen booking_key (skipped allowedIds) booking_init
           booking_merge _ add_booking_upsert).
Qed.

End ServerAggregation.

(** ** Stable sorting with a comparator *)

Section SortFacts.

Import Js Client.

Context {A : Type} `{EqDecision A} (cmp : A → A → number).

(** [x] sorts after [y]: the comparator is positive on [(x, y)]. *)
Definition after (x y : A) : Prop := gtb (cmp x y) (Fin 0) = true.

Lemma insert_permutation x l : insert cmp x l ≡ₚ x :: l.
Proof.
  induction l as [|y l IH]; cbn [insert sort]; [done|].
  destruct (gtb (cmp x y) (Fin 0)); [|done].
  rewrite IH. apply Permutation_swap.
Qed.

Lemma sort_permutation l : sort cmp l ≡ₚ l.
Proof.
  induction l as [|x l IH]; cbn [insert sort]; [done|].
  by rewrite insert_permutation, IH.
Qed.

Lemma insert_HdRel (R : relation A) a x l :
  R a x → HdRel R a l → HdRel R a (insert cmp x l).
Proof.
  intros Hax Hal. destruct l as [|y l]; cbn [insert sort]; [by constructor|].
  destruct (gtb (cmp x y) (Fin 0)); constructor; [|done].
  by inversion Hal.
Qed.

(** Inserting into a list in order keeps it in order, provided that of two
    elements at most one sorts after the other. *)
Lemma insert_Sorted x l :
  (∀ y, y ∈ l → after x y → ¬ after y x) →
  Sorted (λ a b, ¬ after a b) l →
  Sorted (λ a b, ¬ after a b) (insert cmp x l).
Proof.
  intros Hasym Hs. induction Hs as [|y l Hs IH Hhd]; cbn [insert sort].
  - by repeat constructor.
  - destruct (gtb (cmp x y) (Fin 0)) eqn:Hxy.
    + constructor.
      * apply IH. intros z Hz. apply Hasym. by right.
      * apply insert_HdRel; [|done]. apply Hasym; [left|done].
    + constructor; [by constructor|]. constructor. unfold after. by rewrite Hxy.
Qed.

Lemma sort_Sorted l :
  (∀ x y, x ∈ l → y ∈ l → after x y → ¬ after y x) →
  Sorted (λ a b, ¬ after a b) (sort cmp l).
Proof.
  induction l as [|x l IH]; intros Hasym; cbn [insert sort]; [constructor|].
  apply insert_Sorted.
  - intros y Hy. apply Hasym; [left|]. right. by rewrite <- (sort_permutation l).
  - apply IH. intros a b Ha Hb. apply Hasym; by right.
Qed.

(** Two insertions commute when the elements involved are strictly and
    transitively ordered by the comparator. *)
Lemma insert_insert x y l :
  (x = y ∨ (after x y ∧ ¬ after y x) ∨ (after y x ∧ ¬ after x y)) →
  (∀ z, z ∈ l → z ≠ x → after y z → ¬ after x z → after y x) →
  (∀ z, z ∈ l → z ≠ y → after x z → ¬ after y z → after x y) →
  insert cmp x (insert cmp y l) = insert cmp y (insert cmp x l).
Proof.
  intros Hxy Hyx Hxz. induction l as [|z l IH]; cbn [insert sort].
  - destruct Hxy as [->|[[H1 H2]|[H1 H2]]]; [done| |]; unfold after in *.
    + rewrite H1. by destruct (gtb (cmp y x) (Fin 0)).
    + rewrite H1. by destruct (gtb (cmp x y) (Fin 0)).
  - assert (IH' : insert cmp x (insert cmp y l) = insert cmp y (insert cmp x l)).
    { apply IH; intros w Hw; [apply Hyx | apply Hxz]; by right. }
    destruct (gtb (cmp y z) (Fin 0)) eqn:Hyz, (gtb (cmp x z) (Fin 0)) eqn:Hxz';
      cbn [insert sort]; rewrite ?Hyz, ?Hxz'.
    + by rewrite IH'.
    + destruct (decide (z = x)) as [->|Hne].
      * by rewrite Hyz.
      * assert (Hy : after y x).
        { apply (Hyx z); [left|done|done|]. unfold after. by rewrite Hxz'. }
        unfold after in Hy. by rewrite Hy.
    + destruct (decide (z = y)) as [->|Hne].
      * by rewrite Hxz'.
      * assert (Hx : after x y).
        { apply (Hxz z); [left|done|done|]. unfold after. by rewrite Hyz. }
        unfold after in Hx. by rewrite Hx.
    + destruct Hxy as [->|[[H1 H2]|[H1 H2]]]; unfold after in *.
      * by destruct (gtb (cmp y y) (Fin 0)).
      * rewrite H1. by destruct (gtb (cmp y x) (Fin 0)).
      * rewrite H1. by destruct (gtb (cmp x y) (Fin 0)).
Qed.

(** On a list whose distinct elements are strictly and transitively
    ordered by the comparator, the result of sorting does not depend on
    the order of the input. *)
Lemma sort_permutation_eq l l' :
  l ≡ₚ l' →
  (∀ x y, x ∈ l → y ∈ l → x ≠ y → after x y ∨ after y x) →
  (∀ x y, x ∈ l → y ∈ l → after x y → ¬ after y x) →
  (∀ x y z, x ∈ l → y ∈ l → z ∈ l → after x y → after y z → after x z) →
  sort cmp l = sort cmp l'.
Proof.
  intros Hp. induction Hp as [|a l l' Hp IH|a b l|l1 l2 l3 Hp1 IH1 Hp2 IH2];
    intros Htot Hasym Htrans; cbn [insert sort].
  - done.
  - rewrite IH; [done| | |].
    + intros x y Hx Hy. apply Htot; by right.
    + intros x y Hx Hy. apply Hasym; by right.
    + intros x y z Hx Hy Hz. apply Htrans; by right.
  - assert (Hb : b ∈ b :: a :: l) by left.
    assert (Ha : a ∈ b :: a :: l) by (right; left).
    assert (Hl : ∀ z, z ∈ sort cmp l → z ∈ b :: a :: l).
    { intros z Hz. right. right. by rewrite <- (sort_permutation l). }
    apply insert_insert.
    + destruct (decide (b = a)) as [->|Hne]; [by left|right].
      destruct (Htot b a Hb Ha Hne) as [H|H]; [left|right]; split; auto.
    + intros z Hz Hne Haz Hbz.
      destruct (Htot z b (Hl z Hz) Hb Hne) as [H|H]; [|done].
      by apply (Htrans a z b Ha (Hl z Hz) Hb).
    + intros z Hz Hne Hbz Haz.
      destruct (Htot z a (Hl z Hz) Ha Hne) as [H|H]; [|done].
      by apply (Htrans b z a Hb (Hl z Hz) Ha).
  - rewrite IH1 by done. apply IH2.
    + intros x y Hx Hy. apply Htot; by rewrite Hp1.
    + intros x y Hx Hy. apply Hasym; by rewrite Hp1.
    + intros x y z Hx Hy Hz. apply Htrans; by rewrite Hp1.
Qed.

End SortFacts.

Section ClientAggregation.

Import Js Client JsMapFacts JsFacts.

Variable localOffset : Z → Z.
Variable localeCompare : string → string → Z.
Variable productNames : Z → option string.

Definition event_key (ev : calendar_event) : Z * number :=
  (e_productId ev, e_start ev).

(** The end that a single event contributes: its own, or its start. *)
Definition event_end (ev : calendar_event) : number :=
  or (default NaN (e_end ev)) (e_start ev).

Definition event_init (ev : calendar_event) : cgroup :=
  mkCGroup (e_productId ev) (e_start ev) (event_end ev)
    (zor (e_participants ev) 1).

Definition event_merge (prev : cgroup) (ev : calendar_event) : cgroup :=
  mkCGroup (cg_productId prev) (cg_start prev) (max (cg_end prev) (event_end ev))
    (cg_used prev + zor (e_participants ev) 1).

Lemma add_event_upsert m ev :
  add_event m ev
  = if false then m
    else JsMap.put (event_key ev)
           match JsMap.get (event_key ev) m with
           | Some v => event_merge v ev
           | None => event_init ev
           end m.
Proof.
  unfold add_event, event_key, event_merge, event_init, event_end. cbv zeta.
  by destruct (JsMap.get _ m).
Qed.

Definition sum_participants (evs : list calendar_event) : Z :=
  foldr (λ ev acc, zor (e_participants ev) 1 + acc) 0 evs.

Definition max_end (evs : list calendar_event) : number :=
  foldr (λ ev acc, max (event_end ev) acc) NInf evs.

Lemma sum_participants_permutation evs evs' :
  evs ≡ₚ evs' → sum_participants evs = sum_participants evs'.
Proof.
  unfold sum_participants.
  induction 1 as [|b l l' _ IH|a b l|l1 l2 l3 _ IH1 _ IH2]; cbn [foldr]; lia.
Qed.

Lemma max_end_permutation evs evs' : evs ≡ₚ evs' → max_end evs = max_end evs'.
Proof.
  unfold max_end.
  induction 1 as [|b l l' _ IH|a b l|l1 l2 l3 _ IH1 _ IH2]; cbn [foldr].
  - done.
  - by rewrite IH.
  - by rewrite !max_assoc, (max_comm (event_end a)).
  - by rewrite IH1.
Qed.

Lemma absorb_events_Some (ms : list calendar_event) (g : cgroup) :
  fold_left (absorb event_init event_merge) ms (Some g)
  = Some (mkCGroup (cg_productId g) (cg_start g)
            (max (cg_end g) (max_end ms)) (cg_used g + sum_participants ms)).
Proof.
  revert g. induction ms as [|ev ms IH]; intros [pid st en us].
  - cbn. rewrite max_NInf_r. f_equal. f_equal. lia.
  - change (fold_left (absorb event_init event_merge) (ev :: ms)
              (Some (mkCGroup pid st en us)))
      with (fold_left (absorb event_init event_merge) ms
              (Some (event_merge (mkCGroup pid st en us) ev))).
    rewrite IH. cbn [event_merge cg_productId cg_start cg_end cg_used].
    unfold max_end, sum_participants. cbn [foldr].
    rewrite max_assoc. f_equal. f_equal. lia.
Qed.

(** The group of a key is made of the key, the largest of the ends and the
    sum of the participant counts of the events with that key. *)
Lemma group_events_entry (k : Z * number) (evs : list calendar_event) :
  JsMap.get k (group_events evs)
  = match members event_key (λ _, false) k evs with
    | [] => None
    | ms => Some (mkCGroup k.1 k.2 (max_end ms) (sum_participants ms))
    end.
Proof.
  unfold group_events.
  rewrite (get_fold_members event_key (λ _, false) event_init event_merge _
             add_event_upsert).
  set (ms := members event_key (λ _, false) k evs).
  assert (Hkeys : Forall (λ ev, event_key ev = k) ms).
  { apply Forall_forall. intros b Hb. unfold ms, members in Hb.
    by apply list_elem_of_filter in Hb as [[_ ?] _]. }
  destruct ms as [|ev ms]; [done|].
  change (fold_left (absorb event_init event_merge) (ev :: ms) None)
    with (fold_left (absorb event_init event_merge) ms (Some (event_init ev))).
  rewrite absorb_events_Some.
  apply Forall_cons in Hkeys as [<- _].
  unfold event_init, max_end, sum_participants, event_key.
  cbn [foldr cg_productId cg_start cg_end cg_used fst snd].
  f_equal.
Qed.

Lemma group_events_permutation (evs evs' : list calendar_event) :
  evs ≡ₚ evs' →
  ∀ k, JsMap.get k (group_events evs) = JsMap.get k (group_events evs').
Proof.
  intros Hp k. rewrite !group_events_entry.
  pose proof (members_permutation event_key (λ _, false) k _ _ Hp) as Hm.
  destruct (members event_key (λ _, false) k evs) as [|ev ms] eqn:H1,
           (members event_key (λ _, false) k evs') as [|ev' ms'] eqn:H2.
  - done.
  - by apply Permutation_nil_cons in Hm.
  - symmetry in Hm. by apply Permutation_nil_cons in Hm.
  - cbv beta iota zeta.
    by rewrite (max_end_permutation _ _ Hm), (sum_participants_permutation _ _ Hm).
Qed.

(** The by-date index: each day holds, sorted, the slots of that day. *)
Definition slot_day (x : avail_slot) : day_key :=
  local_day localOffset (slot_start x).

Lemma push_slot_upsert (m : list (day_key * list avail_slot)) (x : avail_slot) :
  push_slot (slot_day x) x m
  = if false then m
    else JsMap.put (slot_day x)
           match JsMap.get (slot_day x) m with
           | Some l => l ++ [x]
           | None => [x]
           end m.
Proof.
  generalize (slot_day x). intros k.
  induction m as [|[k' l] m IH]; cbn; [done|].
  destruct (decide (k' = k)) as [->|Hne]; [done|]. by rewrite IH.
Qed.

Lemma absorb_slots (ms : list avail_slot) (o : option (list avail_slot)) :
  fold_left (absorb (λ x, [x]) (λ l x, l ++ [x])) ms o
  = match ms with
    | [] => o
    | _ => Some (default [] o ++ ms)
    end.
Proof.
  revert o. induction ms as [|x ms IH]; intros o; [done|].
  cbn [fold_left]. rewrite IH. unfold absorb.
  destruct ms as [|y ms], o as [l|]; cbn [default id]; rewrite <- ?app_assoc; done.
Qed.

Definition day_members (k : day_key) (slots : list avail_slot) : list avail_slot :=
  members slot_day (λ _, false) k slots.

Lemma index_by_date_entry (k : day_key) (slots : list avail_slot) :
  JsMap.get k (index_by_date localOffset localeCompare slots)
  = match day_members k slots with
    | [] => None
    | x :: ms => Some (sort (compare_slots localeCompare) (x :: ms))
    end.
Proof.
  unfold index_by_date. rewrite get_map_values.
  rewrite (get_fold_members slot_day (λ _, false) (λ x, [x]) (λ l x, l ++ [x])
             (λ m x, push_slot (slot_day x) x m) push_slot_upsert).
  rewrite absorb_slots. unfold day_members.
  by destruct (members slot_day (λ _, false) k slots).
Qed.

(** The slots of the fallback, before they are indexed by date. *)
Definition fallback_slots (evs : list calendar_event) : list avail_slot :=
  map (slot_of_group productNames) (JsMap.values (group_events evs)).

Lemma fallback_slots_permutation (evs evs' : list calendar_event) :
  evs ≡ₚ evs' → fallback_slots evs ≡ₚ fallback_slots evs'.
Proof.
  intros Hp. unfold fallback_slots, JsMap.values.
  apply fmap_Permutation, fmap_Permutation.
  apply same_gets_permutation.
  - apply (NoDup_keys_fold event_key (λ _, false) event_init event_merge _
             add_event_upsert). constructor.
  - apply (NoDup_keys_fold event_key (λ _, false) event_init event_merge _
             add_event_upsert). constructor.
  - by apply group_events_permutation.
Qed.

(** The start of a slot is the time value of a date: valid or [NaN]. *)
Definition clipped (x : avail_slot) : Prop :=
  time_clip (slot_start x) = slot_start x.

Lemma time_clip_idemp (a : number) : time_clip (time_clip a) = time_clip a.
Proof.
  destruct a as [| | |z]; try done. cbn.
  destruct (Z.abs z <=? 8640000000000000) eqn:Hz; cbn; by rewrite ?Hz.
Qed.

Lemma fallback_slots_clipped (evs : list calendar_event) :
  Forall clipped (fallback_slots evs).
Proof.
  unfold fallback_slots. apply Forall_fmap, Forall_true. intros g.
  unfold clipped, slot_of_group. cbn [slot_start]. apply time_clip_idemp.
Qed.

Lemma clipped_cases (x : avail_slot) :
  clipped x →
  (slot_start x = NaN ∧ slot_day x = None)
  ∨ (∃ z, slot_start x = Fin z ∧ ∃ d, slot_day x = Some d).
Proof.
  unfold clipped, slot_day, local_day. destruct (slot_start x) as [| | |z]; try done.
  - by left.
  - cbn. destruct (Z.abs z <=? 8640000000000000); [|done]. right. eauto.
Qed.

Local Abbreviation sorts_after := (after (compare_slots localeCompare)).

Lemma sorts_after_Fin (x y : avail_slot) (a b : Z) :
  slot_start x = Fin a → slot_start y = Fin b →
  sorts_after x y
  ↔ b < a ∨ (a = b ∧ 0 < localeCompare (productName x) (productName y)).
Proof.
  intros Hx Hy. unfold after, compare_slots. rewrite Hx, Hy.
  cbn [sub]. unfold or, truthy.
  destruct (Z.eq_dec (a - b) 0) as [Heq|Hne].
  - rewrite Heq. cbn [gtb ltb]. rewrite Z.ltb_lt. lia.
  - destruct (a - b) as [|d|d] eqn:Hd; [done| |]; cbn [gtb ltb];
      rewrite Z.ltb_lt; lia.
Qed.

Lemma sorts_after_NaN (x y : avail_slot) :
  slot_start x = NaN ∨ slot_start y = NaN →
  sorts_after x y ↔ 0 < localeCompare (productName x) (productName y).
Proof.
  intros Hn. unfold after, compare_slots.
  assert (sub (slot_start x) (slot_start y) = NaN) as ->.
  { destruct Hn as [-> | ->]; [done|]. by destruct (slot_start x). }
  cbn [or truthy gtb ltb]. by rewrite Z.ltb_lt.
Qed.

Section Collation.

(** What is assumed of the collation: the sign of [a.localeCompare(b)] is
    that of a total preorder on strings. *)
Hypothesis lc_asym : ∀ a b, 0 < localeCompare a b → ¬ 0 < localeCompare b a.
Hypothesis lc_sym : ∀ a b, localeCompare a b < 0 → 0 < localeCompare b a.
Hypothesis lc_trans :
  ∀ a b c, 0 < localeCompare a b → 0 < localeCompare b c → 0 < localeCompare a c.

Lemma sorts_after_asym (x y : avail_slot) :
  clipped x → clipped y → sorts_after x y → ¬ sorts_after y x.
Proof.
  intros Hx Hy.
  destruct (clipped_cases x Hx) as [[Hsx _]|(a & Hsx & _)],
           (clipped_cases y Hy) as [[Hsy _]|(b & Hsy & _)].
  - rewrite !sorts_after_NaN by auto. apply lc_asym.
  - rewrite !sorts_after_NaN by auto. apply lc_asym.
  - rewrite !sorts_after_NaN by auto. apply lc_asym.
  - rewrite (sorts_after_Fin x y a b), (sorts_after_Fin y x b a) by done.
    intros [?|[E1 H1]] [?|[E2 H2]]; try lia. by apply (lc_asym _ _ H1).
Qed.

Lemma not_after_ascending (x y : avail_slot) :
  clipped x → clipped y → ¬ sorts_after x y → ascending localeCompare x y.
Proof.
  intros Hx Hy. unfold ascending.
  destruct (clipped_cases x Hx) as [[Hsx _]|(a & Hsx & _)],
           (clipped_cases y Hy) as [[Hsy _]|(b & Hsy & _)].
  - rewrite sorts_after_NaN by auto. rewrite Hsx. lia.
  - rewrite sorts_after_NaN by auto. rewrite Hsx. lia.
  - rewrite sorts_after_NaN by auto. rewrite Hsx, Hsy. lia.
  - rewrite (sorts_after_Fin x y a b) by done. rewrite Hsx, Hsy. lia.
Qed.

Lemma sorts_after_trans (x y z : avail_slot) :
  clipped x → clipped y → clipped z →
  slot_day x = slot_day y → slot_day y = slot_day z →
  sorts_after x y → sorts_after y z → sorts_after x z.
Proof.
  intros Hx Hy Hz Hxy Hyz.
  destruct (clipped_cases x Hx) as [[Hsx Hdx]|(a & Hsx & dx & Hdx)],
           (clipped_cases y Hy) as [[Hsy Hdy]|(b & Hsy & dy & Hdy)],
           (clipped_cases z Hz) as [[Hsz Hdz]|(c & Hsz & dz & Hdz)];
    try congruence.
  - rewrite !sorts_after_NaN by auto. apply lc_trans.
  - rewrite (sorts_after_Fin x y a b), (sorts_after_Fin y z b c),
      (sorts_after_Fin x z a c) by done.
    intros [?|[E1 H1]] [?|[E2 H2]]; try (left; lia).
    right. split; [lia|]. by apply (lc_trans _ _ _ H1).
Qed.

Lemma sorts_after_total (x y : avail_slot) :
  clipped x → clipped y → slot_day x = slot_day y →
  (slot_start x = slot_start y →
   localeCompare (productName x) (productName y) ≠ 0) →
  sorts_after x y ∨ sorts_after y x.
Proof.
  intros Hx Hy Hxy Htie.
  destruct (clipped_cases x Hx) as [[Hsx Hdx]|(a & Hsx & dx & Hdx)],
           (clipped_cases y Hy) as [[Hsy Hdy]|(b & Hsy & dy & Hdy)];
    try congruence.
  - rewrite !sorts_after_NaN by auto.
    assert (Hne := Htie ltac:(congruence)).
    destruct (Z.lt_trichotomy (localeCompare (productName x) (productName y)) 0)
      as [Hlt|[Heq|Hgt]]; [right; by apply lc_sym | done | by left].
  - rewrite (sorts_after_Fin x y a b), (sorts_after_Fin y x b a) by done.
    destruct (Z.lt_trichotomy a b) as [Hlt|[Heq|Hgt]]; [right; by left| |left; by left].
    subst b. assert (Hne := Htie ltac:(congruence)).
    destruct (Z.lt_trichotomy (localeCompare (productName x) (productName y)) 0)
      as [Hlt|[Heq|Hgt]]; [right; right; split; [done|by apply lc_sym] | done |].
    left. right. by split.
Qed.

Lemma Sorted_transfer {A : Type} (R R' : relation A) (P : A → Prop) (l : list A) :
  (∀ a b, P a → P b → R a b → R' a b) → Forall P l → Sorted R l → Sorted R' l.
Proof.
  intros Himp HP Hs. induction Hs as [|a l Hs IH Hhd]; [constructor|].
  apply Forall_cons in HP as [Ha HP]. constructor; [by apply IH|].
  destruct Hhd as [|b l Hab]; constructor.
  apply Forall_cons in HP as [Hb _]. by apply Himp.
Qed.

Lemma day_members_elem (k : day_key) (slots : list avail_slot) (x : avail_slot) :
  x ∈ day_members k slots → x ∈ slots ∧ slot_day x = k.
Proof.
  unfold day_members, members. intros [[_ Hk] Hin]%list_elem_of_filter. done.
Qed.

(** Every day of the fallback index lists its slots in ascending order. *)
Lemma fallback_sorted (evs : list calendar_event) (k : day_key)
    (bucket : list avail_slot) :
  JsMap.get k (buildFallbackFromBookings localOffset localeCompare productNames evs)
  = Some bucket →
  Sorted (ascending localeCompare) bucket.
Proof.
  unfold buildFallbackFromBookings. fold (fallback_slots evs).
  rewrite index_by_date_entry.
  destruct (day_members k (fallback_slots evs)) as [|x ms] eqn:Hm; [done|].
  intros Heq.
  assert (bucket = sort (compare_slots localeCompare) (x :: ms)) as ->
    by congruence.
  clear Heq.
  assert (Hcl : Forall clipped (x :: ms)).
  { apply Forall_forall. intros y Hy. rewrite <- Hm in Hy.
    apply day_members_elem in Hy as [Hy _].
    by apply (proj1 (Forall_forall _ _) (fallback_slots_clipped evs)). }
  apply (Sorted_transfer (λ a b, ¬ sorts_after a b) _ clipped).
  - intros a b. apply not_after_ascending.
  - by rewrite sort_permutation.
  - apply sort_Sorted. intros a b Ha Hb.
    apply sorts_after_asym; by apply (proj1 (Forall_forall _ _) Hcl).
Qed.

(** Without ties, the index does not depend on the order of the events. *)
Lemma fallback_independent (evs evs' : list calendar_event) :
  evs ≡ₚ evs' →
  no_ties localOffset localeCompare (fallback_slots evs) →
  ∀ k, JsMap.get k (buildFallbackFromBookings localOffset localeCompare
                      productNames evs)
       = JsMap.get k (buildFallbackFromBookings localOffset localeCompare
                        productNames evs').
Proof.
  intros Hp Hties k. unfold buildFallbackFromBookings.
  fold (fallback_slots evs) (fallback_slots evs').
  rewrite !index_by_date_entry.
  pose proof (members_permutation slot_day (λ _, false) k _ _
                (fallback_slots_permutation evs evs' Hp)) as Hm.
  fold (day_members k (fallback_slots evs)) in Hm.
  fold (day_members k (fallback_slots evs')) in Hm.
  destruct (day_members k (fallback_slots evs)) as [|x ms] eqn:H1,
           (day_members k (fallback_slots evs')) as [|x' ms'] eqn:H2.
  - done.
  - by apply Permutation_nil_cons in Hm.
  - symmetry in Hm. by apply Permutation_nil_cons in Hm.
  - f_equal.
    assert (Hel : ∀ y, y ∈ x :: ms →
                       y ∈ fallback_slots evs ∧ slot_day y = k ∧ clipped y).
    { intros y Hy. rewrite <- H1 in Hy. apply day_members_elem in Hy as [Hy Hk].
      split; [done|]. split; [done|].
      by apply (proj1 (Forall_forall _ _) (fallback_slots_clipped evs)). }
    apply sort_permutation_eq; [done| | |].
    + intros a b Ha Hb Hne.
      destruct (Hel a Ha) as (Hia & Hka & Hca), (Hel b Hb) as (Hib & Hkb & Hcb).
      apply sorts_after_total; [done|done|congruence|].
      intros Hst. apply Hties; try done. unfold slot_day in *. congruence.
    + intros a b Ha Hb.
      destruct (Hel a Ha) as (_ & _ & Hca), (Hel b Hb) as (_ & _ & Hcb).
      by apply sorts_after_asym.
    + intros a b c Ha Hb Hc.
      destruct (Hel a Ha) as (_ & Hka & Hca), (Hel b Hb) as (_ & Hkb & Hcb),
               (Hel c Hc) as (_ & Hkc & Hcc).
      apply sorts_after_trans; try done; congruence.
Qed.

End Collation.

End ClientAggregation.

(** ** Order independence of the aggregation *)

Section OrderIndependence.

Import Js Server Client.

Variable dateParse : string → option Z.
Variable allowedIds : list Z.
Variable localOffset : Z → Z.
Variable localeCompare : string → string → Z.
Variable productNames : Z → option string.

Local Abbreviation grouped := (group_bookings dateParse allowedIds).
Local Abbreviation fallback :=
  (buildFallbackFromBookings localOffset localeCompare productNames).

(** C4, as the code has it.  Let [all'] be a permutation of the records
    [all] given to [handleAvailabilityRange] and [evs'] a permutation of the
    events [evs] given to [buildFallbackFromBookings], and let the sign of
    [localeCompare] be that of a total preorder.  Then
    - in the server's grouping every (product, start) group has the same
      [used], the sum of the participant counts of its records, for both
      orders; when every record has a usable end, the whole group is the
      same and its [end] is the largest end of its records;
    - the server lists the groups in the order in which their keys first
      occur in the input: it does not sort;
    - in the client's fallback every group is the same for both orders,
      with [end] the largest end and [used] the sum of the counts;
    - every day of the fallback index is in ascending order of start time
      and then product name; and when no two different slots of a day tie
      on both, the index is the same for both orders. *)
Theorem aggregation_order_independence
    (all all' : list booking) (evs evs' : list calendar_event) :
  all ≡ₚ all' → evs ≡ₚ evs' →
  (∀ a b, 0 < localeCompare a b → ¬ 0 < localeCompare b a) →
  (∀ a b, localeCompare a b < 0 → 0 < localeCompare b a) →
  (∀ a b c, 0 < localeCompare a b → 0 < localeCompare b c →
            0 < localeCompare a c) →
  (∀ k, g_used <$> JsMap.get k (grouped all)
        = g_used <$> JsMap.get k (grouped all')
        ∧ ∀ g, JsMap.get k (grouped all) = Some g →
               g_used g
               = sum_counts (group_members dateParse allowedIds k all))
  ∧ (usable_ends dateParse all →
     ∀ k, JsMap.get k (grouped all) = JsMap.get k (grouped all')
          ∧ ∀ g, JsMap.get k (grouped all) = Some g →
                 g_end g
                 = max_ends dateParse (group_members dateParse allowedIds k all))
  ∧ (∀ names totals out,
       emit names totals (JsMap.values (grouped all)) = Ok out →
       (λ s, (s_product_id s, Fin (s_start s))) <$> out
       = JsMap.first_seen
           (booking_key dateParse
              <$> filter (λ b, skipped allowedIds b = false) all))
  ∧ (∀ k, JsMap.get k (group_events evs) = JsMap.get k (group_events evs')
          ∧ ∀ g, JsMap.get k (group_events evs) = Some g →
                 cg_end g = max_end (JsMapFacts.members event_key (λ _, false) k evs)
                 ∧ cg_used g
                   = sum_participants
                       (JsMapFacts.members event_key (λ _, false) k evs))
  ∧ (∀ k bucket, JsMap.get k (fallback evs) = Some bucket →
                 Sorted (ascending localeCompare) bucket)
  ∧ (no_ties localOffset localeCompare (fallback_slots productNames evs) →
     ∀ k, JsMap.get k (fallback evs) = JsMap.get k (fallback evs')).
Proof.
  intros Hall Hevs Hasym Hsym Htrans.
  split; [|split; [|split; [|split; [|split]]]].
  - intros k. split; [by apply group_bookings_used_permutation|].
    intros g Hg. pose proof (group_bookings_used dateParse allowedIds k all) as Hu.
    rewrite Hg in Hu. by destruct Hu as (_ & _ & ?).
  - intros Hu k. split; [by apply group_bookings_permutation|].
    intros g Hg. rewrite (group_bookings_entry _ _ _ _ Hu) in Hg.
    destruct (group_members dateParse allowedIds k all); [done|].
    by injection Hg as <-.
  - intros names totals out Hout. rewrite (emit_order _ _ _ _ Hout).
    rewrite group_bookings_values_keys. apply group_bookings_order.
  - intros k. split; [by apply group_events_permutation|].
    intros g Hg. rewrite group_events_entry in Hg.
    destruct (JsMapFacts.members event_key (λ _, false) k evs); [done|].
    by injection Hg as <-.
  - intros k bucket. by apply fallback_sorted.
  - intros Hties k. by apply fallback_independent.
Qed.

End OrderIndependence.

Lemma aggregation_order_independence_witness :
  (∀ k, Server.g_used
          <$> JsMap.get k (Server.group_bookings sample_dateParse []
                             [late_booking; early_booking])
        = Server.g_used
            <$> JsMap.get k (Server.group_bookings sample_dateParse []
                               [early_booking; late_booking]))
  ∧ (∀ k bucket,
       JsMap.get k (Client.buildFallbackFromBookings (λ _, 0) by_length
                      (λ _, None) sample_events) = Some bucket →
       Sorted (Client.ascending by_length) bucket).
Proof.
  destruct (aggregation_order_independence sample_dateParse [] (λ _, 0)
              by_length (λ _, None)
              [late_booking; early_booking] [early_booking; late_booking]
              sample_events (rev sample_events))
    as (H1 & _ & _ & _ & H5 & _).
  - apply perm_swap.
  - apply Permutation_rev.
  - unfold by_length. intros a b. lia.
  - unfold by_length. intros a b. lia.
  - unfold by_length. intros a b c. lia.
  - split; [intros k; apply H1 | exact H5].
Defined.

(** C4 as stated fails for [handleAvailabilityRange]: the same two records
    in the two possible orders give the two slots in two different orders,
    the first of which is not ascending by start. *)
Lemma availability_range_order_follows_input :
  let answer bs :=
    Server.data
      (Server.body
         (Server.handleAvailabilityRange sample_dateParse sample_env [] None 0
            (page_of bs) (λ _, None) (λ _, None)).1) in
  [late_booking; early_booking] ≡ₚ [early_booking; late_booking]
  ∧ answer [late_booking; early_booking]
    = Some [Server.mkSlot (Js.Fin 10) "Product #10" 1710010000000 1710013600000 2 None;
            Server.mkSlot (Js.Fin 11) "Product #11" 1710000000000 1710003600000 3 None]
  ∧ answer [early_booking; late_booking]
    = Some [Server.mkSlot (Js.Fin 11) "Product #11" 1710000000000 1710003600000 3 None;
            Server.mkSlot (Js.Fin 10) "Product #10" 1710010000000 1710013600000 2 None].
Proof.
  split; [apply perm_swap|]. split; vm_compute; reflexivity.
Qed.

(** ** Records whose start cannot be read *)

Section UnreadableStart.

Import Js Server.

Variable tzdb : string → option (Z → Z).
Variable dateParse : string → option Z.

Definition unreadable (s : string) : Prop :=
  dateParse s = None
  ∧ match_wc_format (list_ascii_of_string s) = None
  ∧ ∀ tz, Time.toUtcMs tzdb dateParse (Time.IStr s) tz = None.

(** C5, as the code has it by design.  For a record whose start no parser
    reads, [parseBookingDateToMs] gives the current time, so the range
    filter of the listing decides on the time of its look at the record;
    the listing gives the record's event the start 0; and a request that
    is not answered from the cache, made while that time is within the
    requested range, lists the record. *)
Theorem unreadable_start_falls_back (e : env) (q : query) (w : world)
    (cache : gmap string (Z * list event)) (b : booking) (s : string) (i : nat) :
  start b = Time.IStr s → unreadable s →
  (∀ now, parseBookingDateToMs dateParse now (start b) = now)
  ∧ (∀ now, in_range dateParse (start_date q) (end_date q) now b
            = leb (minMs dateParse (start_date q)) (Fin now)
              && leb (Fin now) (maxMs dateParse (end_date q)))
  ∧ ev_start (convert tzdb dateParse w b) = 0
  ∧ (is_Some (getWooConfig e) → cache !! cacheKey q = None →
     fetched w !! i = Some b →
     leb (minMs dateParse (start_date q)) (Fin (clock w i))
     && leb (Fin (clock w i)) (maxMs dateParse (end_date q)) = true →
     ∃ evs, data (body (Server.getBookings tzdb dateParse e q w cache).1) = Some evs
            ∧ convert tzdb dateParse w b ∈ evs).
Proof.
  intros Hstart (Hdp & Hwc & Hto).
  assert (Hnow : ∀ now, parseBookingDateToMs dateParse now (start b) = now).
  { intros now. rewrite Hstart. unfold parseBookingDateToMs. rewrite Hwc, Hdp.
    by destruct (_ && _). }
  assert (Hin : ∀ now, in_range dateParse (start_date q) (end_date q) now b
                       = leb (minMs dateParse (start_date q)) (Fin now)
                         && leb (Fin now) (maxMs dateParse (end_date q))).
  { intros now. unfold in_range. by rewrite Hnow. }
  split; [exact Hnow|]. split; [exact Hin|]. split.
  { unfold convert. cbn [ev_start]. rewrite Hstart. cbn [coalesce].
    by rewrite Hto. }
  intros [cfg Hcfg] Hmiss Hb Hclock. unfold Server.getBookings.
  rewrite Hcfg, Hmiss.
  assert (Hkept : b ∈ defensive_filter dateParse (start_date q) (end_date q)
                        (clock w) (fetchBookingPages (upstream w)).2).
  { unfold defensive_filter. destruct (_ || _).
    - apply (range_filter_keeps dateParse _ _ _ 0 i); [exact Hb|].
      by rewrite Hin.
    - by eapply list_elem_of_lookup_2. }
  destruct (defensive_filter _ _ _ _ _) as [|b0 bs] eqn:HF;
    [by apply elem_of_nil in Hkept|].
  cbn [fst body data]. eexists. split; [reflexivity|].
  apply list_elem_of_fmap. by exists b.
Qed.

End UnreadableStart.

Lemma unreadable_start_falls_back_witness :
  Server.parseBookingDateToMs sample_dateParse 1710000000000
    (Server.start unreadable_booking) = 1710000000000
  ∧ Server.ev_start
      (Server.convert sample_tzdb sample_dateParse march_world unreadable_booking)
    = 0
  ∧ ∃ evs,
      Server.data
        (Server.body
           (Server.getBookings sample_tzdb sample_dateParse sample_env
              sample_query march_world ∅).1) = Some evs
      ∧ Server.convert sample_tzdb sample_dateParse march_world unreadable_booking
        ∈ evs.
Proof.
  destruct (unreadable_start_falls_back sample_tzdb sample_dateParse sample_env
              sample_query march_world ∅ unreadable_booking "soon" 1%nat)
    as (Hnow & _ & Hzero & Hlisted).
  - reflexivity.
  - split; [reflexivity|]. split; [reflexivity|]. intros tz. reflexivity.
  - split; [apply Hnow|]. split; [exact Hzero|].
    apply Hlisted; [by eexists|reflexivity|reflexivity|reflexivity].
Defined.

(** C5 as stated fails in the listing: the parser of the range filter
    gives the current time for the start [soon], so that a request for
    March 2024 lists the record, with the start 0, when it is made in
    March, and leaves it out when it is made in April. *)
Lemma unreadable_start_listed_by_clock :
  let listed w :=
    Server.data
      (Server.body
         (Server.getBookings sample_tzdb sample_dateParse sample_env
            sample_query w ∅).1) in
  Server.parseBookingDateToMs sample_dateParse 1710000000000
    (Time.IStr "soon") = 1710000000000
  ∧ listed march_world
    = Some [Server.mkEvent 2 "Booking #2" 1710000000000 1710003600000 3 (Js.Fin 11);
            Server.mkEvent 5 "Booking #5" 0 0 3 (Js.Fin 10)]
  ∧ listed april_world
    = Some [Server.mkEvent 2 "Booking #2" 1710000000000 1710003600000 3 (Js.Fin 11)].
Proof. split; [reflexivity|]. split; vm_compute; reflexivity. Qed.

(** In the availability range nothing guards the start: the answer to an
    upstream with such a record is the error 500. *)
Example availability_range_unreadable_start_answers_500 :
  Server.status
    (Server.handleAvailabilityRange sample_dateParse sample_env [] None 0
       (page_of [early_booking; unreadable_booking]) (λ _, None) (λ _, None)).1
  = 500.
Proof. vm_compute. reflexivity. Qed.

(** ** The instructor filters *)

Section AssignmentTiers.

Import Js Client.

Variable localOffset : Z → Z.

(** In [loadMonth] the identifier tier decides first: an event whose
    booking identifier is that of an assigned booking is kept, whatever the
    later tiers would say. *)
Lemma loadMonth_identifier_first (assigned : list calendar_event)
    (e a : calendar_event) :
  a ∈ assigned → e_bookingId e ≠ 0 →
  zor (e_bookingId a) (e_own_bookingId a) = e_bookingId e →
  loadMonth_keep localOffset assigned e = true.
Proof.
  intros Hin Hne Heq. unfold loadMonth_keep.
  assert (existsb (tier_id e) assigned = true) as ->; [|done].
  apply existsb_exists. exists a. split; [by apply list_elem_of_In|].
  unfold tier_id. rewrite Heq.
  destruct (Z.eqb_spec (e_bookingId e) 0); [done|]. cbn.
  apply Z.eqb_refl.
Qed.

(** C6.  [refreshBookings] has no identifier tier: the event whose
    identifier is assigned is kept by the filter of [loadMonth] and dropped
    by the filter of [refreshBookings], whose three tiers all fail on it. *)
Theorem refresh_filter_has_no_identifier_tier :
  loadMonth_filter localOffset true [own_event] [assigned_ref] = [own_event]
  ∧ refresh_filter localOffset true [own_event] [assigned_ref] = []
  ∧ tier_id own_event assigned_ref = true.
Proof. repeat split. Qed.

End AssignmentTiers.

(** ** De-duplication of concurrent availability queries *)

Section InFlight.

Import Client.

Lemma run_cons (a : action) (acts : list action) (s : service) :
  run (a :: acts) s
  = ((exec a s).1 :: (run acts (exec a s).2).1, (run acts (exec a s).2).2).
Proof.
  change (run (a :: acts) s)
    with (let '(r, s') := exec a s in
          let '(rs, s'') := run acts s' in (r :: rs, s'')).
  destruct (exec a s) as [r s1]. cbn [fst snd].
  by destruct (run acts s1) as [rs s2].
Qed.

(** A step that is neither a call nor the end of the loader for [k] leaves
    the cache entry, the in-flight entry and the loader count of [k] alone. *)
Lemma exec_other (k : string) (a : action) (s : service) :
  a ≠ Call k → (∀ r, a ≠ Settle k r) →
  availabilityCache (exec a s).2 !! k = availabilityCache s !! k
  ∧ availabilityInflight (exec a s).2 !! k = availabilityInflight s !! k
  ∧ loads_of k (exec a s).2 = loads_of k s.
Proof.
  intros Hcall Hsettle. destruct a as [k'|k' r]; cbn [exec].
  - assert (Hne : k' ≠ k) by congruence. unfold getAvailabilityBlocks.
    destruct (availabilityCache s !! k'); [done|].
    destruct (availabilityInflight s !! k'); [done|].
    cbn [snd availabilityCache availabilityInflight]. split; [done|].
    split; [by rewrite lookup_insert_ne|].
    unfold loads_of. cbn [loads]. rewrite filter_app, length_app.
    rewrite filter_cons_False, filter_nil by done. cbn. lia.
  - assert (Hne : k' ≠ k) by (intros ->; by apply (Hsettle r)).
    destruct (availabilityInflight s !! k'); [|done].
    cbn [snd settle availabilityCache availabilityInflight].
    split; [|split; [by rewrite lookup_delete_ne|done]].
    destruct r; [by rewrite lookup_insert_ne|done].
Qed.

(** While the promise [p] of [k] is in flight, every call for [k] is
    answered with [p] and starts nothing. *)
Lemma run_in_flight (k : string) (p : nat) (acts : list action) (s : service) :
  availabilityCache s !! k = None →
  availabilityInflight s !! k = Some p →
  (∀ r, Settle k r ∉ acts) →
  availabilityCache (run acts s).2 !! k = None
  ∧ availabilityInflight (run acts s).2 !! k = Some p
  ∧ loads_of k (run acts s).2 = loads_of k s
  ∧ ∀ i, acts !! i = Some (Call k) →
         (run acts s).1 !! i = Some (Some (Promise p)).
Proof.
  revert s. induction acts as [|a acts IH]; intros s Hc Hi Hs.
  - cbn. repeat split; done.
  - rewrite run_cons. cbn [fst snd].
    assert (Hs' : ∀ r, Settle k r ∉ acts).
    { intros r Hr. apply (Hs r). by right. }
    destruct (decide (a = Call k)) as [->|Hne].
    + assert (Hex : exec (Call k) s = (Some (Promise p), s)).
      { cbn [exec]. unfold getAvailabilityBlocks. by rewrite Hc, Hi. }
      rewrite Hex. cbn [fst snd].
      destruct (IH s Hc Hi Hs') as (H1 & H2 & H3 & H4).
      repeat split; try done. intros [|i] Hl; [done|]. by apply H4.
    + destruct (exec_other k a s Hne) as (E1 & E2 & E3).
      { intros r ->. apply (Hs r). left. }
      destruct (IH (exec a s).2) as (H1 & H2 & H3 & H4); [congruence..|done|].
      repeat split; try done; [congruence|].
      intros [|i] Hl; [|by apply H4]. cbn in Hl. congruence.
Qed.

(** C8.  Take a key with no cached value and let any number of calls and
    of loader completions follow, none of them the completion of the
    loader for this key, and at least one of them a call for this key.
    Then exactly one loader is started for the key if none was in flight
    before, and none otherwise; every call for the key is answered with
    one and the same pending promise, which is the entry of the in-flight
    map; and when that loader completes, the entry is removed (and, on
    success, the value is cached). *)
Theorem in_flight_deduplication (k : string) (acts : list action) (s : service) :
  availabilityCache s !! k = None →
  (∀ r, Settle k r ∉ acts) →
  Call k ∈ acts →
  loads_of k (run acts s).2
  = (loads_of k s
     + match availabilityInflight s !! k with Some _ => 0 | None => 1 end)%nat
  ∧ (∃ p, availabilityInflight (run acts s).2 !! k = Some p
        ∧ ∀ i, acts !! i = Some (Call k) →
               (run acts s).1 !! i = Some (Some (Promise p)))
  ∧ ∀ r, availabilityInflight (exec (Settle k r) (run acts s).2).2 !! k = None
         ∧ availabilityCache (exec (Settle k r) (run acts s).2).2 !! k = r.
Proof.
  intros Hc Hs Hcall.
  assert (Hmain :
    loads_of k (run acts s).2
    = (loads_of k s
       + match availabilityInflight s !! k with Some _ => 0 | None => 1 end)%nat
    ∧ availabilityCache (run acts s).2 !! k = None
    ∧ ∃ p, availabilityInflight (run acts s).2 !! k = Some p
         ∧ ∀ i, acts !! i = Some (Call k) →
                (run acts s).1 !! i = Some (Some (Promise p))).
  { destruct (availabilityInflight s !! k) as [p|] eqn:Hi.
    - destruct (run_in_flight k p acts s Hc Hi Hs) as (H1 & H2 & H3 & H4).
      split; [lia|]. split; [done|]. by exists p.
    - revert s Hc Hi. induction acts as [|a acts IH]; intros s Hc Hi.
      + by apply elem_of_nil in Hcall.
      + rewrite run_cons. cbn [fst snd].
        assert (Hs' : ∀ r, Settle k r ∉ acts).
        { intros r Hr. apply (Hs r). by right. }
        destruct (decide (a = Call k)) as [->|Hne].
        * set (s1 := (exec (Call k) s).2).
          assert (Hex : exec (Call k) s
                        = (Some (Promise (next_promise s)),
                           mkService (availabilityCache s)
                             (<[k := next_promise s]> (availabilityInflight s))
                             (S (next_promise s)) (loads s ++ [k]))).
          { cbn [exec]. unfold getAvailabilityBlocks. by rewrite Hc, Hi. }
          assert (Hc1 : availabilityCache s1 !! k = None)
            by (unfold s1; by rewrite Hex).
          assert (Hi1 : availabilityInflight s1 !! k = Some (next_promise s)).
          { unfold s1. rewrite Hex. cbn. by rewrite lookup_insert_eq. }
          assert (Hl1 : loads_of k s1 = (loads_of k s + 1)%nat).
          { unfold s1. rewrite Hex. unfold loads_of. cbn [snd loads].
            rewrite filter_app, length_app.
            by rewrite filter_cons_True, filter_nil. }
          destruct (run_in_flight k (next_promise s) acts s1 Hc1 Hi1 Hs')
            as (H1 & H2 & H3 & H4).
          split; [lia|]. split; [done|]. exists (next_promise s).
          split; [done|]. intros [|i] Hl; [|by apply H4].
          by rewrite Hex.
        * destruct (exec_other k a s Hne) as (E1 & E2 & E3).
          { intros r ->. apply (Hs r). left. }
          assert (Hcall' : Call k ∈ acts).
          { apply elem_of_cons in Hcall as [Heq|Hin]; [congruence|done]. }
          destruct (IH Hs' Hcall' (exec a s).2) as (H1 & H2 & p & H3 & H4);
            [congruence..|].
          split; [lia|]. split; [done|]. exists p. split; [done|].
          intros [|i] Hl; [|by apply H4]. cbn in Hl. congruence. }
  destruct Hmain as (Hloads & Hcache & p & Hp & Hans).
  split; [done|]. split; [by exists p|].
  intros r. cbn [exec]. rewrite Hp. cbn [snd settle availabilityInflight
    availabilityCache].
  split; [by rewrite lookup_delete_eq|].
  destruct r; [by rewrite lookup_insert_eq|done].
Qed.

End InFlight.

(** Two identical queries in a row on a fresh service: one loader. *)
Lemma in_flight_deduplication_witness :
  let k := "2024-03-01|2024-03-31|"%string in
  let acts := [Client.Call k; Client.Call k] in
  Client.loads_of k (Client.run acts Client.new_service).2 = 1%nat
  ∧ (Client.run acts Client.new_service).1
    = [Some (Client.Promise 0); Some (Client.Promise 0)].
Proof.
  intros k acts.
  destruct (in_flight_deduplication k acts Client.new_service)
    as (Hloads & _ & _).
  - reflexivity.
  - intros r Hr. apply elem_of_cons in Hr as [Hr|Hr]; [discriminate Hr|].
    apply elem_of_cons in Hr as [Hr|Hr]; [discriminate Hr|].
    by apply elem_of_nil in Hr.
  - left.
  - split; [exact Hloads | reflexivity].
Defined.

(** * Further properties *)

(** ** The time normaliser on strings *)

Module StrFacts.

Import Str.

Definition blank (ws : list ascii) : Prop := Forall (λ c, is_space c = true) ws.

Lemma drop_space_blank (ws l : list ascii) :
  blank ws → drop_space (ws ++ l) = drop_space l.
Proof.
  induction 1 as [|c ws Hc _ IH]; [done|]. cbn [app drop_space]. by rewrite Hc.
Qed.

Lemma drop_space_app (l ws : list ascii) :
  blank ws →
  drop_space (l ++ ws) = match drop_space l with [] => [] | r => r ++ ws end.
Proof.
  intros Hws. induction l as [|c l IH]; cbn [app drop_space].
  - rewrite <- (app_nil_r ws) at 1. by rewrite drop_space_blank.
  - destruct (is_space c); [exact IH | done].
Qed.

Lemma trim_padding (ws ws' cs : list ascii) :
  blank ws → blank ws' → trim (ws ++ cs ++ ws') = trim cs.
Proof.
  intros Hws Hws'. unfold trim. rewrite drop_space_blank by done.
  rewrite drop_space_app by done.
  destruct (drop_space cs) as [|c r] eqn:E; [done|].
  rewrite <- E. rewrite rev_app_distr.
  rewrite drop_space_blank; [done|]. by apply Forall_rev.
Qed.

Lemma drop_space_id (c : ascii) (cs : list ascii) :
  is_space c = false → drop_space (c :: cs) = c :: cs.
Proof. intros H. cbn [drop_space]. by rewrite H. Qed.

Lemma trim_id (cs : list ascii) (a b : ascii) (l r : list ascii) :
  cs = a :: l → cs = r ++ [b] → is_space a = false → is_space b = false →
  trim cs = cs.
Proof.
  intros Ha Hb Hsa Hsb. unfold trim.
  rewrite Ha at 1. rewrite drop_space_id by done. rewrite <- Ha.
  rewrite Hb at 1. rewrite rev_app_distr. cbn [rev app].
  rewrite drop_space_id by done.
  change (b :: rev r) with (rev [b] ++ rev r).
  by rewrite <- rev_app_distr, rev_involutive, <- Hb.
Qed.

Lemma trim_ends (cs : list ascii) (a b : ascii) :
  head cs = Some a → last cs = Some b →
  is_space a = false → is_space b = false → trim cs = cs.
Proof.
  intros Ha (r & Hr)%last_Some Hsa Hsb.
  destruct cs as [|a' l]; [done|]. injection Ha as ->.
  by apply (trim_id _ a b l r).
Qed.

Lemma replace_space_skip (d l : list ascii) :
  Forall (λ c, code c ≠ 32) d → replace_space (d ++ l) = d ++ replace_space l.
Proof.
  induction 1 as [|c d Hc _ IH]; [done|]. cbn [app replace_space].
  destruct (Z.eqb_spec (code c) 32); [done|]. by rewrite IH.
Qed.

Lemma replace_space_none (d : list ascii) :
  Forall (λ c, code c ≠ 32) d → replace_space d = d.
Proof.
  intros H. rewrite <- (app_nil_r d) at 1.
  rewrite replace_space_skip by done. by rewrite app_nil_r.
Qed.

(** Appending text without a space commutes with the replacement. *)
Lemma replace_space_app (x y : list ascii) :
  Forall (λ c, code c ≠ 32) y → replace_space (x ++ y) = replace_space x ++ y.
Proof.
  intros Hy. induction x as [|c x IH]; cbn [app replace_space].
  - by apply replace_space_none.
  - destruct (code c =? 32); [done|]. by rewrite IH.
Qed.

Lemma list_ascii_of_string_app (a b : string) :
  list_ascii_of_string (a +:+ b) = list_ascii_of_string a ++ list_ascii_of_string b.
Proof. induction a as [|c a IH]; [done|]. simpl. f_equal. exact IH. Qed.

Lemma length_list_ascii_of_string (a : string) :
  length (list_ascii_of_string a) = String.length a.
Proof. induction a as [|c a IH]; [done|]. simpl. f_equal. exact IH. Qed.

End StrFacts.

Module NaiveForms.

Import Str Time NaiveShape.

Lemma digits_app (n : nat) (acc : Z) (cs x rest : list ascii) (v : Z) :
  digits n acc cs = Some (v, rest) → digits n acc (cs ++ x) = Some (v, rest ++ x).
Proof.
  revert acc cs. induction n as [|n IH]; intros acc cs; cbn [digits].
  - by intros [= -> ->].
  - destruct cs as [|c cs]; [done|]. cbn [app]. destruct (is_digit c); [|done].
    apply IH.
Qed.

Lemma lit_app (k : Z) (cs x rest : list ascii) :
  lit k cs = Some rest → lit k (cs ++ x) = Some (rest ++ x).
Proof.
  destruct cs as [|c cs]; cbn [lit app]; [done|].
  destruct (code c =? k); [|done]. by intros [= ->].
Qed.

(** The date part of the pattern, and what is left for the time part. *)
Definition parse_date (cs : list ascii) : option (Z * Z * Z * list ascii) :=
  '(y, cs1) ← digits 4 0 cs;
  cs2 ← lit 45 cs1;
  '(mo, cs3) ← digits 2 0 cs2;
  cs4 ← lit 45 cs3;
  '(d, cs5) ← digits 2 0 cs4;
  Some (y, mo, d, cs5).

Lemma parseNaiveDateTime_split (cs : list ascii) :
  parseNaiveDateTime cs
  = '(y, mo, d, rest) ← parse_date cs;
    '(h, mi, se) ← parse_time rest;
    Some (Cal.mkFields y mo d h mi se).
Proof.
  unfold parseNaiveDateTime, parse_date.
  destruct (digits 4 0 cs) as [[y cs1]|]; [|done]. cbn [mbind option_bind].
  destruct (lit 45 cs1) as [cs2|]; [|done]. cbn [mbind option_bind].
  destruct (digits 2 0 cs2) as [[mo cs3]|]; [|done]. cbn [mbind option_bind].
  destruct (lit 45 cs3) as [cs4|]; [|done]. cbn [mbind option_bind].
  destruct (digits 2 0 cs4) as [[d cs5]|]; done.
Qed.

Lemma parse_date_app (cs x rest : list ascii) (y mo d : Z) :
  parse_date cs = Some (y, mo, d, rest) →
  parse_date (cs ++ x) = Some (y, mo, d, rest ++ x).
Proof.
  unfold parse_date. intros H.
  apply bind_Some in H as ([y' cs1] & H1 & H).
  apply bind_Some in H as (cs2 & H2 & H).
  apply bind_Some in H as ([mo' cs3] & H3 & H).
  apply bind_Some in H as (cs4 & H4 & H).
  apply bind_Some in H as ([d' cs5] & H5 & [= -> -> -> ->]).
  rewrite (digits_app _ _ _ x _ _ H1). cbn [mbind option_bind].
  rewrite (lit_app _ _ x _ H2). cbn [mbind option_bind].
  rewrite (digits_app _ _ _ x _ _ H3). cbn [mbind option_bind].
  rewrite (lit_app _ _ x _ H4). cbn [mbind option_bind].
  by rewrite (digits_app _ _ _ x _ _ H5).
Qed.

Lemma parse_date_length (cs rest : list ascii) (y mo d : Z) :
  parse_date cs = Some (y, mo, d, rest) →
  length cs = (10 + length rest)%nat.
Proof.
  unfold parse_date. intros H.
  apply bind_Some in H as ([y' cs1] & (d1 & -> & L1 & _)%digits_inv & H).
  apply bind_Some in H as (cs2 & (c1 & -> & _)%lit_inv & H).
  apply bind_Some in H as ([mo' cs3] & (d2 & -> & L2 & _)%digits_inv & H).
  apply bind_Some in H as (cs4 & (c2 & -> & _)%lit_inv & H).
  apply bind_Some in H as ([d' cs5] & (d3 & -> & L3 & _)%digits_inv & [= _ _ _ ->]).
  rewrite !length_app. cbn [length]. rewrite !length_app. cbn [length].
  rewrite !length_app. lia.
Qed.

End NaiveForms.

Module NaiveParts.

Import Str Time NaiveShape StrFacts NaiveForms.

Definition datechar (c : ascii) : Prop := digit c ∨ code c = 45.

Lemma datechar_not_space (c : ascii) : datechar c → code c ≠ 32.
Proof. unfold datechar, digit, is_digit. lia. Qed.

Lemma digit_is_not_space (c : ascii) : digit c → is_space c = false.
Proof. unfold digit, is_digit, is_space. lia. Qed.

Lemma digit_code_not_space (c : ascii) : digit c → code c ≠ 32.
Proof. unfold digit, is_digit. lia. Qed.

Lemma digits_any_rest (n : nat) (acc : Z) (cs rest : list ascii) (v : Z) :
  digits n acc cs = Some (v, rest) →
  ∃ ds, cs = ds ++ rest ∧ length ds = n ∧ Forall digit ds
        ∧ ∀ r, digits n acc (ds ++ r) = Some (v, r).
Proof.
  revert acc cs. induction n as [|n IH]; intros acc cs; cbn [digits].
  - intros [= -> ->]. by exists [].
  - destruct cs as [|c cs]; [done|]. destruct (is_digit c) eqn:Hc; [|done].
    intros (ds & -> & Hlen & Hds & Hr)%IH. exists (c :: ds).
    split; [done|]. split; [by cbn; rewrite Hlen|]. split; [by constructor|].
    intros r. cbn [app digits]. by rewrite Hc.
Qed.

Lemma lit_any_rest (k : Z) (cs rest : list ascii) :
  lit k cs = Some rest →
  ∃ c, cs = c :: rest ∧ code c = k ∧ ∀ r, lit k (c :: r) = Some r.
Proof.
  destruct cs as [|c cs]; cbn [lit]; [done|].
  destruct (Z.eqb_spec (code c) k) as [Hc|]; [|done]. intros [= <-].
  exists c. split; [done|]. split; [done|]. intros r. cbn [lit].
  by rewrite Hc, Z.eqb_refl.
Qed.

(** The date part takes ten characters, digits and dashes, and reads the
    same whatever follows them. *)
Lemma parse_date_prefix (cs rest : list ascii) (y mo d : Z) :
  parse_date cs = Some (y, mo, d, rest) →
  ∃ pre, cs = pre ++ rest ∧ length pre = 10%nat ∧ Forall datechar pre
         ∧ ∀ r, parse_date (pre ++ r) = Some (y, mo, d, r).
Proof.
  unfold parse_date. intros H.
  apply bind_Some in H as ([y' cs1] & (d1 & -> & L1 & F1 & R1)%digits_any_rest & H).
  apply bind_Some in H as (cs2 & (c1 & -> & C1 & S1)%lit_any_rest & H).
  apply bind_Some in H as ([mo' cs3] & (d2 & -> & L2 & F2 & R2)%digits_any_rest & H).
  apply bind_Some in H as (cs4 & (c2 & -> & C2 & S2)%lit_any_rest & H).
  apply bind_Some in H
    as ([d' cs5] & (d3 & -> & L3 & F3 & R3)%digits_any_rest & [= -> -> -> ->]).
  exists (d1 ++ c1 :: d2 ++ c2 :: d3). split; [|split; [|split]].
  - by rewrite <- !app_assoc; cbn [app]; rewrite <- !app_assoc.
  - rewrite !length_app. cbn [length]. rewrite !length_app. cbn [length]. lia.
  - apply Forall_app. split; [by eapply Forall_impl; [exact F1|left]|].
    constructor; [by right|]. apply Forall_app.
    split; [by eapply Forall_impl; [exact F2|left]|].
    constructor; [by right|]. by eapply Forall_impl; [exact F3|left].
  - intros r. rewrite <- !app_assoc. cbn [app]. rewrite <- !app_assoc. cbn [app].
    rewrite R1. cbn [mbind option_bind]. rewrite S1. cbn [mbind option_bind].
    rewrite R2. cbn [mbind option_bind]. rewrite S2. cbn [mbind option_bind].
    by rewrite R3.
Qed.

(** A string of the shape has no white space at either end. *)
Lemma naive_shape_trim (cs : list ascii) : naive_shape cs → trim cs = cs.
Proof.
  intros [y1 y2 y3 y4 a m1 m2 b d1 d2 rest
            Hy1 Hy2 Hy3 Hy4 Ha Hm1 Hm2 Hb Hd1 Hd2 Hrest].
  destruct Hrest as [|sep h1 h2 c q1 q2 Hsep Hh1 Hh2 Hc Hq1 Hq2
                     |sep h1 h2 c q1 q2 c' s1 s2 Hsep Hh1 Hh2 Hc Hq1 Hq2 Hc' Hs1 Hs2];
    cbn [app].
  - by apply (trim_ends _ y1 d2); [done|done|apply digit_is_not_space..].
  - by apply (trim_ends _ y1 q2); [done|done|apply digit_is_not_space..].
  - by apply (trim_ends _ y1 s2); [done|done|apply digit_is_not_space..].
Qed.

(** The time part after a [T] has no space. *)
Lemma time_shape_no_space (rest : list ascii) :
  time_shape rest →
  match rest with
  | [] => True
  | _ :: t => Forall (λ c, code c ≠ 32) t
  end.
Proof.
  intros [|sep h1 h2 c q1 q2 Hsep Hh1 Hh2 Hc Hq1 Hq2
          |sep h1 h2 c q1 q2 c' s1 s2 Hsep Hh1 Hh2 Hc Hq1 Hq2 Hc' Hs1 Hs2];
    [done|..]; repeat constructor; (by apply digit_code_not_space) || lia.
Qed.

End NaiveParts.

Section TimeForms.

Import Js Str Time NaiveShape StrFacts NaiveForms NaiveParts.

Variable tzdb : string → option (Z → Z).
Variable dateParse : string → option Z.

Local Abbreviation toUtcMs := (Time.toUtcMs tzdb dateParse).

Lemma floor_check_Some (ms u : Z) :
  floor_check ms = Some u → u = ms ∧ MIN_VALID <= u.
Proof.
  unfold floor_check. destruct (Z.leb_spec MIN_VALID ms); [|done].
  by intros [= <-].
Qed.

Lemma toUtcMs_floor (inp : input) (tz : string) (u : Z) :
  toUtcMs inp tz = Some u → MIN_VALID <= u.
Proof.
  destruct inp as [|n|s]; cbn [Time.toUtcMs]; [done| |].
  - destruct (if ltb n (Fin MS_THRESHOLD) then mul_pos n 1000 else n);
      [done..|]. by intros [_ ?]%floor_check_Some.
  - destruct (trim (list_ascii_of_string s)) as [|c cs]; [done|].
    destruct (all_digits (c :: cs)); [by intros [_ ?]%floor_check_Some|].
    destruct (has_tz_marker (c :: cs)).
    + destruct (dateParse _); [|done]. by intros [_ ?]%floor_check_Some.
    + destruct (zonedNaiveToUtcMs _ _ _) as [[ms|]|]; [|done..].
      by intros [_ ?]%floor_check_Some.
Qed.

(** X1.  Whatever the input, an instant that [toUtcMs] returns is not before
    2000-01-01T00:00:00Z. *)
Theorem toUtcMs_never_before_floor (inp : input) (tz : string) (u : Z) :
  toUtcMs inp tz = Some u → Cal.DateUTC 2000 0 1 0 0 0 <= u.
Proof. apply toUtcMs_floor. Qed.

Lemma toUtcMs_trim (s1 s2 : string) (tz : string) :
  trim (list_ascii_of_string s1) = trim (list_ascii_of_string s2) →
  toUtcMs (IStr s1) tz = toUtcMs (IStr s2) tz.
Proof. intros H. unfold Time.toUtcMs. by rewrite H. Qed.

(** X2.  White space around a string does not change what [toUtcMs] makes of
    it. *)
Theorem toUtcMs_ignores_padding (ws s ws' : string) (tz : string) :
  blank (list_ascii_of_string ws) → blank (list_ascii_of_string ws') →
  toUtcMs (IStr (ws +:+ s +:+ ws')) tz = toUtcMs (IStr s) tz.
Proof.
  intros Hws Hws'. apply toUtcMs_trim.
  rewrite !list_ascii_of_string_app. by apply trim_padding.
Qed.


Lemma zoned_same_parse (a b : list ascii) (tz : string) :
  parseNaiveDateTime a = parseNaiveDateTime b →
  zonedNaiveToUtcMs tzdb a tz = zonedNaiveToUtcMs tzdb b tz.
Proof. intros H. unfold zonedNaiveToUtcMs. by rewrite H. Qed.

(** Two naive strings with the same groups give the same result. *)
Lemma toUtcMs_same_fields (s1 s2 : string) (p : Cal.fields) (tz : string) :
  naive_input s1 p → naive_input s2 p →
  toUtcMs (IStr s1) tz = toUtcMs (IStr s2) tz.
Proof.
  intros H1 H2.
  rewrite (toUtcMs_naive tzdb dateParse tz s1 p _ H1 eq_refl).
  rewrite (toUtcMs_naive tzdb dateParse tz s2 p _ H2 eq_refl).
  unfold naive_input in H1, H2.
  by rewrite (zoned_same_parse _ _ tz (eq_trans H1 (eq_sym H2))).
Qed.

End TimeForms.


Lemma toUtcMs_ignores_padding_witness :
  Time.toUtcMs sample_tzdb sample_dateParse (Time.IStr "  2024-03-12 10:00 ")
    "America/New_York"
  = Time.toUtcMs sample_tzdb sample_dateParse (Time.IStr "2024-03-12 10:00")
      "America/New_York".
Proof.
  apply (toUtcMs_ignores_padding sample_tzdb sample_dateParse "  "
           "2024-03-12 10:00" " " "America/New_York").
  - repeat constructor.
  - repeat constructor.
Defined.

Lemma toUtcMs_never_before_floor_witness :
  Time.toUtcMs sample_tzdb sample_dateParse (Time.INum (Js.Fin 1700000000)) "UTC"
  = Some 1700000000000
  ∧ Cal.DateUTC 2000 0 1 0 0 0 <= 1700000000000.
Proof.
  split; [vm_compute; reflexivity|].
  apply (toUtcMs_never_before_floor sample_tzdb sample_dateParse
           (Time.INum (Js.Fin 1700000000)) "UTC").
  vm_compute. reflexivity.
Defined.

Section TimeDefaults.

Import Js Str Time NaiveShape StrFacts NaiveForms NaiveParts.

Variable tzdb : string → option (Z → Z).
Variable dateParse : string → option Z.

Local Abbreviation toUtcMs := (Time.toUtcMs tzdb dateParse).

(** What a match of the pattern says about a string cut after its tenth
    character. *)
Lemma parse_cut (D R : list ascii) (p : Cal.fields) :
  length D = 10%nat → parseNaiveDateTime (D ++ R) = Some p →
  Forall (λ c, code c ≠ 32) D
  ∧ ∃ y mo d h mi se,
      (∀ r, parse_date (D ++ r) = Some (y, mo, d, r))
      ∧ parse_time R = Some (h, mi, se)
      ∧ p = Cal.mkFields y mo d h mi se.
Proof.
  intros HD Hp. rewrite parseNaiveDateTime_split in Hp.
  apply bind_Some in Hp as ([[[y mo] d] rest] & Hdate & Hp).
  apply bind_Some in Hp as ([[h mi] se] & Htime & [= <-]).
  pose proof (parse_date_prefix _ _ _ _ _ Hdate) as (pre & Heq & Hlen & Hpre & Hr).
  apply app_inj_1 in Heq as [-> ->]; [|congruence].
  split; [by eapply Forall_impl; [exact Hpre|apply datechar_not_space]|].
  by exists y, mo, d, h, mi, se.
Qed.

Lemma parse_glue (D R : list ascii) (y mo d h mi se : Z) :
  (∀ r, parse_date (D ++ r) = Some (y, mo, d, r)) →
  parse_time R = Some (h, mi, se) →
  parseNaiveDateTime (D ++ R) = Some (Cal.mkFields y mo d h mi se).
Proof.
  intros Hd Ht. rewrite parseNaiveDateTime_split, Hd. cbn [mbind option_bind].
  by rewrite Ht.
Qed.

(** A string of the shape without a space is a naive input as it stands. *)
Lemma naive_input_plain (cs : list ascii) (p : Cal.fields) :
  Forall (λ c, code c ≠ 32) cs → parseNaiveDateTime cs = Some p →
  naive_input (string_of_list_ascii cs) p.
Proof.
  intros Hns Hp. unfold naive_input.
  rewrite list_ascii_of_string_of_list_ascii.
  rewrite (naive_shape_trim cs) by (by eapply parseNaiveDateTime_shape).
  by rewrite replace_space_none.
Qed.

(** X4.  A naive timestamp written with a space between date and time gives
    the same result as the one written with [T]. *)
Theorem toUtcMs_space_or_T (d t : string) (p : Cal.fields) (tz : string) :
  String.length d = 10%nat →
  parseNaiveDateTime (list_ascii_of_string (d +:+ "T" +:+ t)) = Some p →
  toUtcMs (IStr (d +:+ " " +:+ t)) tz = toUtcMs (IStr (d +:+ "T" +:+ t)) tz.
Proof.
  intros Hlen Hp. apply (toUtcMs_same_fields _ _ _ _ p).
  - unfold naive_input. revert Hp. rewrite !list_ascii_of_string_app.
    rewrite <- length_list_ascii_of_string in Hlen.
    set (D := list_ascii_of_string d) in *. set (R := list_ascii_of_string t).
    change (list_ascii_of_string "T") with ["T"%char].
    change (list_ascii_of_string " ") with [" "%char]. cbn [app]. intros Hp.
    destruct (parse_cut _ _ _ Hlen Hp) as (HD & _).
    assert (Hrep : replace_space (D ++ " "%char :: R) = D ++ "T"%char :: R)
      by (by rewrite replace_space_skip).
    rewrite naive_shape_trim; [by rewrite Hrep|].
    apply replace_space_shape. rewrite Hrep. by eapply parseNaiveDateTime_shape.
  - rewrite <- (string_of_list_ascii_of_string (d +:+ "T" +:+ t)).
    apply naive_input_plain; [|done].
    revert Hp. rewrite !list_ascii_of_string_app.
    rewrite <- length_list_ascii_of_string in Hlen.
    set (D := list_ascii_of_string d) in *. set (R := list_ascii_of_string t).
    change (list_ascii_of_string "T") with ["T"%char]. cbn [app]. intros Hp.
    destruct (parse_cut _ _ _ Hlen Hp) as (HD & y & mo & dd & h & mi & se & _ & Ht & _).
    apply Forall_app. split; [done|]. constructor; [done|].
    by apply (time_shape_no_space _ (parse_time_shape _ _ Ht)).
Qed.

(** Both separators pass the test of the time part. *)
Lemma parse_time_sep (sep : ascii) (t : list ascii) (r : Z * Z * Z) :
  parse_time (sep :: t) = Some r →
  (code sep = 32 ∨ code sep = 84)
  ∧ parse_time ("T"%char :: t) = Some r
  ∧ Forall (λ c, code c ≠ 32) t.
Proof.
  intros H. pose proof (time_shape_no_space _ (parse_time_shape _ _ H)) as Hns.
  revert H. cbn [parse_time].
  destruct (Z.eqb_spec (code sep) 32), (Z.eqb_spec (code sep) 84);
    cbn [orb]; try done; auto.
Qed.

Lemma parse_replace (cs : list ascii) (p : Cal.fields) :
  parseNaiveDateTime cs = Some p → parseNaiveDateTime (replace_space cs) = Some p.
Proof.
  intros Hp. pose proof Hp as Hp'. rewrite parseNaiveDateTime_split in Hp'.
  apply bind_Some in Hp' as ([[[y mo] d] rest] & Hdate & Hp').
  apply bind_Some in Hp' as ([[h mi] se] & Htime & [= <-]).
  pose proof (parse_date_prefix _ _ _ _ _ Hdate) as (D & -> & Hlen & HD & Hr).
  assert (HD' : Forall (λ c, code c ≠ 32) D)
    by (by eapply Forall_impl; [exact HD|apply datechar_not_space]).
  rewrite replace_space_skip by done.
  destruct rest as [|sep t]; [done|].
  destruct (parse_time_sep _ _ _ Htime) as (Hsep & HT & Ht).
  cbn [replace_space]. destruct (Z.eqb_spec (code sep) 32).
  - by apply parse_glue.
  - rewrite replace_space_none by done. exact Hp.
Qed.

(** A string that the pattern matches is a naive input as it stands. *)
Lemma naive_input_of_parse (cs : list ascii) (p : Cal.fields) :
  parseNaiveDateTime cs = Some p → naive_input (string_of_list_ascii cs) p.
Proof.
  intros Hp. unfold naive_input. rewrite list_ascii_of_string_of_list_ascii.
  rewrite (naive_shape_trim cs) by (by eapply parseNaiveDateTime_shape).
  by apply parse_replace.
Qed.

Lemma parse_time_minutes (rest : list ascii) (r : Z * Z * Z) :
  parse_time rest = Some r → length rest = 6%nat →
  parse_time (rest ++ [":"; "0"; "0"]%char) = Some r.
Proof.
  destruct rest as [|sep cs1]; [done|]. cbn [parse_time app length].
  destruct ((code sep =? 32) || (code sep =? 84)); [|done]. intros H Hlen.
  apply bind_Some in H as ([h cs2] & H1 & H).
  apply bind_Some in H as (cs3 & H2 & H).
  apply bind_Some in H as ([mi cs4] & H3 & H).
  pose proof H1 as (d1 & -> & L1 & _)%digits_inv.
  pose proof H2 as (c1 & -> & _)%lit_inv.
  pose proof H3 as (d2 & -> & L2 & _)%digits_inv.
  assert (cs4 = []) as ->.
  { apply length_zero_iff_nil. rewrite !length_app in Hlen. cbn [length] in Hlen.
    rewrite !length_app in Hlen. lia. }
  rewrite (digits_app _ _ _ _ _ _ H1). cbn [mbind option_bind].
  rewrite (lit_app _ _ _ _ H2). cbn [mbind option_bind].
  rewrite (digits_app _ _ _ _ _ _ H3). cbn [mbind option_bind app].
  exact H.
Qed.

(** X5.  A date alone is read as midnight, and a time without seconds as the
    full minute. *)
Theorem toUtcMs_default_time (s : string) (p : Cal.fields) (tz : string) :
  parseNaiveDateTime (list_ascii_of_string s) = Some p →
  (String.length s = 10%nat →
   toUtcMs (IStr (s +:+ "T00:00")) tz = toUtcMs (IStr s) tz
   ∧ toUtcMs (IStr (s +:+ "T00:00:00")) tz = toUtcMs (IStr s) tz)
  ∧ (String.length s = 16%nat →
     toUtcMs (IStr (s +:+ ":00")) tz = toUtcMs (IStr s) tz).
Proof.
  intros Hp.
  assert (Hs : naive_input s p).
  { rewrite <- (string_of_list_ascii_of_string s). by apply naive_input_of_parse. }
  assert (Hext : ∀ x : string,
             parseNaiveDateTime (list_ascii_of_string s ++ list_ascii_of_string x)
             = Some p →
             toUtcMs (IStr (s +:+ x)) tz = toUtcMs (IStr s) tz).
  { intros x Hx. apply (toUtcMs_same_fields _ _ _ _ p); [|done].
    rewrite <- (string_of_list_ascii_of_string (s +:+ x)).
    apply naive_input_of_parse. by rewrite list_ascii_of_string_app. }
  rewrite parseNaiveDateTime_split in Hp.
  apply bind_Some in Hp as ([[[y mo] d] rest] & Hdate & Hp).
  apply bind_Some in Hp as ([[h mi] se] & Htime & [= <-]).
  pose proof (parse_date_prefix _ _ _ _ _ Hdate) as (D & HDs & Hlen & _ & Hr).
  rewrite <- !length_list_ascii_of_string. rewrite HDs in *.
  rewrite length_app, Hlen. split.
  - intros Hrest. assert (rest = []) as -> by (apply length_zero_iff_nil; lia).
    injection Htime as <- <- <-.
    split; apply Hext; rewrite app_nil_r; by apply parse_glue.
  - intros Hrest. apply Hext. rewrite <- app_assoc. apply parse_glue; [done|].
    apply parse_time_minutes; [done|lia].
Qed.

End TimeDefaults.

Lemma toUtcMs_default_time_witness :
  Time.toUtcMs sample_tzdb sample_dateParse (Time.IStr "2024-03-12T00:00")
    "America/New_York"
  = Time.toUtcMs sample_tzdb sample_dateParse (Time.IStr "2024-03-12")
      "America/New_York"
  ∧ Time.toUtcMs sample_tzdb sample_dateParse (Time.IStr "2024-03-12 10:00:00")
      "America/New_York"
    = Time.toUtcMs sample_tzdb sample_dateParse (Time.IStr "2024-03-12 10:00")
        "America/New_York".
Proof.
  split.
  - destruct (toUtcMs_default_time sample_tzdb sample_dateParse "2024-03-12"
                (Cal.mkFields 2024 3 12 0 0 0) "America/New_York") as [H _].
    + vm_compute. reflexivity.
    + exact (proj1 (H eq_refl)).
  - destruct (toUtcMs_default_time sample_tzdb sample_dateParse
                "2024-03-12 10:00" (Cal.mkFields 2024 3 12 10 0 0)
                "America/New_York") as [_ H].
    + vm_compute. reflexivity.
    + exact (H eq_refl).
Defined.

Lemma toUtcMs_space_or_T_witness :
  Time.toUtcMs sample_tzdb sample_dateParse (Time.IStr "2024-03-12 10:00")
    "America/New_York"
  = Time.toUtcMs sample_tzdb sample_dateParse (Time.IStr "2024-03-12T10:00")
      "America/New_York".
Proof.
  apply (toUtcMs_space_or_T sample_tzdb sample_dateParse "2024-03-12" "10:00"
           (Cal.mkFields 2024 3 12 10 0 0) "America/New_York").
  - reflexivity.
  - vm_compute. reflexivity.
Defined.

(** ** The bookings listing *)

Section ListingParse.

Import Js Str Time Cal Server.

Variable tzdb : string → option (Z → Z).
Variable dateParse : string → option Z.

Local Abbreviation toUtcMs := (Time.toUtcMs tzdb dateParse).

(** X6.  On a numeric start other than exactly 10^12, the parser of the range
    filter reads the instant that [toUtcMs] gives the event, whenever
    [toUtcMs] accepts the number.  The two disagree at 10^12 itself, which
    [toUtcMs] takes for milliseconds and the filter for seconds. *)
Theorem range_parse_agrees_on_numbers (z u now : Z) (tz : string) :
  z ≠ 1000000000000 →
  toUtcMs (INum (Fin z)) tz = Some u →
  parseBookingDateToMs dateParse now (INum (Fin z)) = u.
Proof.
  intros Hz. cbn [Time.toUtcMs parseBookingDateToMs ltb mul_pos].
  unfold MS_THRESHOLD, floor_check.
  destruct (Z.ltb_spec z 1000000000000), (Z.ltb_spec 1000000000000 z);
    try lia; destruct (_ <=? _); by intros [= <-].
Qed.

Lemma participants_cases (pc : counts) :
  participants_of pc = parseCounts pc.
Proof.
  destruct pc as [|n|ns|kvs|]; unfold participants_of, parseCounts; try done.
  destruct (Z.eqb_spec n 0); [subst; done|done].
Qed.

End ListingParse.

Lemma range_parse_agrees_on_numbers_witness :
  Server.parseBookingDateToMs sample_dateParse 0 (Time.INum (Js.Fin 1700000000))
  = 1700000000000.
Proof.
  apply (range_parse_agrees_on_numbers sample_tzdb sample_dateParse 1700000000
           1700000000000 0 "UTC").
  - lia.
  - vm_compute. reflexivity.
Defined.

(** At 10^12 itself the two readings differ by the factor 1000. *)
Example range_parse_differs_at_threshold :
  Time.toUtcMs sample_tzdb sample_dateParse (Time.INum (Js.Fin 1000000000000)) "UTC"
  = Some 1000000000000
  ∧ Server.parseBookingDateToMs sample_dateParse 0
      (Time.INum (Js.Fin 1000000000000)) = 1000000000000000.
Proof. split; vm_compute; reflexivity. Qed.

Section StoreFormat.

Import Js Str Time Cal Server NaiveShape StrFacts NaiveForms NaiveParts.

Variable tzdb : string → option (Z → Z).
Variable dateParse : string → option Z.

Local Abbreviation toUtcMs := (Time.toUtcMs tzdb dateParse).

(** The store's format is one of the forms of the naive pattern, and it
    has no [T]. *)
Lemma match_wc_format_naive (cs : list ascii) (p : fields) :
  match_wc_format cs = Some p →
  parseNaiveDateTime cs = Some p ∧ Forall (λ c, code c ≠ 84) cs.
Proof.
  unfold match_wc_format. intros H.
  apply bind_Some in H as ([y cs1] & H1 & H).
  apply bind_Some in H as (cs2 & H2 & H).
  apply bind_Some in H as ([mo cs3] & H3 & H).
  apply bind_Some in H as (cs4 & H4 & H).
  apply bind_Some in H as ([d cs5] & H5 & H).
  apply bind_Some in H as (cs6 & H6 & H).
  apply bind_Some in H as ([h cs7] & H7 & H).
  apply bind_Some in H as (cs8 & H8 & H).
  apply bind_Some in H as ([mi cs9] & H9 & H).
  apply bind_Some in H as (cs10 & H10 & H).
  apply bind_Some in H as ([se cs11] & H11 & H).
  destruct cs11; [|done]. injection H as <-. split.
  - unfold parseNaiveDateTime. rewrite H1. cbn [mbind option_bind].
    rewrite H2. cbn [mbind option_bind]. rewrite H3. cbn [mbind option_bind].
    rewrite H4. cbn [mbind option_bind]. rewrite H5. cbn [mbind option_bind].
    apply lit_inv in H6 as (c6 & -> & Hc6). cbn [parse_time]. rewrite Hc6.
    cbn [Z.eqb Pos.eqb orb]. rewrite H7. cbn [mbind option_bind].
    rewrite H8. cbn [mbind option_bind]. rewrite H9. cbn [mbind option_bind].
    pose proof H10 as (c10 & -> & _)%lit_inv. rewrite H10.
    cbn [mbind option_bind]. by rewrite H11.
  - assert (Hd : ∀ c, digit c → code c ≠ 84) by (unfold digit, is_digit; lia).
    apply digits_inv in H1 as (d1 & -> & _ & F1).
    apply lit_inv in H2 as (c2 & -> & C2).
    apply digits_inv in H3 as (d3 & -> & _ & F3).
    apply lit_inv in H4 as (c4 & -> & C4).
    apply digits_inv in H5 as (d5 & -> & _ & F5).
    apply lit_inv in H6 as (c6 & -> & C6).
    apply digits_inv in H7 as (d7 & -> & _ & F7).
    apply lit_inv in H8 as (c8 & -> & C8).
    apply digits_inv in H9 as (d9 & -> & _ & F9).
    apply lit_inv in H10 as (c10 & -> & C10).
    apply digits_inv in H11 as (d11 & -> & _ & F11).
    repeat first [ apply Forall_app; split; [by eapply Forall_impl|]
                 | apply Forall_cons; split; [lia|] ].
    done.
Qed.

(** X7.  A start in the store's format, [YYYY-MM-DD HH:mm:ss], is read as UTC
    by the parser of the range filter, whereas the event gets the instant
    at which the site zone shows that wall-clock time: in a zone with the
    fixed offset [c] the two are [c] apart. *)
Theorem store_format_filter_reads_utc
    (s : string) (p : fields) (tz : string) (off : Z → Z) (c now : Z) :
  match_wc_format (list_ascii_of_string s) = Some p →
  tzdb tz = Some off → (∀ t, off t = c) →
  c mod 1000 = 0 → -86400000 <= c <= 86400000 →
  946684800000 + 86400000 <= utc_of_fields p →
  parseBookingDateToMs dateParse now (IStr s) = utc_of_fields p
  ∧ toUtcMs (IStr s) tz = Some (utc_of_fields p - c).
Proof.
  intros Hwc Htz Hoff Hc Hrange Hfloor.
  destruct (match_wc_format_naive _ _ Hwc) as [Hp HnoT]. split.
  - unfold parseBookingDateToMs.
    by rewrite (has_digit_T_digit_none _ HnoT), Hwc.
  - assert (Hin : naive_input s p).
    { rewrite <- (string_of_list_ascii_of_string s). by apply naive_input_of_parse. }
    rewrite (toUtcMs_naive tzdb dateParse tz s p _ Hin eq_refl).
    pose proof (zonedNaiveToUtcMs_value tzdb dateParse tz off _ p Htz Hin) as Hv.
    cbv zeta in Hv. rewrite Hv by (rewrite ?Hoff; (assumption || lia)).
    rewrite Hoff. unfold floor_check, MIN_VALID.
    destruct (Z.leb_spec 946684800000 (utc_of_fields p - c)); [done|lia].
Qed.

End StoreFormat.

Lemma store_format_filter_reads_utc_witness :
  Server.parseBookingDateToMs sample_dateParse 0 (Time.IStr "2024-03-12 10:00:00")
  = 1710237600000
  ∧ Time.toUtcMs tokyo_tzdb sample_dateParse (Time.IStr "2024-03-12 10:00:00")
      "Asia/Tokyo"
    = Some 1710205200000.
Proof.
  apply (store_format_filter_reads_utc tokyo_tzdb sample_dateParse
           "2024-03-12 10:00:00" (Cal.mkFields 2024 3 12 10 0 0) "Asia/Tokyo"
           (λ _, 32400000) 32400000 0).
  - vm_compute. reflexivity.
  - reflexivity.
  - intros t. reflexivity.
  - reflexivity.
  - lia.
  - vm_compute. intros H. discriminate H.
Defined.

Section ListingFilter.

Import Js Time Server.

Variable dateParse : string → option Z.

Lemma range_filter_sublist sd ed clock i (bs : list booking) :
  range_filter dateParse sd ed clock i bs `sublist_of` bs.
Proof.
  revert i. induction bs as [|b bs IH]; intros i; cbn [range_filter]; [done|].
  destruct (in_range _ _ _ _ _); [by apply sublist_skip|by apply sublist_cons].
Qed.

Lemma range_filter_none sd ed clock i (bs : list booking) :
  (∀ now b, in_range dateParse sd ed now b = false) →
  range_filter dateParse sd ed clock i bs = [].
Proof.
  intros Hno. revert i. induction bs as [|b bs IH]; intros i; cbn [range_filter];
    [done|]. by rewrite Hno.
Qed.

(** X8.  The defensive filter only removes records, keeping the order of the
    others; without dates it removes nothing; and a date that is given but
    that [Date.parse] does not read removes everything. *)
Theorem defensive_filter_only_removes
    (sd ed : option string) (clock : nat → Z) (bs : list booking) :
  defensive_filter dateParse sd ed clock bs `sublist_of` bs
  ∧ (truthy_str sd = false → truthy_str ed = false →
     defensive_filter dateParse sd ed clock bs = bs)
  ∧ (truthy_str sd = true →
     dateParse (str_or_empty sd +:+ "T00:00:00Z") = None →
     defensive_filter dateParse sd ed clock bs = [])
  ∧ (truthy_str ed = true →
     dateParse (str_or_empty ed +:+ "T23:59:59Z") = None →
     defensive_filter dateParse sd ed clock bs = []).
Proof.
  unfold defensive_filter. split; [|split; [|split]].
  - destruct (_ || _); [apply range_filter_sublist|done].
  - by intros -> ->.
  - intros Hsd Hparse. rewrite Hsd. cbn [orb]. apply range_filter_none.
    intros now b. unfold in_range, minMs, parse_bound. by rewrite Hsd, Hparse.
  - intros Hed Hparse. rewrite Hed, orb_true_r. apply range_filter_none.
    intros now b. unfold in_range, maxMs, parse_bound. rewrite Hed, Hparse.
    apply andb_false_r.
Qed.

End ListingFilter.

Section ListingCache.

Import Js Time Server.

Variable tzdb : string → option (Z → Z).
Variable dateParse : string → option Z.

Local Abbreviation getBookings := (Server.getBookings tzdb dateParse).
Local Abbreviation convert := (Server.convert tzdb dateParse).

(** Only answers with events are stored. *)
Definition cache_nonempty (cache : gmap string (Z * list event)) : Prop :=
  ∀ k ts evs, cache !! k = Some (ts, evs) → evs ≠ [].

Lemma cache_nonempty_insert cache k ts evs :
  cache_nonempty cache → evs ≠ [] → cache_nonempty (<[k := (ts, evs)]> cache).
Proof.
  intros Hc He k' ts' evs'. rewrite lookup_insert.
  case_decide; [by intros [= <- <-]|apply Hc].
Qed.

(** X9.  Every answer of the listing is a success envelope with status 200
    whose [total] is the length of [data] and whose [bookings_available]
    says whether [data] has an element; and the cache keeps holding only
    non-empty answers. *)
Theorem getBookings_envelope (e : env) (q : query) (w : world)
    (cache : gmap string (Z * list event)) :
  cache_nonempty cache →
  status (getBookings e q w cache).1 = 200
  ∧ success (body (getBookings e q w cache).1) = true
  ∧ error (body (getBookings e q w cache).1) = None
  ∧ (∃ d, data (body (getBookings e q w cache).1) = Some d
        ∧ total (body (getBookings e q w cache).1) = Some (Z.of_nat (length d))
        ∧ bookings_available (body (getBookings e q w cache).1)
          = Some (bool_decide (d ≠ [])))
  ∧ cache_nonempty (getBookings e q w cache).2.
Proof.
  intros Hc. unfold Server.getBookings.
  destruct (getWooConfig e) as [cfg|]; [|by repeat split; [exists []|]].
  destruct (cache !! cacheKey q) as [[ts evs]|] eqn:Hlook.
  - destruct (now_check w - ts <? BOOKINGS_TTL_MS).
    + repeat split; [|done]. exists evs. repeat split.
      cbn. f_equal. symmetry. apply bool_decide_eq_true. by eapply Hc.
    + destruct (defensive_filter _ _ _ _ _) as [|b bs] eqn:Hf.
      * by repeat split; [exists []|].
      * repeat split; [|by apply cache_nonempty_insert].
        eexists. repeat split. cbn [data body fst total]. by rewrite length_map.
  - destruct (defensive_filter _ _ _ _ _) as [|b bs] eqn:Hf.
    + by repeat split; [exists []|].
    + repeat split; [|by apply cache_nonempty_insert].
      eexists. repeat split. cbn [data body fst total]. by rewrite length_map.
Qed.

Lemma getBookings_fresh (e : env) (q : query) (w : world)
    (cache : gmap string (Z * list event)) (d : list event) :
  cached (body (getBookings e q w cache).1) = false →
  data (body (getBookings e q w cache).1) = Some d → d ≠ [] →
  (getBookings e q w cache).2 = <[cacheKey q := (now_store w, d)]> cache.
Proof.
  unfold Server.getBookings.
  destruct (getWooConfig e) as [cfg|]; [|by intros _ [= <-]].
  destruct (match cache !! cacheKey q with
            | Some (ts, evs) =>
                if now_check w - ts <? BOOKINGS_TTL_MS then Some evs else None
            | None => None
            end) as [evs|]; [done|].
  destruct (defensive_filter _ _ _ _ _) as [|b bs]; [by intros _ [= <-]|].
  by intros _ [= <-] _.
Qed.

(** X10.  A fresh answer with events is stored under the request's key: the
    same request is answered with those events, marked [cached], whatever
    the upstream does meanwhile, as long as less than three minutes have
    passed since the answer was stored; an entry that old is not served. *)
Theorem getBookings_cache_round_trip (e : env) (q : query) (w w' : world)
    (cache : gmap string (Z * list event)) (d : list event) :
  getWooConfig e ≠ None →
  cached (body (getBookings e q w cache).1) = false →
  data (body (getBookings e q w cache).1) = Some d → d ≠ [] →
  (now_check w' - now_store w < 180000 →
   getBookings e q w' (getBookings e q w cache).2
   = (mkResponse 200
        (mkEnvelope true (Some d) (Some (Z.of_nat (length d))) None None
           (Some true) false true),
      (getBookings e q w cache).2))
  ∧ (180000 <= now_check w' - now_store w →
     cached (body (getBookings e q w' (getBookings e q w cache).2).1) = false).
Proof.
  intros Hcfg Hfresh Hdata Hd.
  rewrite (getBookings_fresh e q w cache d Hfresh Hdata Hd).
  unfold Server.getBookings.
  destruct (getWooConfig e) as [cfg|]; [clear Hcfg|done].
  rewrite lookup_insert_eq. unfold BOOKINGS_TTL_MS.
  change (180 * 1000) with 180000. split.
  - intros Hlt. by destruct (Z.ltb_spec (now_check w' - now_store w) 180000); [|lia].
  - intros Hge. destruct (Z.ltb_spec (now_check w' - now_store w) 180000); [lia|].
    by destruct (defensive_filter _ _ _ _ _).
Qed.

End ListingCache.

Lemma getBookings_cache_round_trip_witness :
  let d := [Server.mkEvent 1 "Booking #1" 1710000000000 1710003600000 2
              (Js.Fin 10)] in
  let stored := (Server.getBookings sample_tzdb sample_dateParse sample_env
                   sample_query sample_world ∅).2 in
  Server.getBookings sample_tzdb sample_dateParse sample_env sample_query
    later_world stored
  = (Server.mkResponse 200
       (Server.mkEnvelope true (Some d) (Some 1) None None (Some true) false
          true),
     stored).
Proof.
  intros d stored.
  destruct (getBookings_cache_round_trip sample_tzdb sample_dateParse sample_env
              sample_query sample_world later_world ∅ d) as [H _].
  - intros H. discriminate H.
  - vm_compute. reflexivity.
  - vm_compute. reflexivity.
  - intros H. discriminate H.
  - apply H. vm_compute. reflexivity.
Defined.

Lemma getBookings_envelope_witness :
  let r := (Server.getBookings sample_tzdb sample_dateParse sample_env
              sample_query sample_world ∅).1 in
  Server.status r = 200
  ∧ ∃ d, Server.data (Server.body r) = Some d
         ∧ Server.total (Server.body r) = Some (Z.of_nat (length d)).
Proof.
  destruct (getBookings_envelope sample_tzdb sample_dateParse sample_env
              sample_query sample_world ∅)
    as (Hstatus & _ & _ & (d & Hd & Ht & _) & _).
  - intros k ts evs Hk. rewrite lookup_empty in Hk. discriminate Hk.
  - split; [exact Hstatus|]. exists d. split; [exact Hd|exact Ht].
Defined.

Section ListingEvents.

Import Js Time Server.

Variable tzdb : string → option (Z → Z).
Variable dateParse : string → option Z.

Local Abbreviation convert := (Server.convert tzdb dateParse).

Lemma number_label_nonempty (prefix : string) (c : ascii) (rest : string) (s : string) :
  prefix = String c rest → prefix +:+ s ≠ EmptyString.
Proof. by intros ->. Qed.


End ListingEvents.

Section Pagination.

Import Server.

Variable upstream : nat → page_result.

Lemma length_concat_bound {A} (n : nat) (ls : list (list A)) :
  Forall (λ l, (length l ≤ n)%nat) ls → (length (concat ls) ≤ length ls * n)%nat.
Proof.
  induction 1 as [|l ls Hl _ IH]; cbn [concat length]; [lia|].
  rewrite length_app. lia.
Qed.

(** X12.  Neither fetcher asks for more than five pages, and when the upstream
    honours the page size they never hold more than 500 records. *)
Theorem paged_fetch_bounded :
  (length (fetchBookingPages upstream).1 ≤ 5)%nat
  ∧ ((∀ p b, upstream p = Page b → (length b ≤ 100)%nat) →
     (length (fetchBookingPages upstream).2 ≤ 500)%nat
     ∧ (length (fetchAvailabilityPages upstream).2 ≤ 500)%nat).
Proof.
  unfold fetchAvailabilityPages, fetchBookingPages.
  rewrite availability_loop_eq.
  destruct (bookings_loop_shape upstream 5 1 [] [] ltac:(lia)) as (k & Hk & -> & _).
  cbn [fst snd app]. split; [rewrite length_seq; lia|].
  intros Hsize.
  assert (length (concat (map (λ p, batch_of (upstream p)) (seq 1 k))) ≤ 500)%nat;
    [|done].
  etransitivity; [apply (length_concat_bound 100)|].
  - apply Forall_forall. intros l (p & -> & _)%list_elem_of_fmap.
    destruct (upstream p) eqn:Hp; cbn [batch_of length]; try lia. by eapply Hsize.
  - rewrite length_map, length_seq. lia.
Qed.

End Pagination.

(** ** The availability range and the cache keys *)

Section RangeTotals.

Import Js Server JsMapFacts.

Variable dateParse : string → option Z.
Variable allowedIds : list Z.

Local Abbreviation grouped := (group_bookings dateParse allowedIds).

(** The participants counted by a list of groups, and by a list of
    slots. *)
Definition total_used (vs : list group) : Z :=
  foldr (λ g acc, g_used g + acc) 0 vs.

Definition total_slots_used (out : list slot) : Z :=
  foldr (λ s acc, s_used s + acc) 0 out.

Lemma total_used_put (k : group_key) (v : group) (m : list (group_key * group)) :
  total_used (JsMap.values (JsMap.put k v m))
  = total_used (JsMap.values m) + g_used v
    - match JsMap.get k m with Some prev => g_used prev | None => 0 end.
Proof.
  unfold JsMap.values, total_used.
  induction m as [|[k' v'] m IH]; cbn [JsMap.put JsMap.get map foldr snd]; [lia|].
  destruct (decide (k' = k)); cbn [map foldr snd]; lia.
Qed.

Lemma total_used_add (m : list (group_key * group)) (b : booking) :
  total_used (JsMap.values (add_booking dateParse allowedIds m b))
  = total_used (JsMap.values m)
    + (if skipped allowedIds b then 0 else parseCounts (person_counts b)).
Proof.
  unfold add_booking. destruct (skipped allowedIds b); [lia|]. cbv zeta.
  destruct (JsMap.get _ m) as [prev|] eqn:Hget;
    rewrite total_used_put, Hget; cbn [g_used]; lia.
Qed.

Lemma total_used_fold (all : list booking) (m : list (group_key * group)) :
  total_used (JsMap.values (fold_left (add_booking dateParse allowedIds) all m))
  = total_used (JsMap.values m)
    + sum_counts (filter (λ b, skipped allowedIds b = false) all).
Proof.
  revert m. induction all as [|b all IH]; intros m; cbn [fold_left].
  - unfold sum_counts. cbn. lia.
  - rewrite IH, total_used_add. destruct (skipped allowedIds b) eqn:Hs.
    + rewrite filter_cons_False by congruence. lia.
    + rewrite filter_cons_True by done. unfold sum_counts. cbn [foldr]. lia.
Qed.

Lemma emit_used names totals (vs : list group) (out : list slot) :
  emit names totals vs = Ok out → s_used <$> out = g_used <$> vs.
Proof.
  revert out. induction vs as [|v vs IH]; intros out; cbn [emit].
  - by intros [= <-].
  - destruct (toISOString (g_start v)); [|done].
    destruct (toISOString (g_end v)); [|done].
    destruct (emit names totals vs) as [out'|]; [|done].
    intros [= <-]. cbn [fmap list_fmap s_used]. f_equal. by apply IH.
Qed.

(** X13.  No participant is lost or counted twice: the [used] counts of the
    groups add up to the participant counts of the admitted records, and so
    do those of the slots that the handler sends. *)
Theorem availability_counts_conserved (all : list booking) :
  total_used (JsMap.values (grouped all))
  = sum_counts (filter (λ b, skipped allowedIds b = false) all)
  ∧ ∀ names totals out,
      emit names totals (JsMap.values (grouped all)) = Ok out →
      total_slots_used out
      = sum_counts (filter (λ b, skipped allowedIds b = false) all).
Proof.
  assert (Hg : total_used (JsMap.values (grouped all))
               = sum_counts (filter (λ b, skipped allowedIds b = false) all)).
  { unfold group_bookings. rewrite total_used_fold. unfold total_used. cbn. lia. }
  split; [done|]. intros names totals out Hout. rewrite <- Hg.
  apply emit_used in Hout. unfold total_slots_used, total_used.
  revert Hout. generalize (JsMap.values (grouped all)). clear Hg.
  induction out as [|s out IH]; intros [|v vs]; cbn; try done.
  intros [= -> H]. by rewrite (IH vs).
Qed.

End RangeTotals.

Section RangeSlots.

Import Js Server JsMapFacts.

Variable dateParse : string → option Z.
Variable allowedIds : list Z.

Local Abbreviation grouped := (group_bookings dateParse allowedIds).

Lemma sum_counts_member (b : booking) (bs : list booking) :
  b ∈ bs → parseCounts (person_counts b) <= sum_counts bs.
Proof.
  induction bs as [|b' bs IH]; [by intros ?%elem_of_nil|].
  unfold sum_counts in *. cbn [foldr].
  intros [->|Hin]%elem_of_cons.
  - assert (0 <= foldr (λ b acc, parseCounts (person_counts b) + acc) 0 bs).
    { clear. induction bs as [|b bs IH]; cbn [foldr]; [lia|].
      pose proof (parseCounts_pos (person_counts b)). lia. }
    lia.
  - specialize (IH Hin). pose proof (parseCounts_pos (person_counts b')). lia.
Qed.

Lemma first_seen_elem {K} `{EqDecision K} (ks : list K) (k : K) :
  k ∈ JsMap.first_seen ks → k ∈ ks.
Proof.
  unfold JsMap.first_seen.
  assert (H' : ∀ seen, k ∈ fold_left
                 (λ seen k, if decide (k ∈ seen) then seen else seen ++ [k]) ks seen →
               k ∈ seen ∨ k ∈ ks).
  { induction ks as [|x ks IH]; intros seen; cbn [fold_left]; [by left|].
    intros [Hin|Hin]%IH; [|by right; right].
    destruct (decide (x ∈ seen)); [by left|].
    apply elem_of_app in Hin as [?|Hx]; [by left|].
    apply list_elem_of_singleton in Hx as ->. right. left. }
  intros [Hin|Hin]%H'; [|done]. by apply elem_of_nil in Hin.
Qed.

Lemma emit_slots names totals (vs : list group) (out : list slot) :
  emit names totals vs = Ok out →
  Forall2 (λ s g, s_product_id s = g_product_id g ∧ Fin (s_start s) = g_start g
                  ∧ s_used s = g_used g) out vs.
Proof.
  revert out. induction vs as [|v vs IH]; intros out; cbn [emit].
  - intros [= <-]. constructor.
  - unfold toISOString at 1. destruct (g_start v) as [| | |z] eqn:Hz; try done.
    destruct (Z.abs z <=? 8640000000000000); [|done].
    destruct (toISOString (g_end v)); [|done].
    destruct (emit names totals vs) as [out'|]; [|done].
    intros [= <-]. constructor; [done|]. by apply IH.
Qed.

(** X14.  The answer has one slot per (product, start) pair; every slot counts
    at least one participant; and when product identifiers were asked for,
    every slot is of one of them. *)
Theorem availability_slots_distinct (all : list booking) names totals
    (out : list slot) :
  emit names totals (JsMap.values (grouped all)) = Ok out →
  NoDup ((λ s, (s_product_id s, s_start s)) <$> out)
  ∧ Forall (λ s, 1 <= s_used s) out
  ∧ (allowedIds ≠ [] →
     Forall (λ s, ∃ pid, s_product_id s = Fin pid ∧ pid ∈ allowedIds) out).
Proof.
  intros Hout. pose proof (emit_order _ _ _ _ Hout) as Hkeys.
  rewrite group_bookings_values_keys in Hkeys.
  assert (Hnd : NoDup ((λ s, (s_product_id s, Fin (s_start s))) <$> out)).
  { rewrite Hkeys. unfold group_bookings.
    apply (NoDup_keys_fold (booking_key dateParse) (skipped allowedIds)
             (booking_init dateParse) (booking_merge dateParse) _
             (add_booking_upsert dateParse allowedIds)).
    constructor. }
  split; [|split].
  - replace ((λ s, (s_product_id s, Fin (s_start s))) <$> out)
      with ((λ k : number * Z, (k.1, Fin k.2))
              <$> ((λ s, (s_product_id s, s_start s)) <$> out)) in Hnd
      by (by rewrite <- list_fmap_compose).
    by apply NoDup_fmap_1 in Hnd.
  - apply emit_slots in Hout. apply Forall_forall. intros s Hs.
    apply list_elem_of_lookup in Hs as [i Hi].
    destruct (Forall2_lookup_l _ _ _ _ _ Hout Hi) as (g & Hg & _ & _ & ->).
    apply list_elem_of_lookup_2 in Hg.
    apply list_elem_of_fmap in Hg as ([k g'] & -> & Hg). cbn [snd].
    pose proof (group_bookings_used dateParse allowedIds k all) as Hu.
    assert (Hget : JsMap.get k (grouped all) = Some g').
    { apply elem_get; [|done]. unfold group_bookings.
      apply (NoDup_keys_fold (booking_key dateParse) (skipped allowedIds)
               (booking_init dateParse) (booking_merge dateParse) _
               (add_booking_upsert dateParse allowedIds)).
      constructor. }
    rewrite Hget in Hu. destruct Hu as (Hne & _ & ->).
    destruct (group_members dateParse allowedIds k all) as [|b bs]; [done|].
    pose proof (sum_counts_member b (b :: bs) ltac:(left)) as Hle.
    pose proof (parseCounts_pos (person_counts b)). lia.
  - intros Hallowed. apply Forall_forall. intros s Hs.
    assert (Hk : (s_product_id s, Fin (s_start s))
                 ∈ (λ s, (s_product_id s, Fin (s_start s))) <$> out)
      by (apply list_elem_of_fmap; eauto).
    rewrite Hkeys, group_bookings_order in Hk.
    apply first_seen_elem in Hk.
    apply list_elem_of_fmap in Hk as (b & Hkb & Hb).
    apply list_elem_of_filter in Hb as [Hskip _].
    injection Hkb as Hpid _. rewrite Hpid. unfold skipped in Hskip.
    destruct allowedIds as [|a l]; [done|].
    destruct (product_id b) as [| | |pid]; try done.
    exists pid. split; [done|]. apply negb_false_iff in Hskip.
    by apply bool_decide_eq_true in Hskip.
Qed.

End RangeSlots.

Lemma availability_slots_distinct_witness :
  NoDup ((λ s, (Server.s_product_id s, Server.s_start s)) <$> sample_slots)
  ∧ Forall (λ s, 1 <= Server.s_used s) sample_slots.
Proof.
  destruct (availability_slots_distinct sample_dateParse []
              [late_booking; early_booking] (λ _, None) (λ _, None)
              sample_slots) as (Hnd & Hused & _).
  - vm_compute. reflexivity.
  - split; [exact Hnd|exact Hused].
Defined.

Section CacheKeyFacts.

Import Js CacheKeys.

Lemma first_seen_spec {K} `{EqDecision K} (ks seen : list K) :
  NoDup seen →
  NoDup (fold_left (λ seen k, if decide (k ∈ seen) then seen else seen ++ [k])
           ks seen)
  ∧ ∀ k, k ∈ fold_left (λ seen k, if decide (k ∈ seen) then seen else seen ++ [k])
               ks seen
         ↔ k ∈ seen ∨ k ∈ ks.
Proof.
  revert seen. induction ks as [|x ks IH]; intros seen Hnd; cbn [fold_left].
  - split; [done|]. intros k. rewrite elem_of_nil. tauto.
  - destruct (decide (x ∈ seen)) as [Hin|Hout].
    + destruct (IH seen Hnd) as [H1 H2]. split; [done|]. intros k.
      rewrite H2, elem_of_cons. split; [tauto|]. intros [?|[->|?]]; tauto.
    + destruct (IH (seen ++ [x])) as [H1 H2].
      { apply NoDup_app. split; [done|]. split; [|apply NoDup_singleton].
        intros y Hy ->%list_elem_of_singleton. done. }
      split; [done|]. intros k.
      rewrite H2, elem_of_app, list_elem_of_singleton, elem_of_cons. tauto.
Qed.

Lemma sort_by_value_permutation (l l' : list Z) :
  l ≡ₚ l' → Client.sort by_value l = Client.sort by_value l'.
Proof.
  intros Hp. apply sort_permutation_eq; [done|..]; unfold after, by_value;
    cbn [gtb ltb]; intros; lia.
Qed.

Lemma skipped_ext (a a' : list Z) (b : Server.booking) :
  (∀ v, v ∈ a ↔ v ∈ a') → Server.skipped a b = Server.skipped a' b.
Proof.
  intros Hsame. unfold Server.skipped.
  destruct a as [|x a], a' as [|x' a']; [done| | |].
  - exfalso. apply (elem_of_nil x'), Hsame. left.
  - exfalso. apply (elem_of_nil x), Hsame. left.
  - destruct (Server.product_id b) as [| | |pid]; try done.
    f_equal. apply bool_decide_ext, Hsame.
Qed.

Lemma group_bookings_ext dateParse (a a' : list Z) (all : list Server.booking) :
  (∀ v, v ∈ a ↔ v ∈ a') →
  Server.group_bookings dateParse a all = Server.group_bookings dateParse a' all.
Proof.
  intros Hsame. unfold Server.group_bookings. generalize (@nil (Server.group_key * Server.group)).
  induction all as [|b all IH]; intros m; cbn [fold_left]; [done|].
  rewrite IH. f_equal. unfold Server.add_booking.
  by rewrite (skipped_ext a a' b Hsame).
Qed.

(** X15.  For given dates, the key of the range cache depends only on which
    positive identifiers are asked for, not on their order or repetition;
    and so does the answer of the handler: requests that differ only in
    this share one cache entry and have one answer. *)
Theorem availabilityRangeKey_set (min_date max_date : option string)
    (ids ids' : list (option Z)) :
  (∀ v, 0 < v → Some v ∈ ids ↔ Some v ∈ ids') →
  availabilityRangeKey min_date max_date ids
  = availabilityRangeKey min_date max_date ids'
  ∧ ∀ dateParse e cached now upstream names totals,
      Server.handleAvailabilityRange dateParse e ids cached now upstream
        names totals
      = Server.handleAvailabilityRange dateParse e ids' cached now upstream
          names totals.
Proof.
  intros Hsame.
  set (f := λ n : option Z, match n with
                            | Some v => if 0 <? v then Some v else None
                            | None => None
                            end).
  assert (Hf : ∀ (l : list (option Z)) v,
             v ∈ omap f l ↔ (0 < v ∧ Some v ∈ l)).
  { intros l v. rewrite list_elem_of_omap. split.
    - intros ([x|] & Hx & Hfx); [|done]. unfold f in Hfx.
      destruct (Z.ltb_spec 0 x); [|done]. injection Hfx as ->. done.
    - intros [Hv Hin]. exists (Some v). split; [done|]. unfold f.
      by destruct (Z.ltb_spec 0 v); [|lia]. }
  assert (Hmem : ∀ v, v ∈ omap f ids ↔ v ∈ omap f ids').
  { intros v. rewrite !Hf. specialize (Hsame v). tauto. }
  split.
  - unfold availabilityRangeKey, join_ids.
    rewrite (sort_by_value_permutation (allowed_set ids) (allowed_set ids'));
      [done|].
    unfold allowed_set, JsMap.first_seen. fold f.
    destruct (first_seen_spec (omap f ids) [] (NoDup_nil_2)) as [N1 E1].
    destruct (first_seen_spec (omap f ids') [] (NoDup_nil_2)) as [N2 E2].
    apply NoDup_Permutation; [done..|]. intros v. rewrite E1, E2.
    rewrite !elem_of_nil. specialize (Hmem v). tauto.
  - intros dateParse e cached now upstream names totals.
    unfold Server.handleAvailabilityRange. fold f.
    by rewrite (group_bookings_ext dateParse _ _ _ Hmem).
Qed.

(** X16.  The client's key does not depend on the order of the identifiers. *)
Theorem availabilityKey_permutation (startDate endDate : string)
    (ids ids' : list Z) :
  ids ≡ₚ ids' →
  availabilityKey startDate endDate ids = availabilityKey startDate endDate ids'.
Proof.
  intros Hp. unfold availabilityKey, join_ids.
  by rewrite (sort_by_value_permutation ids ids').
Qed.

End CacheKeyFacts.

Lemma availabilityKey_permutation_witness :
  CacheKeys.availabilityKey "2024-03-01" "2024-03-31" [3; 1]
  = CacheKeys.availabilityKey "2024-03-01" "2024-03-31" [1; 3].
Proof.
  apply (availabilityKey_permutation "2024-03-01" "2024-03-31" [3; 1] [1; 3]).
  apply perm_swap.
Defined.

Lemma availabilityRangeKey_set_witness :
  CacheKeys.availabilityRangeKey (Some "2024-03-01"%string)
    (Some "2024-03-31"%string) [Some 3; Some 1; None; Some 3; Some (-2)]
  = CacheKeys.availabilityRangeKey (Some "2024-03-01"%string)
      (Some "2024-03-31"%string) [Some 1; Some 3].
Proof.
  apply (availabilityRangeKey_set (Some "2024-03-01"%string)
           (Some "2024-03-31"%string) [Some 3; Some 1; None; Some 3; Some (-2)]
           [Some 1; Some 3]).
  intros v Hv. rewrite !elem_of_cons, !elem_of_nil.
  split; intros H; repeat destruct H as [H|H]; try discriminate H;
    try (injection H as ->); try lia; auto.
Defined.

Example availabilityRangeKey_sample :
  CacheKeys.availabilityRangeKey (Some "2024-03-01"%string)
    (Some "2024-03-31"%string) [Some 3; Some 1; None; Some 3; Some (-2)]
  = "2024-03-01|2024-03-31|1,3"%string.
Proof. vm_compute. reflexivity. Qed.

(** ** The client's index and filters *)

Section IndexFacts.

Import Js Client JsMapFacts.

Variable localOffset : Z → Z.
Variable localeCompare : string → string → Z.

Local Abbreviation index := (index_by_date localOffset localeCompare).
Local Abbreviation day_of := (λ x : avail_slot, local_day localOffset (slot_start x)).

(** Each day of the index holds the slots that start on that local day,
    all of them and no others, and no day is empty. *)
Lemma index_partition (slots : list avail_slot) (k : day_key) :
  match JsMap.get k (index slots) with
  | Some bucket =>
      bucket ≠ [] ∧ bucket ≡ₚ filter (λ x, day_of x = k) slots
  | None => filter (λ x, day_of x = k) slots = []
  end.
Proof.
  rewrite index_by_date_entry. unfold day_members, members.
  assert (Hf : filter (λ e : avail_slot,
                 (λ _ : avail_slot, false) e = false
                 ∧ slot_day localOffset e = k) slots
               = filter (λ x, day_of x = k) slots).
  { apply list_filter_iff. intros x. unfold slot_day. tauto. }
  rewrite Hf. clear Hf. destruct (filter _ slots) as [|x ms]; [done|].
  split; [|apply sort_permutation].
  intros Hnil. pose proof (sort_permutation (compare_slots localeCompare) (x :: ms)) as Hp.
  rewrite Hnil in Hp. by apply Permutation_nil_cons in Hp.
Qed.

Section Collation.

Hypothesis lc_asym : ∀ a b, 0 < localeCompare a b → ¬ 0 < localeCompare b a.
Hypothesis lc_sym : ∀ a b, localeCompare a b < 0 → 0 < localeCompare b a.
Hypothesis lc_trans :
  ∀ a b c, 0 < localeCompare a b → 0 < localeCompare b c → 0 < localeCompare a c.

Lemma index_sorted (slots : list avail_slot) (k : day_key)
    (bucket : list avail_slot) :
  Forall clipped slots →
  JsMap.get k (index slots) = Some bucket →
  Sorted (ascending localeCompare) bucket.
Proof.
  intros Hclip. rewrite index_by_date_entry.
  destruct (day_members localOffset k slots) as [|x ms] eqn:Hm; [done|].
  intros Heq.
  assert (bucket = sort (compare_slots localeCompare) (x :: ms)) as ->
    by congruence.
  clear Heq.
  assert (Hcl : Forall clipped (x :: ms)).
  { apply Forall_forall. intros y Hy. rewrite <- Hm in Hy.
    apply day_members_elem in Hy as [Hy _].
    by apply (proj1 (Forall_forall _ _) Hclip). }
  apply (Sorted_transfer (λ a b, ¬ after (compare_slots localeCompare) a b) _ clipped).
  - intros a b. by apply (not_after_ascending localOffset).
  - by rewrite sort_permutation.
  - apply sort_Sorted. intros a b Ha Hb.
    apply (sorts_after_asym localOffset localeCompare lc_asym);
      by apply (proj1 (Forall_forall _ _) Hcl).
Qed.

Lemma index_independent (slots slots' : list avail_slot) :
  slots ≡ₚ slots' → Forall clipped slots →
  no_ties localOffset localeCompare slots →
  ∀ k, JsMap.get k (index slots) = JsMap.get k (index slots').
Proof.
  intros Hp Hclip Hties k. rewrite !index_by_date_entry.
  pose proof (members_permutation (slot_day localOffset) (λ _, false) k _ _ Hp)
    as Hm.
  fold (day_members localOffset k slots) in Hm.
  fold (day_members localOffset k slots') in Hm.
  destruct (day_members localOffset k slots) as [|x ms] eqn:H1,
           (day_members localOffset k slots') as [|x' ms'] eqn:H2.
  - done.
  - by apply Permutation_nil_cons in Hm.
  - symmetry in Hm. by apply Permutation_nil_cons in Hm.
  - f_equal.
    assert (Hel : ∀ y, y ∈ x :: ms →
                       y ∈ slots ∧ slot_day localOffset y = k ∧ clipped y).
    { intros y Hy. rewrite <- H1 in Hy. apply day_members_elem in Hy as [Hy Hk].
      split; [done|]. split; [done|].
      by apply (proj1 (Forall_forall _ _) Hclip). }
    apply sort_permutation_eq; [done| | |].
    + intros a b Ha Hb Hne.
      destruct (Hel a Ha) as (Hia & Hka & Hca), (Hel b Hb) as (Hib & Hkb & Hcb).
      apply (sorts_after_total localOffset localeCompare lc_sym);
        [done|done|congruence|].
      intros Hst. apply Hties; try done. unfold slot_day in *. congruence.
    + intros a b Ha Hb.
      destruct (Hel a Ha) as (_ & _ & Hca), (Hel b Hb) as (_ & _ & Hcb).
      by apply (sorts_after_asym localOffset localeCompare lc_asym).
    + intros a b c Ha Hb Hc.
      destruct (Hel a Ha) as (_ & Hka & Hca), (Hel b Hb) as (_ & Hkb & Hcb),
               (Hel c Hc) as (_ & Hkc & Hcc).
      apply (sorts_after_trans localOffset localeCompare lc_trans);
        try done; congruence.
Qed.

End Collation.

End IndexFacts.

Section FromServer.

Import Js Client.

Variable localOffset : Z → Z.
Variable localeCompare : string → string → Z.

Local Abbreviation fromServer := (buildFromServer localOffset localeCompare).

Lemma server_slots_clipped (data : list Server.slot) :
  Forall clipped (map slot_of_server data).
Proof.
  apply Forall_fmap, Forall_true. intros it.
  unfold clipped, slot_of_server. cbn [slot_start]. apply time_clip_idemp.
Qed.

(** X17.  Whatever order the server lists the slots in, the index built from
    its answer shows every day in ascending order of start time and then
    product name; and without ties the index is the same for every order
    of the answer. *)
Theorem buildFromServer_restores_order (data data' : list Server.slot) :
  (∀ a b, 0 < localeCompare a b → ¬ 0 < localeCompare b a) →
  (∀ a b, localeCompare a b < 0 → 0 < localeCompare b a) →
  (∀ a b c, 0 < localeCompare a b → 0 < localeCompare b c →
            0 < localeCompare a c) →
  (∀ k bucket, JsMap.get k (fromServer data) = Some bucket →
               Sorted (ascending localeCompare) bucket)
  ∧ (data ≡ₚ data' →
     no_ties localOffset localeCompare (map slot_of_server data) →
     ∀ k, JsMap.get k (fromServer data) = JsMap.get k (fromServer data')).
Proof.
  intros Hasym Hsym Htrans. unfold buildFromServer. split.
  - intros k bucket. apply index_sorted; [done|]. apply server_slots_clipped.
  - intros Hp Hties. apply index_independent; try done.
    + by apply Permutation_map.
    + apply server_slots_clipped.
Qed.

(** X18.  In the index built from the server's answer every slot is listed
    under the local calendar day of its start, once, and no day is listed
    without a slot. *)
Theorem buildFromServer_partition (data : list Server.slot) (k : day_key) :
  match JsMap.get k (fromServer data) with
  | Some bucket =>
      bucket ≠ []
      ∧ bucket ≡ₚ filter (λ x, local_day localOffset (slot_start x) = k)
                     (map slot_of_server data)
  | None =>
      filter (λ x, local_day localOffset (slot_start x) = k)
        (map slot_of_server data) = []
  end.
Proof. apply index_partition. Qed.

End FromServer.

Lemma buildFromServer_restores_order_witness :
  Sorted (Client.ascending by_length)
    [Client.mkAvail (Js.Fin 11) "Product #11" (Js.Fin 1710000000000)
       (Js.Fin 1710003600000) 3 None;
     Client.mkAvail (Js.Fin 10) "Product #10" (Js.Fin 1710010000000)
       (Js.Fin 1710013600000) 2 None].
Proof.
  destruct (buildFromServer_restores_order (λ _, 0) by_length sample_slots
              (rev sample_slots)) as [H _].
  - unfold by_length. intros a b. lia.
  - unfold by_length. intros a b. lia.
  - unfold by_length. intros a b c. lia.
  - apply (H (Some (2024, 3, 9))). vm_compute. reflexivity.
Defined.

Section CachedAvailability.

Import Client.

Lemma exec_cached (k : string) (d : data) (a : action) (s : service) :
  availabilityCache s !! k = Some d → availabilityInflight s !! k = None →
  availabilityCache (exec a s).2 !! k = Some d
  ∧ availabilityInflight (exec a s).2 !! k = None
  ∧ loads_of k (exec a s).2 = loads_of k s
  ∧ (a = Call k → (exec a s).1 = Some (Cached d)).
Proof.
  intros Hc Hi. destruct a as [k'|k' r]; cbn [exec].
  - unfold getAvailabilityBlocks. destruct (decide (k' = k)) as [->|Hne].
    + rewrite Hc. cbn. done.
    + destruct (availabilityCache s !! k') as [d'|]; [cbn; by repeat split; try congruence|].
      destruct (availabilityInflight s !! k') as [p|];
        [cbn; by repeat split; try congruence|].
      cbn [fst snd availabilityCache availabilityInflight].
      rewrite lookup_insert_ne by done.
      repeat split; try done; [|congruence].
      unfold loads_of. cbn [loads]. rewrite filter_app, length_app.
      rewrite filter_cons_False by done. cbn. lia.
  - destruct (availabilityInflight s !! k') as [p|] eqn:Hp; cbn [fst snd];
      [|by repeat split].
    assert (k' ≠ k) by congruence. unfold settle.
    cbn [availabilityCache availabilityInflight loads].
    rewrite lookup_delete_ne by done.
    repeat split; try done. destruct r; [by rewrite lookup_insert_ne|done].
Qed.

(** In a state that the service can reach, a key with a cached value has
    no loader in flight: the loader caches and leaves in one step. *)
Definition settled (s : service) : Prop :=
  ∀ k, is_Some (availabilityCache s !! k) → availabilityInflight s !! k = None.

Lemma exec_settled (a : action) (s : service) : settled s → settled (exec a s).2.
Proof.
  intros Hs k. destruct a as [k'|k' r]; cbn [exec].
  - unfold getAvailabilityBlocks.
    destruct (availabilityCache s !! k') as [d'|] eqn:Hc; [apply Hs|].
    destruct (availabilityInflight s !! k') as [p|]; [apply Hs|].
    cbn [fst snd availabilityCache availabilityInflight].
    destruct (decide (k' = k)) as [->|Hne].
    + rewrite Hc. by intros [? ?].
    + rewrite lookup_insert_ne by done. apply Hs.
  - destruct (availabilityInflight s !! k') as [p|]; [|apply Hs].
    cbn [snd]. unfold settle. cbn [availabilityCache availabilityInflight].
    destruct (decide (k' = k)) as [->|Hne]; [by rewrite lookup_delete_eq|].
    rewrite lookup_delete_ne by done.
    destruct r; [rewrite lookup_insert_ne by done|]; apply Hs.
Qed.

Lemma run_settled (acts : list action) (s : service) :
  settled s → settled (run acts s).2.
Proof.
  revert s. induction acts as [|a acts IH]; intros s Hs; [done|].
  rewrite run_cons. cbn [snd]. by apply IH, exec_settled.
Qed.

Lemma run_cached (k : string) (d : data) (acts : list action) (s : service) :
  availabilityCache s !! k = Some d → availabilityInflight s !! k = None →
  availabilityCache (run acts s).2 !! k = Some d
  ∧ loads_of k (run acts s).2 = loads_of k s
  ∧ ∀ i, acts !! i = Some (Call k) →
         (run acts s).1 !! i = Some (Some (Cached d)).
Proof.
  revert s. induction acts as [|a acts IH]; intros s Hc Hi; [done|].
  rewrite run_cons. cbn [fst snd].
  destruct (exec_cached k d a s Hc Hi) as (Hc' & Hi' & Hl & Ha).
  destruct (IH _ Hc' Hi') as (H1 & H2 & H3).
  split; [done|]. split; [congruence|].
  intros [|i] Hl'; [|by apply H3]. cbn in Hl'. injection Hl' as ->.
  by rewrite Ha.
Qed.

(** X19.  A cached value is final.  Let the service, started empty, have come
    to hold a value for a key.  Then every later call for the key is
    answered with that value, no loader is started for the key any more,
    and nothing that happens for other keys changes the value: the cache
    has no expiry. *)
Theorem cached_availability_is_final (k : string) (d : data)
    (before acts : list action) :
  availabilityCache (run before new_service).2 !! k = Some d →
  availabilityCache (run acts (run before new_service).2).2 !! k = Some d
  ∧ loads_of k (run acts (run before new_service).2).2
    = loads_of k (run before new_service).2
  ∧ ∀ i, acts !! i = Some (Call k) →
         (run acts (run before new_service).2).1 !! i = Some (Some (Cached d)).
Proof.
  intros Hc. apply run_cached; [done|].
  apply (run_settled before new_service); [|by rewrite Hc].
  intros k' [? Hk']. cbn [new_service availabilityCache] in Hk'.
  by rewrite lookup_empty in Hk'.
Qed.

End CachedAvailability.

Lemma cached_availability_is_final_witness :
  let k := "2024-03-01|2024-03-31|"%string in
  let before := [Client.Call k; Client.Settle k (Some [])] in
  (Client.run [Client.Call k; Client.Call k]
     (Client.run before Client.new_service).2).1
  !! 1%nat = Some (Some (Client.Cached []))
  ∧ Client.loads_of k
      (Client.run [Client.Call k; Client.Call k]
         (Client.run before Client.new_service).2).2 = 1%nat.
Proof.
  intros k before.
  destruct (cached_availability_is_final k [] before
              [Client.Call k; Client.Call k]) as (_ & Hloads & Hans).
  - vm_compute. reflexivity.
  - split; [apply Hans; reflexivity|]. rewrite Hloads. vm_compute. reflexivity.
Defined.

Section InstructorFilters.

Import Js Client.

Variable localOffset : Z → Z.

Lemma filter_sublist_impl {A} (P Q : A → Prop)
    `{∀ x, Decision (P x)} `{∀ x, Decision (Q x)} (l : list A) :
  (∀ x, P x → Q x) → filter P l `sublist_of` filter Q l.
Proof.
  intros Himp. induction l as [|x l IH]; [done|].
  destruct (decide (P x)) as [HP|HP].
  - rewrite !filter_cons_True by auto. by apply sublist_skip.
  - rewrite (filter_cons_False P) by done.
    destruct (decide (Q x)); [rewrite filter_cons_True by done; by apply sublist_cons|].
    by rewrite filter_cons_False.
Qed.

Lemma loadMonth_keep_spec (assigned : list calendar_event) (e : calendar_event) :
  loadMonth_keep localOffset assigned e = true
  ↔ ∃ a, a ∈ assigned
         ∧ (tier_id e a || tier_product_time e a
            || tier_product_day localOffset e a || tier_time e a) = true.
Proof.
  unfold loadMonth_keep. split.
  - destruct (existsb (tier_id e) assigned) eqn:H1.
    { apply existsb_exists in H1 as (a & Ha & Ht). intros _. exists a.
      split; [by apply list_elem_of_In|]. by rewrite Ht. }
    destruct (existsb (tier_product_time e) assigned) eqn:H2.
    { apply existsb_exists in H2 as (a & Ha & Ht). intros _. exists a.
      split; [by apply list_elem_of_In|]. rewrite Ht. by rewrite orb_true_r. }
    destruct (existsb (tier_product_day localOffset e) assigned) eqn:H3.
    { apply existsb_exists in H3 as (a & Ha & Ht). intros _. exists a.
      split; [by apply list_elem_of_In|]. rewrite Ht. by rewrite !orb_true_r. }
    intros (a & Ha & Ht)%existsb_exists. exists a.
    split; [by apply list_elem_of_In|]. rewrite Ht. by rewrite !orb_true_r.
  - intros (a & Ha%list_elem_of_In & Ht).
    destruct (existsb (tier_id e) assigned) eqn:H1; [done|].
    destruct (existsb (tier_product_time e) assigned) eqn:H2; [done|].
    destruct (existsb (tier_product_day localOffset e) assigned) eqn:H3; [done|].
    apply existsb_exists. exists a. split; [done|].
    assert (tier_id e a = false) as Hn1.
    { destruct (tier_id e a) eqn:E; [|done]. rewrite <- H1. symmetry.
      apply existsb_exists. eauto. }
    assert (tier_product_time e a = false) as Hn2.
    { destruct (tier_product_time e a) eqn:E; [|done]. rewrite <- H2. symmetry.
      apply existsb_exists. eauto. }
    assert (tier_product_day localOffset e a = false) as Hn3.
    { destruct (tier_product_day localOffset e a) eqn:E; [|done]. rewrite <- H3.
      symmetry. apply existsb_exists. eauto. }
    by rewrite Hn1, Hn2, Hn3 in Ht.
Qed.

Lemma refresh_keep_spec (assigned : list calendar_event) (e : calendar_event) :
  refresh_keep localOffset assigned e = true
  ↔ ∃ a, a ∈ assigned
         ∧ (tier_product_time e a || tier_product_day localOffset e a
            || tier_time e a) = true.
Proof.
  unfold refresh_keep. split.
  - destruct (existsb (tier_product_time e) assigned) eqn:H2.
    { apply existsb_exists in H2 as (a & Ha & Ht). intros _. exists a.
      split; [by apply list_elem_of_In|]. by rewrite Ht. }
    destruct (existsb (tier_product_day localOffset e) assigned) eqn:H3.
    { apply existsb_exists in H3 as (a & Ha & Ht). intros _. exists a.
      split; [by apply list_elem_of_In|]. rewrite Ht. by rewrite !orb_true_r. }
    intros (a & Ha & Ht)%existsb_exists. exists a.
    split; [by apply list_elem_of_In|]. rewrite Ht. by rewrite !orb_true_r.
  - intros (a & Ha%list_elem_of_In & Ht).
    destruct (existsb (tier_product_time e) assigned) eqn:H2; [done|].
    destruct (existsb (tier_product_day localOffset e) assigned) eqn:H3; [done|].
    apply existsb_exists. exists a. split; [done|].
    assert (tier_product_time e a = false) as Hn2.
    { destruct (tier_product_time e a) eqn:E; [|done]. rewrite <- H2. symmetry.
      apply existsb_exists. eauto. }
    assert (tier_product_day localOffset e a = false) as Hn3.
    { destruct (tier_product_day localOffset e a) eqn:E; [|done]. rewrite <- H3.
      symmetry. apply existsb_exists. eauto. }
    by rewrite Hn2, Hn3 in Ht.
Qed.

(** X20.  The order of the tiers has no effect on what is shown: the filter of
    [loadMonth] keeps an event exactly when some assigned booking matches
    it on some tier, and the filter of [refreshBookings] exactly when some
    assigned booking matches it on one of the three tiers it has. *)
Theorem instructor_filters_any_tier
    (allEvents assigned : list calendar_event) (e : calendar_event) :
  (e ∈ loadMonth_filter localOffset true allEvents assigned
   ↔ e ∈ allEvents
     ∧ ∃ a, a ∈ assigned
            ∧ (tier_id e a || tier_product_time e a
               || tier_product_day localOffset e a || tier_time e a) = true)
  ∧ (e ∈ refresh_filter localOffset true allEvents assigned
     ↔ e ∈ allEvents
       ∧ ∃ a, a ∈ assigned
              ∧ (tier_product_time e a || tier_product_day localOffset e a
                 || tier_time e a) = true).
Proof.
  unfold loadMonth_filter, refresh_filter. split.
  - rewrite list_elem_of_filter, loadMonth_keep_spec. tauto.
  - rewrite list_elem_of_filter, refresh_keep_spec. tauto.
Qed.

(** X21.  What [refreshBookings] shows is part of what [loadMonth] shows, which
    is part of all events, in their order; with the filter off both show
    everything, and an instructor without assigned bookings is shown
    nothing. *)
Theorem refresh_within_loadMonth (filterActive : bool)
    (allEvents assigned : list calendar_event) :
  refresh_filter localOffset filterActive allEvents assigned
    `sublist_of` loadMonth_filter localOffset filterActive allEvents assigned
  ∧ loadMonth_filter localOffset filterActive allEvents assigned
      `sublist_of` allEvents
  ∧ loadMonth_filter localOffset false allEvents assigned = allEvents
  ∧ refresh_filter localOffset false allEvents assigned = allEvents
  ∧ loadMonth_filter localOffset true allEvents [] = []
  ∧ refresh_filter localOffset true allEvents [] = [].
Proof.
  unfold loadMonth_filter, refresh_filter. repeat split.
  - destruct filterActive; [|done]. apply filter_sublist_impl. intros e.
    rewrite loadMonth_keep_spec, refresh_keep_spec.
    intros (a & Ha & Ht). exists a. split; [done|].
    destruct (tier_id e a); [done|]. exact Ht.
  - destruct filterActive; [apply sublist_filter|done].
  - induction allEvents as [|e l IH]; [done|].
    by rewrite filter_cons_False.
  - induction allEvents as [|e l IH]; [done|].
    by rewrite filter_cons_False.
Qed.

End InstructorFilters.

(** ** The month grid and the navigation of the calendar *)

Section GridFacts.

Import Cal CalFacts Grid.

Lemma civil_fields (z : Z) :
  1 <= getMonth z + 1 <= 12 ∧ 1 <= getDate z <= 31
  ∧ days_to_month (getFullYear z) (getMonth z) + getDate z - 1 = z.
Proof.
  pose proof (days_of_civil z) as H. unfold getMonth, getDate, getFullYear.
  destruct (civil_of_days z) as [[y m] d]. cbn [fst snd].
  replace (m - 1 + 1) with m by lia. exact H.
Qed.

Lemma setDate_shift (z dt : Z) : setDate z dt = z + (dt - getDate z).
Proof.
  destruct (civil_fields z) as (Hm & Hd & Hz). unfold setDate.
  pose proof (MakeDay_in_range (getFullYear z) (getMonth z + 1) dt Hm) as H.
  replace (getMonth z + 1 - 1) with (getMonth z) in H by lia. lia.
Qed.

Lemma addDays_shift (z n : Z) : addDays z n = z + n.
Proof. unfold addDays. rewrite setDate_shift. lia. Qed.

Lemma fill_consecutive (n : nat) (z : Z) :
  fill n z = map (λ i, z + Z.of_nat i) (seq 0 n).
Proof.
  revert z. induction n as [|n IH]; intros z; [done|].
  cbn [fill seq map]. rewrite IH, setDate_shift. f_equal; [f_equal; lia|].
  rewrite <- seq_shift, map_map. apply map_ext. intros i. lia.
Qed.

Lemma days_in_month_28 (y m : Z) : 28 <= days_in_month y m.
Proof.
  unfold days_in_month. destruct (m =? 2); [by destruct (leap y)|].
  by destruct (_ || _).
Qed.

(** A day of the month up to the 28th exists in every month, so that
    [MakeDay] with any month number lands on that day of the month meant. *)
Lemma civil_MakeDay (y mo d : Z) :
  1 <= d <= 28 →
  civil_of_days (MakeDay y mo d) = (y + mo / 12, mo mod 12 + 1, d).
Proof.
  intros Hd. unfold MakeDay.
  pose proof (civil_of_days_of (y + mo / 12) (mo mod 12 + 1) d) as H.
  replace (mo mod 12 + 1 - 1) with (mo mod 12) in H by lia.
  apply H; [zdiv|].
  pose proof (days_in_month_28 (y + mo / 12) (mo mod 12 + 1)). lia.
Qed.

Lemma fields_MakeDay (y mo d : Z) :
  1 <= d <= 28 →
  getFullYear (MakeDay y mo d) = y + mo / 12
  ∧ getMonth (MakeDay y mo d) = mo mod 12
  ∧ getDate (MakeDay y mo d) = d.
Proof.
  intros Hd. unfold getFullYear, getMonth, getDate.
  rewrite (civil_MakeDay _ _ _ Hd). cbn [fst snd]. lia.
Qed.

(** X22.  The grid of a month has 42 consecutive days, starts on a Sunday at
    most six days before the first of the month, and holds every day of
    the month. *)
Theorem month_grid_covers_month (date : Z) :
  ∃ start,
    getDaysInMonth date = map (λ i, start + Z.of_nat i) (seq 0 42)
    ∧ getDay start = 0
    ∧ 0 <= newDate (getFullYear date) (getMonth date) 1 - start <= 6
    ∧ ∀ day, getFullYear day = getFullYear date →
             getMonth day = getMonth date →
             day ∈ getDaysInMonth date.
Proof.
  destruct (civil_fields date) as (Hm & Hd & Hz).
  set (y := getFullYear date) in *. set (m := getMonth date) in *.
  set (first := newDate y m 1).
  assert (Hfirst : first = days_to_month y m).
  { unfold first, newDate.
    pose proof (MakeDay_in_range y (m + 1) 1 Hm) as H.
    replace (m + 1 - 1) with m in H by lia. lia. }
  exists (first - getDay first).
  assert (Hwd : 0 <= getDay first < 7) by (unfold getDay; zdiv).
  assert (Hgrid : getDaysInMonth date
                  = map (λ i, first - getDay first + Z.of_nat i) (seq 0 42)).
  { unfold getDaysInMonth. fold y m first.
    rewrite setDate_shift, fill_consecutive.
    apply map_ext. intros i. lia. }
  split; [done|]. split; [unfold getDay in *; zdiv|]. split; [lia|].
  intros day Hy Hmo. destruct (civil_fields day) as (_ & Hd' & Hz').
  rewrite Hy, Hmo in Hz'. fold y m in Hz'.
  rewrite Hgrid. apply list_elem_of_fmap.
  exists (Z.to_nat (getDate day - 1 + getDay first)).
  split; [lia|]. apply list_elem_of_In, in_seq. lia.
Qed.

(** X23.  From a day up to the 28th, [navigateMonth] goes to the same day of
    the next or of the previous month, and going there and back returns to
    the day started from. *)
Theorem navigateMonth_round_trip (date : Z) :
  getDate date <= 28 →
  let index d := getFullYear d * 12 + getMonth d in
  index (navigateMonth next date) = index date + 1
  ∧ index (navigateMonth prev date) = index date - 1
  ∧ getDate (navigateMonth next date) = getDate date
  ∧ getDate (navigateMonth prev date) = getDate date
  ∧ navigateMonth prev (navigateMonth next date) = date
  ∧ navigateMonth next (navigateMonth prev date) = date.
Proof.
  intros H28 index. destruct (civil_fields date) as (Hm & Hd & Hz).
  assert (Hd28 : 1 <= getDate date <= 28) by lia.
  assert (Hnav : ∀ k, getFullYear (setMonth date (getMonth date + k))
                      = getFullYear date + (getMonth date + k) / 12
                    ∧ getMonth (setMonth date (getMonth date + k))
                      = (getMonth date + k) mod 12
                    ∧ getDate (setMonth date (getMonth date + k)) = getDate date).
  { intros k. unfold setMonth. by apply fields_MakeDay. }
  assert (Hback : ∀ k, setMonth (setMonth date (getMonth date + k))
                         (getMonth (setMonth date (getMonth date + k)) - k)
                       = date).
  { intros k. destruct (Hnav k) as (Hy & Hmo & Hdt).
    unfold setMonth at 1. rewrite Hy, Hmo, Hdt. unfold MakeDay.
    replace (getFullYear date + (getMonth date + k) / 12
             + ((getMonth date + k) mod 12 - k) / 12)
      with (getFullYear date) by zdiv.
    replace (((getMonth date + k) mod 12 - k) mod 12) with (getMonth date)
      by zdiv.
    lia. }
  unfold navigateMonth, index.
  destruct (Hnav 1) as (Hy1 & Hm1 & Hd1), (Hnav (-1)) as (Hy2 & Hm2 & Hd2).
  split; [rewrite Hy1, Hm1; zdiv|]. split; [rewrite Hy2, Hm2; zdiv|].
  split; [done|]. split; [done|]. split.
  - pose proof (Hback 1) as Hb.
    set (X := getMonth (setMonth date (getMonth date + 1))) in *.
    replace (X + -1) with (X - 1) by lia. exact Hb.
  - pose proof (Hback (-1)) as Hb.
    set (X := getMonth (setMonth date (getMonth date + -1))) in *.
    replace (X + 1) with (X - -1) by lia. exact Hb.
Qed.

(** X24.  The week strip shows seven consecutive days, and the strips reached
    with [navigateWeek] tile the calendar: the next strip starts the day
    after the last one shown, on the same weekday, and going back returns
    to the strip left. *)
Theorem week_strips_tile (weeklyStart : Z) :
  getWeekDays weeklyStart 7 = map (λ i, weeklyStart + Z.of_nat i) (seq 0 7)
  ∧ navigateWeek next weeklyStart = weeklyStart + 7
  ∧ getDay (navigateWeek next weeklyStart) = getDay weeklyStart
  ∧ navigateWeek prev (navigateWeek next weeklyStart) = weeklyStart
  ∧ navigateWeek next (navigateWeek prev weeklyStart) = weeklyStart.
Proof.
  unfold getWeekDays, navigateWeek. rewrite !addDays_shift.
  split; [apply map_ext; intros i; apply addDays_shift|].
  split; [done|]. split; [unfold getDay; zdiv|]. split; lia.
Qed.

End GridFacts.

Lemma navigateMonth_round_trip_witness :
  let date := Grid.newDate 2024 0 15 in
  Grid.navigateMonth Grid.next date = Grid.newDate 2024 1 15
  ∧ Grid.navigateMonth Grid.prev (Grid.navigateMonth Grid.next date) = date.
Proof.
  intros date.
  destruct (navigateMonth_round_trip date) as (_ & _ & _ & _ & Hback & _).
  - vm_compute. intros H. discriminate H.
  - split; [vm_compute; reflexivity|exact Hback].
Defined.

(** From the 31st of January the next month is not February: the
    overflow of [setMonth] lands in March. *)
Example navigateMonth_skips_short_month :
  Grid.navigateMonth Grid.next (Grid.newDate 2024 0 31) = Grid.newDate 2024 2 2.
Proof. vm_compute. reflexivity. Qed.
